(** * Codon type checker: unification, overload probing and static arithmetic

    A shallow embedding of the parts of the Codon front end that the
    type-inference core rests on:

    - [Op]        static integer division ([divMod], typecheck/op.cpp);
    - [Expr]      call-argument validation ([CallExpr::validate], ast/expr.cpp);
    - [Types]     the type algebra, [hasUnbounds], [generalize], [instantiate]
                  and [unify] (ast/types/class.cpp, ast/types/function.cpp);
    - [Union]     growable union types (ast/types/union.h);
    - [Typecheck] the speculative probe [canCall] and the overload selection
                  [findMatchingMethods] / [findBestMethod]
                  (typecheck/typecheck.cpp).

    Definitions come first, the theorems about them follow. *)

From Stdlib Require Import ZArith Lia Bool List String.
From stdpp Require Import base option list gmap.
From stdpp Require strings.
Import ListNotations.

Local Open Scope Z_scope.

(* ===================================================================== *)
(** * Part I: definitions                                                 *)
(* ===================================================================== *)

(** ** Outcomes of partial computations *)

(** A C++ computation either yields a value, raises a compiler error
    (the [E(...)] macro throws), or has no defined behaviour. *)
Inductive outcome (E A : Type) : Type :=
| Value (a : A)
| Raise (e : E)
| Undefined.
Arguments Value {E A} a.
Arguments Raise {E A} e.
Arguments Undefined {E A}.

Definition obind {E A B} (m : outcome E A) (k : A -> outcome E B) : outcome E B :=
  match m with
  | Value a => k a
  | Raise e => Raise e
  | Undefined => Undefined
  end.

Notation "x <-- m ;; k" := (obind m (fun x => k))
  (at level 100, m at next level, right associativity).

(* --------------------------------------------------------------------- *)
(** ** [Op]: static division and modulus                                  *)
(* --------------------------------------------------------------------- *)
Module Op.

Inductive Error := STATIC_DIV_ZERO.

Definition INT64_MIN : Z := - 2 ^ 63.
Definition INT64_MAX : Z := 2 ^ 63 - 1.

Definition in_int64 (x : Z) : Prop := INT64_MIN <= x <= INT64_MAX.

Definition in_int64b (x : Z) : bool := (INT64_MIN <=? x) && (x <=? INT64_MAX).

(** Signed [int64_t] arithmetic: a result that is not representable is
    undefined behaviour, it does not wrap. *)
Definition s64 (x : Z) : outcome Error Z :=
  if in_int64b x then Value x else Undefined.

Definition sadd (a b : Z) : outcome Error Z := s64 (a + b).
Definition ssub (a b : Z) : outcome Error Z := s64 (a - b).
Definition smul (a b : Z) : outcome Error Z := s64 (a * b).

(** [a / b] and [a % b] truncate toward zero; both are undefined when the
    divisor is zero or the quotient is not representable. *)
Definition sdiv (a b : Z) : outcome Error Z :=
  if b =? 0 then Undefined else s64 (Z.quot a b).
Definition srem (a b : Z) : outcome Error Z :=
  if b =? 0 then Undefined
  else if in_int64b (Z.quot a b) then Value (Z.rem a b) else Undefined.

(** [divMod(ctx, a, b)], with [ctx->cache->pythonCompat] as a flag. *)
Definition divMod (pythonCompat : bool) (a b : Z) : outcome Error (Z * Z) :=
  if b =? 0 then Raise STATIC_DIV_ZERO
  else if pythonCompat then
    d <-- sdiv a b ;;
    t <-- smul d b ;;
    m <-- ssub a t ;;
    if negb (m =? 0) && (Z.lxor b m <? 0) then
      m' <-- sadd m b ;;
      d' <-- ssub d 1 ;;
      Value (d', m')
    else Value (d, m)
  else
    d <-- sdiv a b ;;
    m <-- srem a b ;;
    Value (d, m).

End Op.

(* --------------------------------------------------------------------- *)
(** ** [Expr]: validation of call arguments                               *)
(* --------------------------------------------------------------------- *)
Module Expr.

(** The node kinds [CallExpr::validate] tells apart in an argument value. *)
Inductive ExprKind := StarExpr | KeywordStarExpr | EllipsisExpr | OtherExpr.

Definition getStar (e : ExprKind) : bool :=
  match e with StarExpr => true | _ => false end.
Definition isKeywordStar (e : ExprKind) : bool :=
  match e with KeywordStarExpr => true | _ => false end.
Definition getEllipsis (e : ExprKind) : bool :=
  match e with EllipsisExpr => true | _ => false end.

(** [CallExpr::Arg]: an optional name (empty when positional) and a value. *)
Record Arg := mkArg { name : string; value : ExprKind }.

Record CallExpr := mkCall { expr : ExprKind; args : list Arg; ordered : bool }.

Inductive Error := CALL_NAME_ORDER | CALL_NAME_STAR | CALL_ELLIPSIS.

Definition empty (s : string) : bool := String.eqb s EmptyString.

(** The loop of [validate]; the two flags are its local variables. The
    first [E(...)] reached throws. *)
Fixpoint validate_loop (l : list Arg) (namesStarted foundEllipsis : bool)
  : option Error :=
  match l with
  | [] => None
  | a :: rest =>
      if empty (name a) && namesStarted &&
         negb (isKeywordStar (value a) || getEllipsis (value a))
      then Some CALL_NAME_ORDER
      else if negb (empty (name a)) &&
              (getStar (value a) || isKeywordStar (value a))
      then Some CALL_NAME_STAR
      else if getEllipsis (value a) && foundEllipsis
      then Some CALL_ELLIPSIS
      else validate_loop rest
             (namesStarted || negb (empty (name a)))
             (foundEllipsis || getEllipsis (value a))
  end.

(** [void CallExpr::validate() const]: the call is the state, handed back
    as it was when no error is raised. *)
Definition validate (c : CallExpr) : outcome Error CallExpr :=
  match validate_loop (args c) false false with
  | Some e => Raise e
  | None => Value c
  end.

(** The three faults in words, for an argument at position [i]. *)
Definition unnamed_after_named (l : list Arg) (i : nat) : Prop :=
  exists a, l !! i = Some a /\ name a = EmptyString /\
    value a <> KeywordStarExpr /\ value a <> EllipsisExpr /\
    exists j b, (j < i)%nat /\ l !! j = Some b /\ name b <> EmptyString.

Definition named_star (l : list Arg) (i : nat) : Prop :=
  exists a, l !! i = Some a /\ name a <> EmptyString /\
    (value a = StarExpr \/ value a = KeywordStarExpr).

Definition second_ellipsis (l : list Arg) (i : nat) : Prop :=
  exists a, l !! i = Some a /\ value a = EllipsisExpr /\
    exists j b, (j < i)%nat /\ l !! j = Some b /\ value b = EllipsisExpr.

Definition ill_formed (l : list Arg) : Prop :=
  exists i, unnamed_after_named l i \/ named_star l i \/ second_ellipsis l i.

(** The faults of [validate] relative to the loop's two flags. *)
Definition fault_from (l : list Arg) (namesStarted foundEllipsis : bool) : Prop :=
  exists i a, l !! i = Some a /\
    ((name a = EmptyString /\ value a <> KeywordStarExpr /\
      value a <> EllipsisExpr /\
      (namesStarted = true \/
       exists j b, (j < i)%nat /\ l !! j = Some b /\ name b <> EmptyString)) \/
     (name a <> EmptyString /\
      (value a = StarExpr \/ value a = KeywordStarExpr)) \/
     (value a = EllipsisExpr /\
      (foundEllipsis = true \/
       exists j b, (j < i)%nat /\ l !! j = Some b /\ value b = EllipsisExpr))).

End Expr.

(* --------------------------------------------------------------------- *)
(** ** [Types]: the type algebra                                          *)
(* --------------------------------------------------------------------- *)
Module Types.

(** The literal carried by a static type ([IntStaticType], [StrStaticType],
    [BoolStaticType] of types/static.h). *)
Inductive StaticValue :=
| IntStatic (value : Z)
| StrStatic (value : string)
| BoolStatic (value : bool).

(** [ClassType::Generic]: a named slot; [gtype] is a shared pointer and may
    be null. *)
Record Generic (T : Type) := mkGeneric
  { gname : string; gid : nat; gtype : option T; gisStatic : bool }.
Arguments mkGeneric {T}.
Arguments gname {T}.
Arguments gid {T}.
Arguments gtype {T}.
Arguments gisStatic {T}.

(** The data members of [ClassType]. *)
Record ClassFields (T : Type) := mkClass
  { name : string; niceName : string;
    generics : list (Generic T); hiddenGenerics : list (Generic T);
    isTuple : bool }.
Arguments mkClass {T}.
Arguments name {T}.
Arguments niceName {T}.
Arguments generics {T}.
Arguments hiddenGenerics {T}.
Arguments isTuple {T}.

(** What the type checker reads of a declaration: its canonical name, for
    each parameter whether it is a value (as opposed to a generic), and its
    attributes. *)
Record Param := mkParam { pname : string; isValue : bool }.
Record FunctionStmt := mkFunctionStmt
  { fname : string; params : list Param; attributes : list string }.

Scheme All for option.
Scheme All for list.
Scheme All for Generic.
Scheme All for ClassFields.

(** The type graph as a term. A [LinkType] object is one of [Unbound],
    [GenericVar] (an unbound whose kind was changed to generic) and [Link];
    the variable [id] is what makes two occurrences the same node. A
    [FuncType] carries the address of its object, which is all that
    [FuncType::unify] compares by pointer. A static type carries the class
    name its constructor was given. *)
Inductive Ty : Type :=
| Unbound (id : nat) (level : nat) (isStatic : bool)
| GenericVar (id : nat) (isStatic : bool)
| Link (target : Ty)
| ClassType (c : ClassFields Ty)
| FuncType (addr : nat) (c : ClassFields Ty) (ast : FunctionStmt) (index : nat)
           (funcGenerics : list (Generic Ty)) (funcParent : option Ty)
| StaticType (sname : string) (value : StaticValue).

(** *** [hasUnbounds] *)

(** [for (auto &t : gs) if (t.type && f(t.type)) return true;]
    A [None] is a fault met on the way (a null or missing slot that the
    source dereferences). *)
Fixpoint anyGeneric (f : Ty -> option bool) (gs : list (Generic Ty)) : option bool :=
  match gs with
  | [] => Some false
  | g :: gs' =>
      match gtype g with
      | None => anyGeneric f gs'
      | Some t =>
          match f t with
          | Some true => Some true
          | Some false => anyGeneric f gs'
          | None => None
          end
      end
  end.

(** Modelled from the spec: [LinkType::hasUnbounds] and the static types'
    are not under src; an [Unbound] has unbounds, a generic only when
    [includeGenerics] is set, a link what its target has, a static none. *)
Definition LinkType_hasUnbounds (rec : Ty -> option bool)
  (includeGenerics : bool) (t : Ty) : option bool :=
  match t with
  | Unbound _ _ _ => Some true
  | GenericVar _ _ => Some includeGenerics
  | Link t' => rec t'
  | _ => Some false
  end.

(** [ClassType::hasUnbounds] and [FuncType::hasUnbounds]. The parameter
    types of a function are the generics of the tuple class in
    [generics[0]] ([getArgTypes]), its return type is [generics[1]]
    ([getRetType]); [argsHaveUnbounds] is the loop over [getArgTypes()]. *)
Fixpoint hasUnbounds (includeGenerics : bool) (t : Ty) {struct t} : option bool :=
  match t with
  | Unbound _ _ _ | GenericVar _ _ | Link _ | StaticType _ _ =>
      LinkType_hasUnbounds (hasUnbounds includeGenerics) includeGenerics t
  | ClassType c =>
      match anyGeneric (hasUnbounds includeGenerics) (generics c) with
      | Some false => anyGeneric (hasUnbounds includeGenerics) (hiddenGenerics c)
      | r => r
      end
  | FuncType _ c _ _ fg fp =>
      match anyGeneric (hasUnbounds includeGenerics) fg with
      | Some false =>
          match match fp with
                | Some p => hasUnbounds includeGenerics p
                | None => Some false
                end with
          | Some false =>
              match generics c with
              | g0 :: g1 :: _ =>
                  match gtype g0, gtype g1 with
                  | Some t0, Some tr =>
                      match argsHaveUnbounds includeGenerics t0 with
                      | Some false => hasUnbounds includeGenerics tr
                      | r => r
                      end
                  | _, _ => None
                  end
              | _ => None
              end
          | r => r
          end
      | r => r
      end
  end
with argsHaveUnbounds (includeGenerics : bool) (t0 : Ty) {struct t0} : option bool :=
  match t0 with
  | Link t' => argsHaveUnbounds includeGenerics t'
  | ClassType c => anyGeneric (hasUnbounds includeGenerics) (generics c)
  | FuncType _ c _ _ _ _ => anyGeneric (hasUnbounds includeGenerics) (generics c)
  | StaticType _ _ => Some false
  | _ => None
  end.

(** What the claim about [FuncType::hasUnbounds] asks for, in the spec's
    words: some function generic, the parent, or a parameter type has an
    unbound; the return type is not looked at. *)
Definition hasUnbounds_skipping_return (includeGenerics : bool)
  (c : ClassFields Ty) (fg : list (Generic Ty)) (fp : option Ty) : option bool :=
  match anyGeneric (hasUnbounds includeGenerics) fg with
  | Some false =>
      match match fp with
            | Some p => hasUnbounds includeGenerics p
            | None => Some false
            end with
      | Some false =>
          match generics c with
          | g0 :: _ =>
              match gtype g0 with
              | Some t0 => argsHaveUnbounds includeGenerics t0
              | None => None
              end
          | _ => None
          end
      | r => r
      end
  | r => r
  end.

(** *** [generalize] and [instantiate] *)

(** [for (auto &t : g) t.type = t.type ? f(t.type) : nullptr;] with the
    state [f] threads. *)
Fixpoint mapGenerics {S : Type} (f : Ty -> S -> Ty * S)
  (gs : list (Generic Ty)) (s : S) : list (Generic Ty) * S :=
  match gs with
  | [] => ([], s)
  | g :: gs' =>
      match gtype g with
      | None => let '(r, s') := mapGenerics f gs' s in (g :: r, s')
      | Some t =>
          let '(t', s1) := f t s in
          let '(r, s2) := mapGenerics f gs' s1 in
          (mkGeneric (gname g) (gid g) (Some t') (gisStatic g) :: r, s2)
      end
  end.

(** [ClassType::generalize]; the state is the next free object address. *)
Definition ClassType_generalize (rec : Ty -> nat -> Ty * nat)
  (c : ClassFields Ty) (heap : nat) : ClassFields Ty * nat :=
  let '(g, h1) := mapGenerics rec (generics c) heap in
  let '(hg, h2) := mapGenerics rec (hiddenGenerics c) h1 in
  (mkClass (name c) (niceName c) g hg (isTuple c), h2).

(** Modelled from the spec: [LinkType::generalize] and
    [StaticType::generalize] are not under src; every [Unbound] whose level
    is at least [atLevel] is marked generic, a link is followed, anything
    else is left as it is. *)
Definition LinkType_generalize (rec : Ty -> nat -> Ty * nat)
  (atLevel : nat) (t : Ty) (heap : nat) : Ty * nat :=
  match t with
  | Unbound id level st =>
      if (atLevel <=? level)%nat then (GenericVar id st, heap) else (t, heap)
  | Link t' => rec t' heap
  | _ => (t, heap)
  end.

(** [generalize(atLevel)]: [ClassType::generalize] and
    [FuncType::generalize], which allocates the new function object. *)
Fixpoint generalize (atLevel : nat) (t : Ty) (heap : nat) {struct t} : Ty * nat :=
  match t with
  | Unbound _ _ _ | GenericVar _ _ | Link _ | StaticType _ _ =>
      LinkType_generalize (generalize atLevel) atLevel t heap
  | ClassType c =>
      let '(c', h) := ClassType_generalize (generalize atLevel) c heap in
      (ClassType c', h)
  | FuncType _ c ast index fg fp =>
      let '(g, h1) := mapGenerics (generalize atLevel) fg heap in
      let '(p, h2) :=
        match fp with
        | Some p => let '(p', h) := generalize atLevel p h1 in (Some p', h)
        | None => (None, h1)
        end in
      let '(c', h3) := ClassType_generalize (generalize atLevel) c h2 in
      (FuncType h3 c' ast index g p, S h3)
  end.

(** The state of an instantiation: the counter behind [unboundCount], the
    substitution [cache], and the next free object address. *)
Record IState := mkIState
  { unboundCount : nat; cache : gmap nat Ty; heap : nat }.

(** The loop of [FuncType::instantiate] over [funcGenerics]: a slot whose
    id is not yet in the cache is entered with its instantiated type. *)
Fixpoint mapFuncGenerics (f : Ty -> IState -> Ty * IState)
  (gs : list (Generic Ty)) (s : IState) : list (Generic Ty) * IState :=
  match gs with
  | [] => ([], s)
  | g :: gs' =>
      match gtype g with
      | None => let '(r, s') := mapFuncGenerics f gs' s in (g :: r, s')
      | Some t =>
          let '(t', s1) := f t s in
          let s1' :=
            match cache s1 !! gid g with
            | None => mkIState (unboundCount s1) (<[gid g := t']> (cache s1)) (heap s1)
            | Some _ => s1
            end in
          let '(r, s2) := mapFuncGenerics f gs' s1' in
          (mkGeneric (gname g) (gid g) (Some t') (gisStatic g) :: r, s2)
      end
  end.

(** [ClassType::instantiate]. *)
Definition ClassType_instantiate (rec : Ty -> IState -> Ty * IState)
  (c : ClassFields Ty) (s : IState) : ClassFields Ty * IState :=
  let '(g, s1) := mapGenerics rec (generics c) s in
  let '(hg, s2) := mapGenerics rec (hiddenGenerics c) s1 in
  (mkClass (name c) (niceName c) g hg (isTuple c), s2).

(** Modelled from the spec: [LinkType::instantiate] and
    [StaticType::instantiate] are not under src; a generic becomes the
    variable the cache holds for its id, or else a fresh [Unbound] at
    [atLevel] that is entered in the cache; a link is followed; anything
    else is left as it is. *)
Definition LinkType_instantiate (rec : Ty -> IState -> Ty * IState)
  (atLevel : nat) (t : Ty) (s : IState) : Ty * IState :=
  match t with
  | GenericVar id st =>
      match cache s !! id with
      | Some t' => (t', s)
      | None =>
          let t' := Unbound (unboundCount s) atLevel st in
          (t', mkIState (S (unboundCount s)) (<[id := t']> (cache s)) (heap s))
      end
  | Link t' => rec t' s
  | _ => (t, s)
  end.

(** [instantiate(atLevel, unboundCount, cache)], both pointers given:
    [ClassType::instantiate] and [FuncType::instantiate]. *)
Fixpoint instantiate (atLevel : nat) (t : Ty) (s : IState) {struct t} : Ty * IState :=
  match t with
  | Unbound _ _ _ | GenericVar _ _ | Link _ | StaticType _ _ =>
      LinkType_instantiate (instantiate atLevel) atLevel t s
  | ClassType c =>
      let '(c', s') := ClassType_instantiate (instantiate atLevel) c s in
      (ClassType c', s')
  | FuncType _ c ast index fg fp =>
      let '(g, s1) := mapFuncGenerics (instantiate atLevel) fg s in
      let '(p, s2) :=
        match fp with
        | Some p => let '(p', s') := instantiate atLevel p s1 in (Some p', s')
        | None => (None, s1)
        end in
      let '(c', s3) := ClassType_instantiate (instantiate atLevel) c s2 in
      (FuncType (heap s3) c' ast index g p,
       mkIState (unboundCount s3) (cache s3) (S (heap s3)))
  end.

(** *** Unification *)

(** The mutable part of the type graph and the undo log. [store] holds,
    for every [Unbound] object that unification has turned into a link, the
    type it now points to; [undoLog] is the stack of
    (unbound node, previous binding) pairs, the latest first. *)
Record UState := mkUState
  { store : gmap nat Ty; undoLog : list (nat * option Ty) }.

(** Modelled from the spec: the constructor of [IntStaticType] is not under
    src; the class name it hands to [StaticType] is taken to be "int". *)
Definition IntStaticType (v : Z) : Ty := StaticType "int" (IntStatic v).

Definition static_eqb (a b : StaticValue) : bool :=
  match a, b with
  | IntStatic x, IntStatic y => (x =? y)%Z
  | StrStatic x, StrStatic y => String.eqb x y
  | BoolStatic x, BoolStatic y => Bool.eqb x y
  | _, _ => false
  end.

(** Modelled from the spec: [LinkType::follow] is not under src;
    dereferencing goes through [Link] nodes and through unbounds the store
    has bound, to the first node that is neither. [None]: out of fuel. *)
Fixpoint follow (fuel : nat) (st : gmap nat Ty) (t : Ty) : option Ty :=
  match fuel with
  | O => None
  | S n =>
      match t with
      | Link t' => follow n st t'
      | Unbound id _ _ =>
          match st !! id with
          | Some t' => follow n st t'
          | None => Some t
          end
      | _ => Some t
      end
  end.

(** The [ClassType] view of a dereferenced node ([getClass]): function and
    static types are class types too. *)
Definition as_class (t : Ty) : option (ClassFields Ty) :=
  match t with
  | ClassType c => Some c
  | FuncType _ c _ _ _ _ => Some c
  | StaticType n _ => Some (mkClass n n [] [] false)
  | _ => None
  end.

(** [getLink()] is non-null. *)
Definition is_link (t : Ty) : bool :=
  match t with Unbound _ _ _ | GenericVar _ _ | Link _ => true | _ => false end.

(** A unifier returns the score and the new state, or [None] when the
    model has no answer: fuel ran out, or the source dereferences a null or
    missing slot or trips a [seqassert]. *)
Definition Unifier := Ty -> Ty -> UState -> option (Z * UState).

(** The loop over two generic lists,
    [if ((s = a[i].type->unify(b[i].type, us)) == -1) return -1; s1 += s;].
    The result is [inl] for the early [return -1] and [inr] with the sum
    when the loop ends. *)
Fixpoint unify_generics (rec : Unifier) (g1 g2 : list (Generic Ty)) (s1 : Z)
  (us : UState) : option ((unit + Z) * UState) :=
  match g1, g2 with
  | a :: g1', b :: g2' =>
      match gtype a, gtype b with
      | Some ta, Some tb =>
          match rec ta tb us with
          | None => None
          | Some (s, us') =>
              if (s =? -1)%Z then Some (inl tt, us')
              else unify_generics rec g1' g2' (s1 + s) us'
          end
      | _, _ => None
      end
  | _, _ => Some (inr s1, us)
  end.

(** [ClassType::unify]; [this] is the object, [c] its class members. *)
Definition ClassType_unify (fuel : nat) (rec : Unifier)
  (this : Ty) (c : ClassFields Ty) (typ : Ty) (us : UState) : option (Z * UState) :=
  match follow fuel (store us) typ with
  | None => None
  | Some node =>
      match as_class node with
      | Some tc =>
          if String.eqb (name c) "int" && String.eqb (name tc) "Int" then
            rec node this us
          else if String.eqb (name tc) "int" && String.eqb (name c) "Int" then
            match generics c with
            | g0 :: _ =>
                match gtype g0 with
                | Some t0 => rec t0 (IntStaticType 64) us
                | None => None
                end
            | [] => None
            end
          else if negb (String.eqb (name c) (name tc)) then Some (-1, us)
          else if negb (length (generics c) =? length (generics tc))%nat then
            Some (-1, us)
          else
            match unify_generics rec (generics c) (generics tc) 3 us with
            | None => None
            | Some (inl _, us') => Some (-1, us')
            | Some (inr s1, us') => Some (s1, us')
            end
      | None =>
          if is_link typ then rec typ this us else Some (-1, us)
      end
  end.

(** [this == typ]: only function objects carry an address. *)
Definition same_object (this typ : Ty) : bool :=
  match this, typ with
  | FuncType a _ _ _ _ _, FuncType b _ _ _ _ _ => (a =? b)%nat
  | _, _ => false
  end.

(** [FuncType::unify]. *)
Definition FuncType_unify (fuel : nat) (rec : Unifier) (this : Ty)
  (c : ClassFields Ty) (ast : FunctionStmt) (index : nat)
  (funcGenerics : list (Generic Ty)) (funcParent : option Ty)
  (typ : Ty) (us : UState) : option (Z * UState) :=
  if same_object this typ then Some (0, us)
  else
    let finish (s1 : Z) (us : UState) :=
      match ClassType_unify fuel rec this c typ us with
      | None => None
      | Some (s, us') => Some (if (s =? -1)%Z then s else s1 + s, us')
      end in
    match follow fuel (store us) typ with
    | None => None
    | Some (FuncType _ _ ast' index' funcGenerics' funcParent') =>
        if negb (String.eqb (fname ast) (fname ast'))
           || negb (index =? index')%nat
           || xorb (bool_decide (is_Some funcParent))
                   (bool_decide (is_Some funcParent'))
        then Some (-1, us)
        else
          let after_parent (s1 : Z) (us : UState) :=
            if negb (length funcGenerics =? length funcGenerics')%nat then None
            else
              match unify_generics rec funcGenerics funcGenerics' s1 us with
              | None => None
              | Some (inl _, us') => Some (-1, us')
              | Some (inr s, us') => finish s us'
              end in
          match funcParent, funcParent' with
          | Some p, Some p' =>
              match rec p p' us with
              | None => None
              | Some (s, us') =>
                  if (s =? -1)%Z then Some (-1, us') else after_parent (2 + s) us'
              end
          | _, _ => after_parent 2 us
          end
    | Some _ => finish 2 us
    end.

(** Modelled from the spec: the static types' [unify] are not under src;
    a static unifies with another static of the same kind and equal value
    (score 0), or with an unresolved slot, and with nothing else. *)
Definition StaticType_unify (fuel : nat) (rec : Unifier) (this : Ty)
  (value : StaticValue) (typ : Ty) (us : UState) : option (Z * UState) :=
  match follow fuel (store us) typ with
  | None => None
  | Some (StaticType _ value') =>
      Some (if static_eqb value value' then 0 else -1, us)
  | Some (Unbound _ _ _) => rec typ this us
  | Some _ => Some (-1, us)
  end.

(** Modelled from the spec: [LinkType::unify] is not under src. A link
    unifies as its target. An unbound dereferences the other side and binds
    itself to it, pushing (itself, no previous binding) on the undo log,
    with score 0; it is left alone when the other side is the same node,
    and fails against a static type unless it is a static slot. A generic
    unifies with nothing. *)
Definition LinkType_unify (fuel : nat) (rec : Unifier) (this : Ty)
  (typ : Ty) (us : UState) : option (Z * UState) :=
  match this with
  | Link target => rec target typ us
  | Unbound id _ isStatic =>
      match store us !! id with
      | Some target => rec target typ us
      | None =>
          match follow fuel (store us) typ with
          | None => None
          | Some other =>
              let bind :=
                Some (0, mkUState (<[id := other]> (store us))
                                  ((id, None) :: undoLog us)) in
              match other with
              | Unbound id' _ _ => if (id =? id')%nat then Some (0, us) else bind
              | StaticType _ _ => if isStatic then bind else Some (-1, us)
              | _ => bind
              end
          end
      end
  | _ => Some (-1, us)
  end.

(** [this->unify(typ, us)], dispatched on the dynamic type of [this]. *)
Fixpoint unify (fuel : nat) (this typ : Ty) (us : UState) : option (Z * UState) :=
  match fuel with
  | O => None
  | S n =>
      match this with
      | ClassType c => ClassType_unify n (unify n) this c typ us
      | FuncType _ c ast index fg fp =>
          FuncType_unify n (unify n) this c ast index fg fp typ us
      | StaticType _ v => StaticType_unify n (unify n) this v typ us
      | _ => LinkType_unify n (unify n) this typ us
      end
  end.

(** Modelled from the spec: [Type::Unification::undo] is not under src;
    the log is unwound from the latest entry, each node getting back the
    binding it had. *)
Fixpoint undo (log : list (nat * option Ty)) (st : gmap nat Ty) : gmap nat Ty :=
  match log with
  | [] => st
  | (id, prev) :: rest =>
      undo rest (match prev with
                 | Some t => <[id := t]> st
                 | None => delete id st
                 end)
  end.

(** *** Predicates the theorems are stated with *)

(** [rec'] answers wherever [rec] does, and the same. *)
Definition answers_as (rec rec' : Unifier) : Prop :=
  forall a b us r, rec a b us = Some r -> rec' a b us = Some r.

(** The sum of a list of scores. *)
Definition sum_scores (ss : list Z) : Z := fold_right Z.add 0 ss.

(** The generics of two lists unify pairwise, in order, with the scores
    [ss], none of them -1, taking the state from [us] to [us']. *)
Inductive pairwise (rec : Unifier)
  : list (Generic Ty) -> list (Generic Ty) -> UState -> list Z -> UState -> Prop :=
| pairwise_nil us : pairwise rec [] [] us [] us
| pairwise_cons a b ta tb g1 g2 us s us1 ss us2 :
    gtype a = Some ta -> gtype b = Some tb ->
    rec ta tb us = Some (s, us1) -> s <> -1 ->
    pairwise rec g1 g2 us1 ss us2 ->
    pairwise rec (a :: g1) (b :: g2) us (s :: ss) us2.

(** Some pair fails to unify (score -1) after all pairs before it have
    unified; [us'] is the state the failing unification leaves. *)
Inductive pairwise_fails (rec : Unifier)
  : list (Generic Ty) -> list (Generic Ty) -> UState -> UState -> Prop :=
| fails_here a b ta tb g1 g2 us us1 :
    gtype a = Some ta -> gtype b = Some tb ->
    rec ta tb us = Some (-1, us1) ->
    pairwise_fails rec (a :: g1) (b :: g2) us us1
| fails_later a b ta tb g1 g2 us s us1 us2 :
    gtype a = Some ta -> gtype b = Some tb ->
    rec ta tb us = Some (s, us1) -> s <> -1 ->
    pairwise_fails rec g1 g2 us1 us2 ->
    pairwise_fails rec (a :: g1) (b :: g2) us us2.

(** [P] holds of every type a slot of [gs] holds. *)
Definition slots (P : Ty -> Prop) (gs : list (Generic Ty)) : Prop :=
  forall g t, In g gs -> gtype g = Some t -> P t.

(** Every slot of [gs] holds a type, and [P] holds of it. *)
Fixpoint all_slots (P : Ty -> Prop) (gs : list (Generic Ty)) : Prop :=
  match gs with
  | [] => True
  | g :: gs' =>
      match gtype g with Some t => P t | None => False end /\ all_slots P gs'
  end.

(** A concrete (fully resolved) type: no unbound and no generic variable
    is reachable, and every slot holds a type. *)
Fixpoint concrete (t : Ty) : Prop :=
  match t with
  | Unbound _ _ _ | GenericVar _ _ => False
  | Link t' => concrete t'
  | ClassType c =>
      all_slots concrete (generics c) /\ all_slots concrete (hiddenGenerics c)
  | FuncType _ c _ _ fg fp =>
      all_slots concrete (generics c) /\ all_slots concrete (hiddenGenerics c) /\
      all_slots concrete fg /\
      match fp with Some p => concrete p | None => True end
  | StaticType _ _ => True
  end.

(** [k] links in front of a type. *)
Fixpoint links (k : nat) (t : Ty) : Ty :=
  match k with O => t | S k' => Link (links k' t) end.

(** What is proved of a concrete [t] by induction: against itself behind
    [k] links it unifies with some score [s >= 0], for all fuel from some
    point on, and leaves the state alone. *)
Definition unifies_with_itself (t : Ty) : Prop :=
  forall k us, exists s n0,
    0 <= s /\
    forall fuel, (n0 <= fuel)%nat ->
      unify fuel t (links k t) us = Some (s, us).

(** [us'] comes from [us] by bindings that the log records: the log has
    grown by [delta], and unwinding [delta] gives the store of [us] back. *)
Definition logged (us us' : UState) : Prop :=
  exists delta, undoLog us' = delta ++ undoLog us /\
                undo delta (store us') = store us.

(** Every answer of [rec] is logged. *)
Definition logs (rec : Unifier) : Prop :=
  forall a b us s us', rec a b us = Some (s, us') -> logged us us'.

End Types.

(* --------------------------------------------------------------------- *)
(** ** [Union]: growable union types                                      *)
(* --------------------------------------------------------------------- *)
Module Union.

Inductive Error := UNION_SEALED | UNION_TOO_BIG.

(** [static const int MAX_UNION = 256] (types/union.h). *)
Definition MAX_UNION : nat := 256.

Section Members.
Context {Member : Type} `{EqDecision Member}.

(** The members a union has collected ([pendingTypes]) and whether it has
    been sealed. *)
Record UnionType := mkUnion { pendingTypes : list Member; sealed : bool }.

Definition empty_union : UnionType := mkUnion [] false.

Definition isSealed (u : UnionType) : bool := sealed u.

(** Modelled from the spec: [UnionType::addType] is declared in
    types/union.h, its body is not under src. The members form a
    deduplicated, growable set of at most [MAX_UNION] types; adding to a
    sealed union fails, and so does exceeding [MAX_UNION]; a failing call
    raises and leaves the union as it was. The result is the union after
    the call and the error raised, if any. *)
Definition addType (t : Member) (u : UnionType) : UnionType * option Error :=
  if isSealed u then (u, Some UNION_SEALED)
  else if bool_decide (t ∈ pendingTypes u) then (u, None)
  else if (MAX_UNION <=? length (pendingTypes u))%nat then (u, Some UNION_TOO_BIG)
  else (mkUnion (pendingTypes u ++ [t]) false, None).

(** Modelled from the spec: [UnionType::seal] is declared in
    types/union.h, its body is not under src; the union becomes immutable. *)
Definition seal (u : UnionType) : UnionType := mkUnion (pendingTypes u) true.

(** The operations a client may apply to a union, and a run of them. *)
Inductive Op := AddType (t : Member) | Seal.

Definition step (u : UnionType) (o : Op) : UnionType :=
  match o with
  | AddType t => fst (addType t u)
  | Seal => seal u
  end.

Definition run (ops : list Op) (u : UnionType) : UnionType :=
  fold_left step ops u.

End Members.
Arguments UnionType Member : clear implicits.
Arguments Op Member : clear implicits.

End Union.

(* --------------------------------------------------------------------- *)
(** ** [Typecheck]: the speculative probe and overload selection          *)
(* --------------------------------------------------------------------- *)
Module Typecheck.
Import Types.

(** A call argument as the probe reads it: its name and the type of its
    expression. *)
Record CallArg := mkCallArg { argName : string; exprType : Ty }.

Definition no_argument_wrap : string :=
  "std.internal.attributes.no_argument_wrap.0:0".

Definition hasAttribute (ast : FunctionStmt) (a : string) : bool :=
  existsb (String.eqb a) (attributes ast).

(** Modelled from the spec: [Type::isStaticType] is not under src; a
    dereferenced node is static when it is a static type or a static slot. *)
Definition isStaticType (fuel : nat) (st : gmap nat Ty) (t : Ty) : option bool :=
  match follow fuel st t with
  | None => None
  | Some (StaticType _ _) => Some true
  | Some (Unbound _ _ s) => Some s
  | Some (GenericVar _ s) => Some s
  | Some _ => Some false
  end.

(** [extractClassGeneric(t, idx)]: [seqassert]s that [t] is a class with
    more than [idx] generics ([None] otherwise); the pointer it returns may
    be null (inner [None]). *)
Definition extractClassGeneric (fuel : nat) (st : gmap nat Ty) (t : Ty) (idx : nat)
  : option (option Ty) :=
  match follow fuel st t with
  | None => None
  | Some node =>
      match as_class node with
      | Some c => gtype <$> generics c !! idx
      | None => None
      end
  end.

(** [extractFuncGeneric(t, idx)]. *)
Definition extractFuncGeneric (fuel : nat) (st : gmap nat Ty) (t : Ty) (idx : nat)
  : option (option Ty) :=
  match follow fuel st t with
  | Some (FuncType _ _ _ _ fg _) => gtype <$> fg !! idx
  | _ => None
  end.

(** [extractFuncArgType(t, idx)]. *)
Definition extractFuncArgType (fuel : nat) (st : gmap nat Ty) (t : Ty) (idx : nat)
  : option (option Ty) :=
  match follow fuel st t with
  | Some (FuncType _ _ _ _ _ _) =>
      match extractClassGeneric fuel st t 0 with
      | Some (Some tup) => extractClassGeneric fuel st tup idx
      | _ => None
      end
  | _ => None
  end.

(** What [wrapExpr] leaves behind: the type of the (possibly replaced)
    expression and the type graph, or the graph alone when it throws a
    [ParserException]. *)
Inductive Wrapped :=
| WrapOk (t : Ty) (st : gmap nat Ty)
| WrapThrows (st : gmap nat Ty).

(** The local variables of [canCall]'s loop and the type graph. *)
Record Probe := mkProbe
  { score : Z; mai : nat; gi : nat; real_gi : nat; graph : gmap nat Ty }.

Definition set_score (p : Probe) (s : Z) : Probe :=
  mkProbe s (mai p) (gi p) (real_gi p) (graph p).
Definition set_graph (p : Probe) (g : gmap nat Ty) : Probe :=
  mkProbe (score p) (mai p) (gi p) (real_gi p) g.

Section CanCall.

(** The coercions of [wrapExpr] below its argument-wrap guard
    ([transform], [realize] and the class tables they use are not under
    src): given the type of the expression, the expected type and the
    graph. *)
Variable wrapBody : Ty -> Ty -> gmap nat Ty -> Wrapped.

(** The fuel handed to every unification and dereference of the probe. *)
Variable fuel : nat.

(** [wrapExpr(&dummy, expectTyp, fn)], the callee given:
    [if (!doArgWrap) return true;] comes before any coercion. *)
Definition wrapExpr (t expectedType : Ty) (callee : FunctionStmt)
  (st : gmap nat Ty) : Wrapped :=
  if hasAttribute callee no_argument_wrap then WrapOk t st
  else wrapBody t expectedType st.

(** Lines 875-894 of [canCall]: wrap the dummy expression, unify its type
    with the expected one on a fresh undo log, and roll back when the
    unification succeeds. *)
Definition probe_unify (callee : FunctionStmt) (argType expectTyp : Ty)
  (p : Probe) : option Probe :=
  match wrapExpr argType expectTyp callee (graph p) with
  | WrapThrows st => Some (set_graph (set_score p (-1)) st)
  | WrapOk t st =>
      match unify fuel t expectTyp (mkUState st []) with
      | None => None
      | Some (s, us) =>
          if (0 <=? s)%Z then Some (set_graph p (undo (undoLog us) (store us)))
          else Some (set_graph (set_score p (-1)) (store us))
      end
  end.

(** One turn of the loop at index [ai] over [reordered[ai]]; the [break]
    is taken right after [score = -1], where the loop guard stops as well. *)
Definition probe_arg (fn : Ty) (callee : FunctionStmt) (args : list CallArg)
  (ai : nat) (item : option Ty * nat) (p : Probe) : option Probe :=
  match params callee !! ai with
  | None => None
  | Some prm =>
      match (if isValue prm then extractFuncArgType fuel (graph p) fn (mai p)
             else extractFuncGeneric fuel (graph p) fn (gi p)) with
      | None => None
      | Some expectTyp =>
          let p1 := if isValue prm
                    then mkProbe (score p) (S (mai p)) (gi p) (real_gi p) (graph p)
                    else mkProbe (score p) (mai p) (S (gi p)) (real_gi p) (graph p) in
          match fst item with
          | None => Some p1
          | Some argType =>
              if isValue prm then
                match expectTyp with
                | Some e => probe_unify callee argType e p1
                | None => None
                end
              else
                let p2 := mkProbe (score p1) (mai p1) (gi p1) (S (real_gi p1))
                                  (graph p1) in
                match expectTyp with
                | None => Some p2
                | Some e =>
                    match isStaticType fuel (graph p2) e with
                    | None => None
                    | Some false => Some p2
                    | Some true =>
                        match args !! snd item with
                        | None => None
                        | Some a =>
                            match isStaticType fuel (graph p2) (exprType a) with
                            | None => None
                            | Some false => Some (set_score p2 (-1))
                            | Some true => probe_unify callee (exprType a) e p2
                            end
                        end
                    end
                end
          end
      end
  end.

(** [for (; score != -1 && ai < reordered.size(); ai++)]. *)
Fixpoint canCall_loop (fn : Ty) (callee : FunctionStmt) (args : list CallArg)
  (ai : nat) (reordered : list (option Ty * nat)) (p : Probe) : option Probe :=
  match reordered with
  | [] => Some p
  | item :: rest =>
      if (score p =? -1)%Z then Some p
      else
        match probe_arg fn callee args ai item p with
        | None => None
        | Some p' => canCall_loop fn callee args (S ai) rest p'
        end
  end.

(** [canCall(fn, args, part)] from line 853 on. [ctx->reorderNamedArgs] is
    not under src: the score it returned and the [reordered] vector its
    callback filled are given. The result is the score and the type graph
    the probe leaves. *)
Definition canCall (fn : Ty) (args : list CallArg)
  (reorder_score : Z) (reordered : list (option Ty * nat))
  (st : gmap nat Ty) : option (Z * gmap nat Ty) :=
  match fn with
  | FuncType _ _ callee _ funcGenerics _ =>
      match canCall_loop fn callee args 0 reordered
              (mkProbe reorder_score 0 0 0 st) with
      | None => None
      | Some p =>
          Some (if (0 <=? score p)%Z
                then score p + (if (real_gi p =? length funcGenerics)%nat then 1 else 0)
                else score p,
                graph p)
      end
  | _ => None
  end.

End CanCall.

(** Whether the argument at position [ai] is a bound generic: the
    parameter is not a value and [reordered[ai]] holds a type. *)
Definition bound_generic (callee : FunctionStmt) (ai : nat)
  (item : option Ty * nat) : nat :=
  match params callee !! ai with
  | Some prm => if negb (isValue prm) && bool_decide (is_Some (fst item))
                then 1 else 0
  | None => 0
  end.

(** The number of bound generics from position [ai] on. *)
Fixpoint bound_generics (callee : FunctionStmt) (ai : nat)
  (reordered : list (option Ty * nat)) : nat :=
  match reordered with
  | [] => 0
  | item :: rest => bound_generic callee ai item + bound_generics callee (S ai) rest
  end.

(** [wrapBody] leaves the type graph alone, whether it returns or throws. *)
Definition graph_preserving (wrapBody : Ty -> Ty -> gmap nat Ty -> Wrapped) : Prop :=
  forall t e st,
    match wrapBody t e st with
    | WrapOk _ st' => st' = st
    | WrapThrows st' => st' = st
    end.

(** [mai] and [gi] when the loop of [canCall] is at position [ai]: the
    number of value parameters, and of generic ones, before it. *)
Definition value_index (callee : FunctionStmt) (ai : nat) : nat :=
  length (List.filter isValue (take ai (params callee))).

Definition generic_index (callee : FunctionStmt) (ai : nat) : nat :=
  length (List.filter (fun prm => negb (isValue prm)) (take ai (params callee))).

(** The declared type that corresponds to position [ai]: the type of the
    parameter for a value, the function generic for a generic. The outer
    [None] is a position without a parameter or without a slot, the inner
    one a null slot. *)
Definition declared (argTypes funcGenerics : list (Generic Ty))
  (callee : FunctionStmt) (ai : nat) : option (option Ty) :=
  match params callee !! ai with
  | None => None
  | Some prm =>
      if isValue prm then gtype <$> argTypes !! value_index callee ai
      else gtype <$> funcGenerics !! generic_index callee ai
  end.

Section Verdict.

Variable wrapBody : Ty -> Ty -> gmap nat Ty -> Wrapped.
Variable fuel : nat.

(** The declared parameter types and function generics of the candidate,
    its declaration, and the arguments of the call. *)
Variable argTypes funcGenerics : list (Generic Ty).
Variable callee : FunctionStmt.
Variable args : list CallArg.

(** In the graph [st], the type [argType], coerced without a change of
    the graph, unifies with the declared type [e]. *)
Definition unifies (argType e : Ty) (st : gmap nat Ty) : Prop :=
  exists t s us,
    wrapExpr wrapBody argType e callee st = WrapOk t st /\
    unify fuel t e (mkUState st []) = Some (s, us) /\ 0 <= s.

(** In the graph [st], the unification of the coerced [argType] with the
    declared type [e] fails and leaves the graph [st']. *)
Definition fails_to_unify (argType e : Ty) (st st' : gmap nat Ty) : Prop :=
  exists t st1 s us,
    wrapExpr wrapBody argType e callee st = WrapOk t st1 /\
    unify fuel t e (mkUState st1 []) = Some (s, us) /\ s < 0 /\
    st' = store us.

(** The argument at position [ai] is accepted in the graph [st]: nothing
    is bound to the position; or it is a value parameter and the type
    bound to it unifies with the declared parameter type; or it is a
    generic that is not static (null included), which is not examined; or
    it is a static generic, and the type of the argument the entry points
    to is static and unifies with it. *)
Definition accepts (st : gmap nat Ty) (ai : nat) (item : option Ty * nat) : Prop :=
  match params callee !! ai, declared argTypes funcGenerics callee ai with
  | Some prm, Some expectTyp =>
      match fst item with
      | None => True
      | Some argType =>
          match expectTyp with
          | Some e =>
              if isValue prm then unifies argType e st
              else
                match isStaticType fuel st e with
                | Some false => True
                | Some true =>
                    exists a, args !! snd item = Some a /\
                              isStaticType fuel st (exprType a) = Some true /\
                              unifies (exprType a) e st
                | None => False
                end
          | None => if isValue prm then False else True
          end
      end
  | _, _ => False
  end.

(** The argument at position [ai] is rejected in the graph [st], which
    becomes [st']: the unification of the type bound to a value parameter
    with the declared parameter type fails; or the position is a static
    generic, and the argument the entry points to is not static (the
    graph stays) or its type fails to unify with the generic. *)
Definition rejects (st : gmap nat Ty) (ai : nat) (item : option Ty * nat)
  (st' : gmap nat Ty) : Prop :=
  match params callee !! ai, declared argTypes funcGenerics callee ai, fst item with
  | Some prm, Some (Some e), Some argType =>
      if isValue prm then fails_to_unify argType e st st'
      else
        isStaticType fuel st e = Some true /\
        exists a, args !! snd item = Some a /\
                  ((isStaticType fuel st (exprType a) = Some false /\ st' = st) \/
                   (isStaticType fuel st (exprType a) = Some true /\
                    fails_to_unify (exprType a) e st st'))
  | _, _, _ => False
  end.

End Verdict.

Section Overloads.

(** The candidates and the state of the type checker. *)
Context {Method Ctx : Type}.

(** [ctx->instantiate(mi, typ)] followed by
    [canCall(method->getFunc(), args, part)]: the score and the state the
    probe leaves. *)
Variable probe : Method -> Ctx -> Z * Ctx.

(** [findMatchingMethods(typ, methods, args, part)]; a null entry is an
    overload that has not been seen yet. *)
Fixpoint findMatchingMethods (methods : list (option Method)) (ctx : Ctx)
  : list Method * Ctx :=
  match methods with
  | [] => ([], ctx)
  | None :: rest => findMatchingMethods rest ctx
  | Some mi :: rest =>
      let '(score, ctx1) := probe mi ctx in
      let '(results, ctx2) := findMatchingMethods rest ctx1 in
      (if (score =? -1)%Z then results else mi :: results, ctx2)
  end.

(** [findBestMethod]: [m.empty() ? nullptr : m[0]], over the candidates
    [ctx->findMethod] returned. *)
Definition findBestMethod (methods : list (option Method)) (ctx : Ctx)
  : option Method * Ctx :=
  let '(m, ctx') := findMatchingMethods methods ctx in (head m, ctx').

(** The candidate list a caller builds from the overloads in declaration
    order: [transformSuperF] collects them and calls [std::reverse] before
    [findMatchingMethods], so the latest declaration is probed first.
    Modelled from the spec for [findBestMethod]: [TypeContext::findMethod]
    is not under src; it is taken to hand back the overloads latest first
    too. *)
Definition latest_first (declared : list (option Method)) : list (option Method) :=
  rev declared.

(** Each candidate that is probed with the score its probe returned, in
    probing order. *)
Fixpoint probe_scores (methods : list (option Method)) (ctx : Ctx)
  : list (Method * Z) :=
  match methods with
  | [] => []
  | None :: rest => probe_scores rest ctx
  | Some mi :: rest =>
      let '(score, ctx1) := probe mi ctx in (mi, score) :: probe_scores rest ctx1
  end.

(** The same in declaration order. *)
Definition declared_scores (declared : list (option Method)) (ctx : Ctx)
  : list (Method * Z) :=
  rev (probe_scores (latest_first declared) ctx).

(** A probed candidate is kept when its score is not -1. *)
Definition accepted (p : Method * Z) : bool := negb (snd p =? -1).

End Overloads.

End Typecheck.

(* --------------------------------------------------------------------- *)
(** ** [Roundtrip]: what a fresh copy of a type is                        *)
(* --------------------------------------------------------------------- *)
Module Roundtrip.
Import Types.

(** The id of the generic slot a type stands for at level [L], through
    links: a generic, or an unbound that [generalize(L)] turns generic. *)
Fixpoint generic_id (L : nat) (t : Ty) : option nat :=
  match t with
  | GenericVar x _ => Some x
  | Unbound x level _ => if (L <=? level)%nat then Some x else None
  | Link t' => generic_id L t'
  | _ => None
  end.

(** [Q] holds of every type a slot of [gs] holds. *)
Fixpoint each_slot (Q : Ty -> Prop) (gs : list (Generic Ty)) : Prop :=
  match gs with
  | [] => True
  | g :: gs' =>
      match gtype g with Some t => Q t | None => True end /\ each_slot Q gs'
  end.

(** No slot of [gs] is null. *)
Definition no_null (gs : list (Generic Ty)) : Prop :=
  Forall (fun g => gtype g <> None) gs.

(** [P] holds of every node reachable in [t]. *)
Fixpoint every (P : Ty -> Prop) (t : Ty) {struct t} : Prop :=
  P t /\
  match t with
  | Link t' => every P t'
  | ClassType c =>
      each_slot (every P) (generics c) /\ each_slot (every P) (hiddenGenerics c)
  | FuncType _ c _ _ fg fp =>
      each_slot (every P) (generics c) /\ each_slot (every P) (hiddenGenerics c) /\
      each_slot (every P) fg /\
      match fp with Some p => every P p | None => True end
  | _ => True
  end.

(** The invariants of a type in a context whose counter of unbounds is
    [n0], for a round trip at level [L]; [V] holds of the ids of the
    generic slots.
    - every variable id is below the counter;
    - the slots that unification dereferences are not null;
    - a function generic's slot id either names the variable the slot
      holds or is the id of no generic slot. *)
Definition node_ok (V : nat -> Prop) (n0 L : nat) (t : Ty) : Prop :=
  match t with
  | Unbound x level _ => (x < n0)%nat /\ ((L <= level)%nat -> V x)
  | GenericVar x _ => (x < n0)%nat /\ V x
  | ClassType c => no_null (generics c)
  | FuncType _ c _ _ fg _ =>
      no_null (generics c) /\ no_null fg /\
      Forall (fun g => forall ty, gtype g = Some ty ->
                generic_id L ty = Some (gid g) \/ ~ V (gid g)) fg
  | _ => True
  end.

Definition well_formed (V : nat -> Prop) (n0 L : nat) (t : Ty) : Prop :=
  every (node_ok V n0 L) t.

(** Two slot lists of the same shape, the types they hold related by [R]. *)
Fixpoint slots_copy (R : Ty -> Ty -> Prop) (gs gs' : list (Generic Ty)) : Prop :=
  match gs, gs' with
  | [], [] => True
  | g :: gs1, g' :: gs1' =>
      gname g = gname g' /\ gid g = gid g' /\ gisStatic g = gisStatic g' /\
      match gtype g, gtype g' with
      | Some t, Some r => R t r
      | None, None => True
      | _, _ => False
      end /\
      slots_copy R gs1 gs1'
  | _, _ => False
  end.

Definition class_copy (R : Ty -> Ty -> Prop) (c c' : ClassFields Ty) : Prop :=
  name c = name c' /\ niceName c = niceName c' /\ isTuple c = isTuple c' /\
  slots_copy R (generics c) (generics c') /\
  slots_copy R (hiddenGenerics c) (hiddenGenerics c').

(** [r] is a copy of [t] under the renaming [rho], in the spec's words:
    the same shape (links dereferenced, function objects new), every
    generic slot of [t] replaced by the variable [rho] has for its id, so
    that repeated occurrences stay the same variable; an unbound below
    level [L] is no generic slot and stays what it is. *)
Fixpoint copy (rho : gmap nat Ty) (L : nat) (t r : Ty) {struct t} : Prop :=
  match t with
  | Unbound x level st =>
      if (L <=? level)%nat then rho !! x = Some r else r = Unbound x level st
  | GenericVar x _ => rho !! x = Some r
  | Link t' => copy rho L t' r
  | StaticType n v => r = StaticType n v
  | ClassType c => exists c', r = ClassType c' /\ class_copy (copy rho L) c c'
  | FuncType _ c ast index fg fp =>
      exists a' c' fg' fp',
        r = FuncType a' c' ast index fg' fp' /\
        class_copy (copy rho L) c c' /\
        slots_copy (copy rho L) fg fg' /\
        match fp, fp' with
        | Some p, Some p' => copy rho L p p'
        | None, None => True
        | _, _ => False
        end
  end.

(** [rho] renames the generic slots to fresh variables: every id of [V]
    it binds goes to an unbound at level [L] numbered from [lo] up to
    below [hi], different ids to different unbounds. *)
Definition fresh_renaming (V : nat -> Prop) (L lo hi : nat)
  (rho : gmap nat Ty) : Prop :=
  (forall x v, V x -> rho !! x = Some v ->
     exists y st, v = Unbound y L st /\ (lo <= y < hi)%nat) /\
  (forall x x' y st st', V x -> V x' ->
     rho !! x = Some (Unbound y L st) -> rho !! x' = Some (Unbound y L st') ->
     x = x').

(** [instantiate(generalize(t, L), L, {})] in a context whose counter is
    [n0] and whose next free address is [h0]: the copy and the state of
    the instantiation. *)
Definition roundtrip (L : nat) (t : Ty) (n0 h0 : nat) : Ty * IState :=
  let '(g, h1) := generalize L t h0 in
  instantiate L g (mkIState n0 ∅ h1).

(** *** Invariants of the round trip *)

(** The invariant of an instantiation state: the counter has not gone
    below [n0], and the cache renames the generic slots to variables made
    since. *)
Definition cache_ok (V : nat -> Prop) (L n0 : nat) (s : IState) : Prop :=
  (n0 <= unboundCount s)%nat /\
  fresh_renaming V L n0 (unboundCount s) (cache s).

(** The round trip on one type, from any address and any good state. *)
Definition roundtrip_ok (V : nat -> Prop) (L n0 : nat) (t : Ty) : Prop :=
  well_formed V n0 L t ->
  forall h s g h' r s',
    cache_ok V L n0 s ->
    generalize L t h = (g, h') ->
    instantiate L g s = (r, s') ->
    copy (cache s') L t r /\ cache_ok V L n0 s' /\ cache s ⊆ cache s'.

(** The bindings unifying the first copy with the second may make: a
    variable of the first copy is bound to the variable of the second copy
    that stands for the same generic slot. *)
Definition paired (V : nat -> Prop) (L : nat) (rho1 rho2 : gmap nat Ty)
  (us : UState) : Prop :=
  forall y T, store us !! y = Some T ->
    exists x st1, V x /\ rho1 !! x = Some (Unbound y L st1) /\ rho2 !! x = Some T.

(** The copies of one type unify, with a score of at least 0, from some
    fuel on, and keep the bindings paired. *)
Definition copies_unify (V : nat -> Prop) (L n0 : nat)
  (rho1 rho2 : gmap nat Ty) (t : Ty) : Prop :=
  well_formed V n0 L t ->
  forall r1 r2 us,
    copy rho1 L t r1 -> copy rho2 L t r2 -> paired V L rho1 rho2 us ->
    exists s us' n,
      0 <= s /\ paired V L rho1 rho2 us' /\
      forall fuel, (n <= fuel)%nat -> unify fuel r1 r2 us = Some (s, us').

End Roundtrip.

(* --------------------------------------------------------------------- *)
(** ** [Examples]: the types the theorems are tried on                    *)
(* --------------------------------------------------------------------- *)
Module Examples.
Import Types Typecheck.
Local Open Scope string_scope.

Definition slot (t : Ty) : Generic Ty := mkGeneric "T" 0 (Some t) false.

(** The classes [int], [str], [List[t]], [Pair[t1, t2]] and tuples. *)
Definition int_class : Ty := ClassType (mkClass "int" "int" [] [] false).

Definition str_class : Ty := ClassType (mkClass "str" "str" [] [] false).

Definition list_of (t : Ty) : Ty :=
  ClassType (mkClass "List" "List" [mkGeneric "T" 0 (Some t) false] [] false).

Definition pair_of (t1 t2 : Ty) : Ty :=
  ClassType (mkClass "Pair" "Pair" [slot t1; slot t2] [] false).

Definition tuple_of (ts : list Ty) : Ty :=
  ClassType (mkClass "Tuple" "Tuple" (map slot ts) [] true).

(** A function type [f() -> ?1]: no function generics, no parent, no
    parameters, an unbound return type. *)
Definition returns_unbound : Ty :=
  FuncType 0
    (mkClass "Function" "Function"
       [mkGeneric "T" 0
          (Some (ClassType (mkClass "Tuple" "Tuple" [] [] true))) false;
        mkGeneric "TR" 1 (Some (Unbound 1 0 false)) false]
       [] false)
    (mkFunctionStmt "f" [] []) 0 [] None.

(** [def f(a: Pair[int, str]) -> int], declared with the attribute that
    turns argument wrapping off. *)
Definition takes_pair_ast : FunctionStmt :=
  mkFunctionStmt "f" [mkParam "a" true] [no_argument_wrap].

Definition takes_pair_class : ClassFields Ty :=
  mkClass "Function" "Function"
    [slot (ClassType (mkClass "Tuple" "Tuple"
                        [slot (pair_of int_class str_class)] [] true));
     slot int_class] [] false.

Definition takes_pair : Ty :=
  FuncType 0 takes_pair_class takes_pair_ast 0 [] None.

(** The type of the argument of the call [f(x)], with [x : Pair[?1, int]]. *)
Definition pair_arg : Ty := pair_of (Unbound 1 0 false) int_class.

(** [def id[T](x: T) -> T], its [T] an unbound [?1] at level 1. *)
Definition id_type : Ty :=
  FuncType 0
    (mkClass "Function" "Function"
       [slot (tuple_of [Unbound 1 1 false]); slot (Unbound 1 1 false)] [] false)
    (mkFunctionStmt "id" [mkParam "T" false; mkParam "x" true] []) 0
    [mkGeneric "T" 1 (Some (Unbound 1 1 false)) false] None.

(** A function type whose function-generic slot 5 holds [int] while a
    parameter is the generic variable 5. *)
Definition slot_clash : Ty :=
  FuncType 0
    (mkClass "Function" "Function"
       [slot (tuple_of [GenericVar 5 false]); slot int_class] [] false)
    (mkFunctionStmt "g" [mkParam "x" true] []) 0
    [mkGeneric "T" 5 (Some int_class) false] None.

(** A class type with a null generic slot. *)
Definition null_slot : Ty :=
  ClassType (mkClass "Box" "Box" [mkGeneric "T" 0 None false] [] false).

(** [def id[T](x: T) -> T] again, declared with the attribute that turns
    argument wrapping off. *)
Definition id_nowrap : Ty :=
  FuncType 0
    (mkClass "Function" "Function"
       [slot (tuple_of [Unbound 1 1 false]); slot (Unbound 1 1 false)] [] false)
    (mkFunctionStmt "id" [mkParam "T" false; mkParam "x" true] [no_argument_wrap]) 0
    [mkGeneric "T" 1 (Some (Unbound 1 1 false)) false] None.

End Examples.

(* --------------------------------------------------------------------- *)
(** ** [Index]: static tuple indices and slices                          *)
(* --------------------------------------------------------------------- *)
Module Index.
Import Op.

(** [TUPLE_RANGE_BOUNDS] is raised with the last valid index and the
    index that was out of range. *)
Inductive Error :=
| TUPLE_RANGE_BOUNDS (last index : Z)
| SLICE_STEP_ZERO.

(** An [int64_t] result: undefined when it is not representable. *)
Definition int64 (x : Z) : outcome Error Z :=
  if in_int64b x then Value x else Undefined.

(** [a / b] on [int64_t], truncating. *)
Definition div64 (a b : Z) : outcome Error Z :=
  if b =? 0 then Undefined else int64 (Z.quot a b).

(** [translateIndex(idx, len, clamp)]. *)
Definition translateIndex (idx len : Z) (clamp : bool) : outcome Error Z :=
  idx1 <-- (if idx <? 0 then int64 (idx + len) else Value idx) ;;
  if clamp then
    let idx2 := if idx1 <? 0 then 0 else idx1 in
    Value (if idx2 >? len then len else idx2)
  else if (idx1 <? 0) || (idx1 >=? len) then
    last <-- int64 (len - 1) ;;
    Raise (TUPLE_RANGE_BOUNDS last idx1)
  else Value idx1.

(** The block that [sliceAdjustIndices] runs on [*start] and then, in the
    same words, on [*stop]. *)
Definition adjust (length x step : Z) : outcome Error Z :=
  if x <? 0 then
    x1 <-- int64 (x + length) ;;
    if x1 <? 0 then Value (if step <? 0 then -1 else 0) else Value x1
  else if x >=? length then
    (if step <? 0 then int64 (length - 1) else Value length)
  else Value x.

(** [sliceAdjustIndices(length, &start, &stop, step)]: the count it
    returns, then [*start] and [*stop] as it leaves them. *)
Definition sliceAdjustIndices (length start stop step : Z)
  : outcome Error (Z * Z * Z) :=
  if step =? 0 then Raise SLICE_STEP_ZERO
  else
    start' <-- adjust length start step ;;
    stop' <-- adjust length stop step ;;
    if step <? 0 then
      if stop' <? start' then
        a <-- int64 (start' - stop') ;;
        b <-- int64 (a - 1) ;;
        ns <-- int64 (- step) ;;
        q <-- div64 b ns ;;
        n <-- int64 (q + 1) ;;
        Value (n, start', stop')
      else Value (0, start', stop')
    else
      if start' <? stop' then
        a <-- int64 (stop' - start') ;;
        b <-- int64 (a - 1) ;;
        q <-- div64 b step ;;
        n <-- int64 (q + 1) ;;
        Value (n, start', stop')
      else Value (0, start', stop').

(** A part of a slice expression as [transformStaticTupleIndex] sees it
    through its [getInt]: absent, a static integer, or anything else. *)
Inductive SlicePart := Absent | StaticInt (v : Z) | NotStatic.

(** [getInt(&o, e)]: [None] is [false]; an absent part leaves [*o] alone. *)
Definition getInt (o : Z) (e : SlicePart) : option Z :=
  match e with
  | Absent => Some o
  | StaticInt v => Some v
  | NotStatic => None
  end.

Definition present (e : SlicePart) : bool :=
  match e with Absent => false | _ => true end.

(** The guard of the loop that generates the sub-tuple:
    [(step > 0) ? (i < stop) : (i > stop)]. *)
Definition in_slice (stop step i : Z) : bool :=
  if step >? 0 then i <? stop else i >? stop.

(** The loop itself: [for (auto i = start; ...; i += step)], with the
    bounds check and the [push_back] of its body. [None] is a loop that
    has not ended when the fuel has. *)
Fixpoint slice_loop (fuel : nat) (sz i stop step : Z)
  : option (outcome Error (list Z)) :=
  match fuel with
  | O => None
  | S fuel' =>
      if in_slice stop step i then
        if (i <? 0) || (i >=? sz) then
          Some (last <-- int64 (sz - 1) ;; Raise (TUPLE_RANGE_BOUNDS last i))
        else
          match int64 (i + step) with
          | Value i' =>
              match slice_loop fuel' sz i' stop step with
              | Some (Value l) => Some (Value (i :: l))
              | r => r
              end
          | Raise e => Some (Raise e)
          | Undefined => Some Undefined
          end
      else Some (Value [])
  end.

(** What the slice case gives: not a static slice ([{false, nullptr}]), or
    the positions of the fields of the sub-tuple, in order. *)
Inductive Slice := NotStaticSlice | Fields (positions : list Z).

(** The adjustment of an omitted start or stop when a step is given,
    before [sliceAdjustIndices] is called. *)
Definition slice_bounds (sz : Z) (pstart pstop pstep : SlicePart)
  (start stop step : Z) : outcome Error (Z * Z) :=
  start1 <-- (if present pstep && negb (present pstart)
              then (if step >? 0 then Value 0 else int64 (sz - 1))
              else Value start) ;;
  stop1 <-- (if present pstep && negb (present pstop)
             then (if step >? 0 then Value sz
                   else (t <-- int64 (sz + 1) ;; int64 (- t)))
             else Value stop) ;;
  Value (start1, stop1).

(** Case [tuple[int:int:int]] of [transformStaticTupleIndex]; the count
    that [sliceAdjustIndices] returns is not used. *)
Definition tupleSlice (fuel : nat) (sz : Z) (pstart pstop pstep : SlicePart)
  : option (outcome Error Slice) :=
  match getInt 0 pstart with
  | None => Some (Value NotStaticSlice)
  | Some start =>
  match getInt sz pstop with
  | None => Some (Value NotStaticSlice)
  | Some stop =>
  match getInt 1 pstep with
  | None => Some (Value NotStaticSlice)
  | Some step =>
      match
        (b <-- slice_bounds sz pstart pstop pstep start stop step ;;
         r <-- sliceAdjustIndices sz (fst b) (snd b) step ;;
         Value (snd (fst r), snd r))
      with
      | Value (start2, stop2) =>
          match slice_loop fuel sz start2 stop2 step with
          | Some (Value l) => Some (Value (Fields l))
          | Some (Raise e) => Some (Raise e)
          | Some Undefined => Some Undefined
          | None => None
          end
      | Raise e => Some (Raise e)
      | Undefined => Some Undefined
      end
  end end end.

(** A slice part that is absent or a static 64-bit integer. *)
Definition static_part (e : SlicePart) : Prop :=
  match e with
  | Absent => True
  | StaticInt v => in_int64 v
  | NotStatic => False
  end.

(** The positions [first], [first + step], ... ([n] of them). *)
Definition positions (first step : Z) (n : nat) : list Z :=
  map (fun k => first + Z.of_nat k * step) (seq 0 n).

End Index.

(* --------------------------------------------------------------------- *)
(** ** [Ast]: static values, expression attributes, calls and generators  *)
(* --------------------------------------------------------------------- *)
Module Ast.

(** *** [StaticValue] *)

Inductive StaticType := NOT_STATIC | STRING | INT | NOT_SUPPORTED.

(** The variant held by a [StaticValue]. *)
Inductive Variant := VInt (i : Z) | VStr (s : string).

Record StaticValue := mkStaticValue
  { value : Variant; type : StaticType; evaluated : bool }.

Definition StaticType_eqb (a b : StaticType) : bool :=
  match a, b with
  | NOT_STATIC, NOT_STATIC | STRING, STRING | INT, INT
  | NOT_SUPPORTED, NOT_SUPPORTED => true
  | _, _ => false
  end.

Definition Variant_eqb (a b : Variant) : bool :=
  match a, b with
  | VInt i, VInt j => i =? j
  | VStr s, VStr t => String.eqb s t
  | _, _ => false
  end.

(** [StaticValue::operator==]. *)
Definition StaticValue_eq (this s : StaticValue) : bool :=
  if negb (StaticType_eqb (type this) (type s)) ||
     negb (Bool.eqb (evaluated s) (evaluated this))
  then false
  else negb (evaluated s) || Variant_eqb (value this) (value s).

(** *** Attributes of an expression *)

(** [Expr::hasAttr(attr)]: [attributes & (1 << attr)] as a [bool]. *)
Definition hasAttr (attributes attr : Z) : bool :=
  negb (Z.land attributes (Z.shiftl 1 attr) =? 0).

(** [Expr::setAttr(attr)]: [attributes |= (1 << attr)]. *)
Definition setAttr (attributes attr : Z) : Z :=
  Z.lor attributes (Z.shiftl 1 attr).

(** *** [CallExpr] from a vector of values *)

(** [CallExpr::CallExpr(ExprPtr expr, std::vector<ExprPtr> args)]: every
    value that is not null becomes an argument with an empty name; then
    [validate()] runs. *)
Definition CallExpr_of_values (e : Expr.ExprKind)
  (args : list (option Expr.ExprKind)) : outcome Expr.Error Expr.CallExpr :=
  Expr.validate
    (Expr.mkCall e (map (Expr.mkArg EmptyString) (omap id args)) false).

(** *** [GeneratorExpr] *)

Section Generator.

(** Expressions, and what a [for] or an [if] holds beside its suite. *)
Context {E A : Type}.

(** The statements a generator is made of: [suite] and [ifSuite] are
    pointers and may be null. *)
Inductive Stmt :=
| ForStmt (info : A) (suite : option Stmt)
| IfStmt (info : A) (ifSuite : option Stmt)
| SuiteStmt (stmts : list Stmt)
| ExprStmt (expr : E)
| OtherStmt (info : A).

(** [GeneratorExpr::formCompleteStmt]: from the last loop to the first,
    each [if] or [for] takes the one after it as its suite; the result is
    [loops[0]], [None] for an empty vector. *)
Fixpoint formCompleteStmt (loops : list Stmt) : option Stmt :=
  match loops with
  | [] => None
  | s :: rest =>
      let final := formCompleteStmt rest in
      Some match s with
           | IfStmt a _ => IfStmt a final
           | ForStmt a _ => ForStmt a final
           | _ => s
           end
  end.

Definition getFor (s : Stmt) : bool :=
  match s with ForStmt _ _ => true | _ => false end.

(** [GeneratorExpr::GeneratorExpr(kind, expr, loops)]: the assertion, the
    [push_back] of the suite that holds [expr], [formCompleteStmt]. *)
Definition GeneratorExpr (expr : E) (loops : list Stmt) : option Stmt :=
  match loops with
  | first :: _ =>
      if getFor first
      then formCompleteStmt (loops ++ [SuiteStmt [ExprStmt expr]])
      else None
  | [] => None
  end.

(** [*(getFinalStmt())]: the statement in the slot that
    [GeneratorExpr::getFinalStmt] stops at, going down from [loops];
    [None] when a null suite is dereferenced on the way. *)
Fixpoint finalStmt (s : Stmt) : option Stmt :=
  match s with
  | ForStmt _ suite =>
      match suite with Some s' => finalStmt s' | None => None end
  | IfStmt _ ifSuite =>
      match ifSuite with Some s' => finalStmt s' | None => None end
  | SuiteStmt stmts =>
      (fix back (l : list Stmt) : option Stmt :=
         match l with
         | [] => Some s
         | [x] => finalStmt x
         | _ :: l' => back l'
         end) stmts
  | _ => Some s
  end.

(** [*(getFinalStmt()) = stmt]: the generator with that slot overwritten
    ([GeneratorExpr::setFinalStmt]). *)
Fixpoint setFinalStmt (s stmt : Stmt) : option Stmt :=
  match s with
  | ForStmt a suite =>
      match suite with
      | Some s' =>
          match setFinalStmt s' stmt with
          | Some r => Some (ForStmt a (Some r))
          | None => None
          end
      | None => None
      end
  | IfStmt a ifSuite =>
      match ifSuite with
      | Some s' =>
          match setFinalStmt s' stmt with
          | Some r => Some (IfStmt a (Some r))
          | None => None
          end
      | None => None
      end
  | SuiteStmt stmts =>
      match stmts with
      | [] => Some stmt
      | _ =>
          match
            (fix back (l : list Stmt) : option (list Stmt) :=
               match l with
               | [] => Some []
               | [x] =>
                   match setFinalStmt x stmt with
                   | Some r => Some [r]
                   | None => None
                   end
               | y :: l' =>
                   match back l' with
                   | Some r => Some (y :: r)
                   | None => None
                   end
               end) stmts
          with
          | Some r => Some (SuiteStmt r)
          | None => None
          end
      end
  | _ => Some stmt
  end.

(** [GeneratorExpr::getFinalExpr]: [Some None] is the null pointer it
    returns when the final statement is not an expression statement. *)
Definition getFinalExpr (loops : Stmt) : option (option E) :=
  match finalStmt loops with
  | Some (ExprStmt e) => Some (Some e)
  | Some _ => Some None
  | None => None
  end.

(** [GeneratorExpr::setFinalExpr]. *)
Definition setFinalExpr (loops : Stmt) (expr : E) : option Stmt :=
  setFinalStmt loops (ExprStmt expr).

(** [GeneratorExpr::loopCount]. *)
Fixpoint loopCount (s : Stmt) : option nat :=
  match s with
  | ForStmt _ suite =>
      match suite with
      | Some s' => option_map S (loopCount s')
      | None => None
      end
  | IfStmt _ ifSuite =>
      match ifSuite with
      | Some s' => option_map S (loopCount s')
      | None => None
      end
  | SuiteStmt stmts =>
      (fix back (l : list Stmt) : option nat :=
         match l with
         | [] => Some 0%nat
         | [x] => loopCount x
         | _ :: l' => back l'
         end) stmts
  | _ => Some 0%nat
  end.

(** A loop of a generator: a [for] or an [if]. *)
Definition is_loop (s : Stmt) : bool :=
  match s with ForStmt _ _ | IfStmt _ _ => true | _ => false end.

End Generator.

Arguments Stmt : clear implicits.

End Ast.

(* --------------------------------------------------------------------- *)
(** ** [ImportPath]: the components of an import path                     *)
(* --------------------------------------------------------------------- *)
Module ImportPath.

(** The expressions [getImportPath] tells apart. *)
Inductive PathExpr :=
| IdExpr (value : string)
| DotExpr (expr : PathExpr) (member : string)
| OtherExpr.

(** [for (; cast<DotExpr>(from); from = ...->getExpr()) push_back(member)],
    then the assertion that an identifier is left and its [push_back].
    [None] is the failed assertion. *)
Fixpoint components_loop (from : PathExpr) (components : list string)
  : option (list string) :=
  match from with
  | DotExpr e m => components_loop e (components ++ [m])
  | IdExpr v => Some (components ++ [v])
  | OtherExpr => None
  end.

(** [TypecheckVisitor::getImportPath(from, dots)]; [from] may be null. *)
Definition getImportPath (from : option PathExpr) (dots : nat)
  : option (list string) :=
  match (match from with
         | Some f => components_loop f []
         | None => Some []
         end) with
  | Some components => Some (rev (components ++ repeat ".."%string (dots - 1)))
  | None => None
  end.

(** The expression [a.b.c...] for the names [a], [b], [c], ... *)
Definition dotted (a : string) (rest : list string) : PathExpr :=
  fold_left DotExpr rest (IdExpr a).

End ImportPath.

(* --------------------------------------------------------------------- *)
(** ** [Pipe]: the ellipsis of a pipe stage                               *)
(* --------------------------------------------------------------------- *)
Module Pipe.

(** [EllipsisExpr::mode]. *)
Inductive EllipsisType := PIPE | PARTIAL | STANDALONE.

(** The expressions [findEllipsis] tells apart; the arguments of a call
    are given by their values. *)
Inductive PExpr :=
| CallExpr (callee : string) (args : list PExpr)
| EllipsisExpr (mode : EllipsisType)
| OtherExpr (tag : string).

(** [findEllipsis(expr)]: the calls to go through, innermost first, each
    with the position of the argument to follow. *)
Fixpoint findEllipsis (expr : PExpr) : list (nat * PExpr) :=
  match expr with
  | CallExpr _ args =>
      (fix loop (ai : nat) (l : list PExpr) : list (nat * PExpr) :=
         match l with
         | [] => []
         | a :: rest =>
             match a with
             | EllipsisExpr PIPE => [(ai, expr)]
             | EllipsisExpr _ => loop (S ai) rest
             | CallExpr _ _ =>
                 match findEllipsis a with
                 | [] => loop (S ai) rest
                 | v => v ++ [(ai, expr)]
                 end
             | OtherExpr _ => loop (S ai) rest
             end
         end) 0%nat args
  | _ => []
  end.

(** The loop of [findEllipsis] from position [ai] on. *)
Fixpoint findEllipsis_loop (expr : PExpr) (ai : nat) (l : list PExpr)
  : list (nat * PExpr) :=
  match l with
  | [] => []
  | a :: rest =>
      match a with
      | EllipsisExpr PIPE => [(ai, expr)]
      | EllipsisExpr _ => findEllipsis_loop expr (S ai) rest
      | CallExpr _ _ =>
          match findEllipsis a with
          | [] => findEllipsis_loop expr (S ai) rest
          | v => v ++ [(ai, expr)]
          end
      | OtherExpr _ => findEllipsis_loop expr (S ai) rest
      end
  end.

(** The argument of a call at position [i]. *)
Definition arg_at (e : PExpr) (i : nat) : option PExpr :=
  match e with
  | CallExpr _ args => args !! i
  | _ => None
  end.

(** [path] leads from [child] up to [root]: each entry is a call that has
    the expression before it as its argument at the given position, and
    the last call is [root]. *)
Fixpoint leads (child : PExpr) (path : list (nat * PExpr)) (root : PExpr) : Prop :=
  match path with
  | [] => child = root
  | (ai, c) :: rest => arg_at c ai = Some child /\ leads c rest root
  end.

(** A pipe ellipsis can be reached from [e] through arguments of nested
    calls. *)
Inductive reaches : PExpr -> Prop :=
| reaches_here f args i :
    args !! i = Some (EllipsisExpr PIPE) -> reaches (CallExpr f args)
| reaches_deeper f args i g args' :
    args !! i = Some (CallExpr g args') -> reaches (CallExpr g args') ->
    reaches (CallExpr f args).

(** What [findEllipsis] gives for [e]: nothing exactly when no pipe
    ellipsis can be reached, and otherwise a path to one. *)
Definition found_ok (e : PExpr) : Prop :=
  (findEllipsis e = [] \/ leads (EllipsisExpr PIPE) (findEllipsis e) e) /\
  (findEllipsis e = [] <-> ~ reaches e).

End Pipe.

(* --------------------------------------------------------------------- *)
(** ** [Magic]: operators and their magic methods                         *)
(* --------------------------------------------------------------------- *)
Module Magic.
Local Open Scope string_scope.

(** [unordered_map::find] on a table written as an initializer list. *)
Fixpoint find (key : string) (table : list (string * string)) : option string :=
  match table with
  | [] => None
  | (k, v) :: rest => if String.eqb key k then Some v else find key rest
  end.

(** The table [magics] of [getMagic]. *)
Definition magics : list (string * string) :=
  [("+", "add"); ("-", "sub"); ("*", "mul"); ("**", "pow");
   ("/", "truediv"); ("//", "floordiv"); ("@", "matmul"); ("%", "mod");
   ("<", "lt"); ("<=", "le"); (">", "gt"); (">=", "ge");
   ("==", "eq"); ("!=", "ne"); ("<<", "lshift"); (">>", "rshift");
   ("&", "and"); ("|", "or"); ("^", "xor")].

(** The table [rightMagics] of [getMagic]. *)
Definition rightMagics : list (string * string) :=
  [("<", "gt"); ("<=", "ge"); (">", "lt"); (">=", "le");
   ("==", "eq"); ("!=", "ne")].

(** [TypecheckVisitor::getMagic(op)]; [None] is the failed assertion
    "invalid binary operator". *)
Definition getMagic (op : string) : option (string * string) :=
  match find op magics with
  | None => None
  | Some m =>
      Some (m, match find op rightMagics with
               | Some rm => rm
               | None => "r" ++ m
               end)
  end.

(** The comparison that holds of [b] and [a] when [op] holds of [a] and
    [b]. *)
Definition mirrored (op : string) : string :=
  if String.eqb op "<" then ">"
  else if String.eqb op "<=" then ">="
  else if String.eqb op ">" then "<"
  else if String.eqb op ">=" then "<="
  else op.

Definition comparisons : list string := ["<"; "<="; ">"; ">="; "=="; "!="].

End Magic.

(* --------------------------------------------------------------------- *)
(** ** [StaticEval]: static binary expressions                            *)
(* --------------------------------------------------------------------- *)
Module StaticEval.
Local Open Scope string_scope.
Local Open Scope Z_scope.

(** The value of a realized static type. *)
Inductive Static := SInt (v : Z) | SStr (v : string) | SBool (v : bool).

(** What the evaluator reads of the type of an operand: [isStaticType()]
    (0 not static, 1 integer, 2 string, 3 boolean) and the static type
    itself once it is known ([getStatic()], null before that). *)
Record Operand := mkOperand { kind : nat; static : option Static }.

(** The expression an evaluation is replaced by. *)
Inductive StaticExpr := IntExpr (v : Z) | StringExpr (v : string) | BoolExpr (v : bool).

(** What [evaluateStaticBinary] does: it returns a new expression; or it
    returns null after marking the type of the expression as static of
    the given kind; or it fails an assertion or dereferences a null
    pointer. *)
Inductive Evaluation :=
| Evaluated (e : StaticExpr)
| NotYet (isStatic : nat)
| Fault.

Definition mem (op : string) (ops : list string) : bool :=
  existsb (String.eqb op) ops.

(** The table [staticOps] of [visit] for a [BinaryExpr]. *)
Definition staticOps (kind : nat) : list string :=
  match kind with
  | 1%nat => ["<"; "<="; ">"; ">="; "=="; "!="; "&&"; "||"; "+"; "-"; "*";
              "//"; "%"; "&"; "|"; "^"]
  | 2%nat => ["=="; "!="; "+"]
  | 3%nat => ["<"; "<="; ">"; ">="; "=="; "!="; "&&"; "||"]
  | _ => []
  end.

(** Whether [visit], for a [BinaryExpr], hands the expression to
    [evaluateStaticBinary]. *)
Definition isStaticBinary (op : string) (l r : nat) : bool :=
  negb (l =? 0)%nat && negb (r =? 0)%nat &&
  (((l =? r)%nat && mem op (staticOps l)) ||
   ((((l =? 1)%nat && (r =? 3)%nat) || ((r =? 1)%nat && (l =? 3)%nat)) &&
    mem op (staticOps 1))).

Definition z_of_bool (b : bool) : Z := if b then 1 else 0.

(** [getStrStatic()]: null unless the static is a string. *)
Definition getStrStatic (o : Operand) : option string :=
  match static o with Some (SStr v) => Some v | _ => None end.

(** [getIntStatic() ? getIntStatic()->value : getBoolStatic()->value];
    [None] is the null pointer dereferenced for a string. *)
Definition intValue (s : Static) : option Z :=
  match s with
  | SInt v => Some v
  | SBool b => Some (z_of_bool b)
  | SStr _ => None
  end.

(** The chain of [if (expr->op == ...)] on two integers; [Value None] is
    the assertion "unknown static operator". *)
Definition staticBinaryInt (pythonCompat : bool) (op : string) (lvalue rvalue : Z)
  : outcome Op.Error (option Z) :=
  if String.eqb op "<" then Value (Some (z_of_bool (lvalue <? rvalue)))
  else if String.eqb op "<=" then Value (Some (z_of_bool (lvalue <=? rvalue)))
  else if String.eqb op ">" then Value (Some (z_of_bool (lvalue >? rvalue)))
  else if String.eqb op ">=" then Value (Some (z_of_bool (lvalue >=? rvalue)))
  else if String.eqb op "==" then Value (Some (z_of_bool (lvalue =? rvalue)))
  else if String.eqb op "!=" then Value (Some (z_of_bool (negb (lvalue =? rvalue))))
  else if String.eqb op "&&" then
    Value (Some (z_of_bool (negb (lvalue =? 0) && negb (rvalue =? 0))))
  else if String.eqb op "||" then
    Value (Some (z_of_bool (negb (lvalue =? 0) || negb (rvalue =? 0))))
  else if String.eqb op "+" then (v <-- Op.sadd lvalue rvalue ;; Value (Some v))
  else if String.eqb op "-" then (v <-- Op.ssub lvalue rvalue ;; Value (Some v))
  else if String.eqb op "*" then (v <-- Op.smul lvalue rvalue ;; Value (Some v))
  else if String.eqb op "^" then Value (Some (Z.lxor lvalue rvalue))
  else if String.eqb op "&" then Value (Some (Z.land lvalue rvalue))
  else if String.eqb op "|" then Value (Some (Z.lor lvalue rvalue))
  else if String.eqb op "//" then
    (dm <-- Op.divMod pythonCompat lvalue rvalue ;; Value (Some (fst dm)))
  else if String.eqb op "%" then
    (dm <-- Op.divMod pythonCompat lvalue rvalue ;; Value (Some (snd dm)))
  else Value None.

Definition boolOps : list string :=
  ["=="; "!="; "<"; "<="; ">"; ">="; "&&"; "||"].

(** [TypecheckVisitor::evaluateStaticBinary(expr)] on the operator and the
    types of the two operands. *)
Definition evaluateStaticBinary (pythonCompat : bool) (op : string)
  (lexpr rexpr : Operand) : outcome Op.Error Evaluation :=
  if (kind rexpr =? 2)%nat then
    if String.eqb op "+" then
      match getStrStatic lexpr, getStrStatic rexpr with
      | Some l, Some r => Value (Evaluated (StringExpr (l ++ r)))
      | _, _ => Value (NotYet 2)
      end
    else
      match getStrStatic lexpr, getStrStatic rexpr with
      | Some l, Some r =>
          let eq := String.eqb l r in
          Value (Evaluated (BoolExpr (if String.eqb op "==" then eq else negb eq)))
      | _, _ => Value (NotYet 1)
      end
  else
    match static lexpr, static rexpr with
    | Some ls, Some rs =>
        match intValue ls, intValue rs with
        | Some lvalue, Some rvalue =>
            r <-- staticBinaryInt pythonCompat op lvalue rvalue ;;
            match r with
            | None => Value Fault
            | Some v =>
                if mem op boolOps
                then Value (Evaluated (BoolExpr (negb (v =? 0))))
                else Value (Evaluated (IntExpr v))
            end
        | _, _ => Value Fault
        end
    | _, _ => Value (NotYet 1)
    end.

(** The static of an operand, when it is known, is of the kind that
    [isStaticType()] tells. *)
Definition consistent (o : Operand) : Prop :=
  match static o with
  | Some (SInt _) => kind o = 1%nat
  | Some (SStr _) => kind o = 2%nat
  | Some (SBool _) => kind o = 3%nat
  | None => True
  end.

(** The truth value of a comparison or of a logical operator on two
    integers. *)
Definition truth (op : string) (l r : Z) : bool :=
  if String.eqb op "<" then l <? r
  else if String.eqb op "<=" then l <=? r
  else if String.eqb op ">" then r <? l
  else if String.eqb op ">=" then r <=? l
  else if String.eqb op "==" then l =? r
  else if String.eqb op "!=" then negb (l =? r)
  else if String.eqb op "&&" then negb (l =? 0) && negb (r =? 0)
  else negb (l =? 0) || negb (r =? 0).

End StaticEval.

(* --------------------------------------------------------------------- *)
(** ** [Partial]: the mask of a partial call                              *)
(* --------------------------------------------------------------------- *)
Module Partial.
Import Ascii.

(** [Param::status]. *)
Inductive Status := Normal | Generic | HiddenGeneric.

Definition is_normal (s : Status) : bool :=
  match s with Normal => true | _ => false end.

(** The loop of [generatePartialStub] from position [i] on: [mask] is what
    is left of the vector, [strMask] the string that started as all ['1'],
    [tupleSize] and [genericSize] the two counters. [None] is
    [fn->ast->args[i]] read beyond the parameters. *)
Fixpoint stub_loop (i : nat) (mask : list Z) (args : list Status)
  (strMask : list ascii) (tupleSize genericSize : nat)
  : option (list ascii * nat * nat) :=
  match mask with
  | [] => Some (strMask, tupleSize, genericSize)
  | m :: rest =>
      if m =? 0 then
        stub_loop (S i) rest args (<[i := "0"%char]> strMask) tupleSize genericSize
      else
        match args !! i with
        | None => None
        | Some st =>
            if is_normal st
            then stub_loop (S i) rest args strMask (S tupleSize) genericSize
            else stub_loop (S i) rest args strMask tupleSize (S genericSize)
        end
  end.

(** [generatePartialStub(mask, fn)] up to the name of the stub: the mask
    string and the two sizes. *)
Definition stubMask (mask : list Z) (args : list Status)
  : option (list ascii * nat * nat) :=
  stub_loop 0 mask args (repeat "1"%char (length mask)) 0 0.

(** The loop of [ClassType::getPartialMask] over the string [n] from
    position [i] on; [r] started as all 0. *)
Fixpoint mask_loop (i : nat) (n : list ascii) (r : list Z) : list Z :=
  match n with
  | [] => r
  | ch :: rest =>
      mask_loop (S i) rest (if Ascii.eqb ch "1" then <[i := 1]> r else r)
  end.

(** [ClassType::getPartialMask()] on the value [n] of the static string in
    [generics[1]]. *)
Definition getPartialMask (n : list ascii) : list Z :=
  mask_loop 0 n (repeat 0 (length n)).

(** A mask entry as 0 or 1. *)
Definition bit (m : Z) : Z := if m =? 0 then 0 else 1.

(** The number of entries of a mask that are set. *)
Definition known (mask : list Z) : nat :=
  length (List.filter (fun m => negb (m =? 0)) mask).

(** The number of entries of [mask] that are set on a normal parameter. *)
Fixpoint known_normal (mask : list Z) (args : list Status) : nat :=
  match mask, args with
  | m :: mask', st :: args' =>
      (if negb (m =? 0) && is_normal st then 1 else 0) + known_normal mask' args'
  | _, _ => 0
  end.

End Partial.

(* --------------------------------------------------------------------- *)
(** ** [Binding]: the callback [canCall] hands to [reorderNamedArgs]      *)
(* --------------------------------------------------------------------- *)
Module Binding.
Import Types.

(** What the callback reads of the parameter at [si] of [fn->ast]:
    [isGeneric()], [getName()] and whether [getDefault()] is non-null. *)
Record SlotParam := mkSlotParam
  { isGeneric : bool; paramName : string; hasDefault : bool }.

(** What it reads of a call argument: the type of its expression and
    [isTypeExpr]. *)
Record SlotArg := mkSlotArg { argType : Ty; isTypeExpr : bool }.

(** The data of the call that the callback captures: the parameters, the
    generics that cannot be inferred, for each function generic whether
    it is static, the arguments, the mask of the partial call when there
    is one, and the types of its known arguments. *)
Record Call := mkCall
  { params : list SlotParam;
    niGenerics : list string;
    funcGenericStatic : list bool;
    args : list SlotArg;
    partialMask : option (list Z);
    partialArgs : list Ty }.

(** One turn of the loop: [return -1], or an entry for [reordered] with
    the counters [gi] and [pi] as the turn leaves them. *)
Inductive Step :=
| Reject
| Push (entry : option Ty * nat) (gi pi : nat).

Definition mem (x : string) (l : list string) : bool :=
  existsb (String.eqb x) l.

(** [reordered.emplace_back(args[slots[si][0]].getExpr()->getType(),
    slots[si][0])]. *)
Definition arg_entry (c : Call) (slot : list nat) : option (option Ty * nat) :=
  match slot with
  | idx :: _ =>
      match args c !! idx with
      | Some a => Some (Some (argType a), idx)
      | None => None
      end
  | [] => None
  end.

(** The body of the loop at position [si]; [None] is a failed assertion
    or a read beyond the end of a vector. *)
Definition callback_step (c : Call) (s k : Z) (si gi pi : nat)
  (p : SlotParam) (slot : list nat) : option Step :=
  if isGeneric p then
    match slot with
    | [] =>
        if mem (paramName p) (niGenerics c) && negb (hasDefault p)
        then Some Reject
        else Some (Push (None, 0%nat) (S gi) pi)
    | idx :: _ =>
        match funcGenericStatic c !! gi with
        | None => None
        | Some static =>
            match args c !! idx with
            | None => None
            | Some a =>
                if negb static && negb (isTypeExpr a) then Some Reject
                else Some (Push (Some (argType a), idx) (S gi) pi)
            end
        end
    end
  else if (Z.of_nat si =? s) || (Z.of_nat si =? k)
          || negb (length slot =? 1)%nat then
    match slot, partialMask c with
    | [], Some mask =>
        match mask !! si with
        | None => None
        | Some m =>
            if negb (m =? 0) then
              match partialArgs c !! pi with
              | Some t => Some (Push (Some t, 0%nat) gi (S pi))
              | None => None
              end
            else Some (Push (None, 0%nat) gi pi)
        end
    | _, _ => Some (Push (None, 0%nat) gi pi)
    end
  else
    match arg_entry c slot with
    | Some e => Some (Push e gi pi)
    | None => None
    end.

(** The loop over [slots] from position [si] on; the result is what the
    callback returns and [reordered] as it leaves it. *)
Fixpoint callback_loop (c : Call) (s k : Z) (slots : list (list nat))
  (si gi pi : nat) (reordered : list (option Ty * nat))
  : option (Z * list (option Ty * nat)) :=
  match slots with
  | [] => Some (0, reordered)
  | slot :: rest =>
      match params c !! si with
      | None => None
      | Some p =>
          match callback_step c s k si gi pi p slot with
          | None => None
          | Some Reject => Some (-1, reordered)
          | Some (Push e gi' pi') =>
              callback_loop c s k rest (S si) gi' pi' (reordered ++ [e])
          end
      end
  end.

(** The callback of [canCall], called with [(s, k, slots, _)] on an empty
    [reordered]. *)
Definition callback (c : Call) (s k : Z) (slots : list (list nat))
  : option (Z * list (option Ty * nat)) :=
  callback_loop c s k slots 0 0 0 [].

(** The number of entries of a mask that are set. *)
Definition known (mask : list Z) : nat :=
  length (List.filter (fun m => negb (m =? 0)) mask).

(** The call and the slots fit together: a parameter for each slot, a
    function generic for each generic parameter, arguments at the
    positions the slots name, and, for a partial call, a mask entry for
    each slot and a type for each known argument. *)
Definition fits (c : Call) (slots : list (list nat)) : Prop :=
  (length slots <= length (params c))%nat /\
  (length (List.filter isGeneric (params c)) <= length (funcGenericStatic c))%nat /\
  Forall (Forall (fun idx => (idx < length (args c))%nat)) slots /\
  match partialMask c with
  | Some mask =>
      (length slots <= length mask)%nat /\ (known mask <= length (partialArgs c))%nat
  | None => True
  end.

End Binding.

(* --------------------------------------------------------------------- *)
(** ** [Chain]: chained comparisons                                       *)
(* --------------------------------------------------------------------- *)
Module Chain.

Section Chain.

(** The operands of the chain. *)
Context {E : Type}.

(** The expressions [visit] builds for a [ChainBinaryExpr]: a clone of an
    operand, a variable, the statement expression that assigns an operand
    to a variable and yields the variable, and a binary expression. *)
Inductive CExpr :=
| Operand (e : E)
| IdExpr (name : string)
| AssignThen (var : string) (e : E)
| BinaryExpr (lexpr : CExpr) (op : string) (rexpr : CExpr).

(** [ctx->generateCanonicalName("chain")] on its [n]-th call. *)
Variable generateCanonicalName : nat -> string.

(** The first loop, at index [i >= 1]: [before] is [exprs[i - 1].second],
    [prev] the variable of the turn before (empty at first), [calls] the
    number of names generated so far and [rest] the entries of [exprs]
    from [i] on. *)
Fixpoint items_loop (before : E) (prev : string) (calls : nat)
  (rest : list (string * E)) : list CExpr :=
  match rest with
  | [] => []
  | (op, e) :: rest' =>
      let l := if String.eqb prev EmptyString then Operand before
               else IdExpr prev in
      let prev' := generateCanonicalName calls in
      let r := match rest' with
               | [] => Operand e
               | _ => AssignThen prev' e
               end in
      BinaryExpr l op r :: items_loop e prev' (S calls) rest'
  end.

(** The second loop: the items joined from the right with ["&&"]. *)
Fixpoint join (items : list CExpr) : option CExpr :=
  match items with
  | [] => None
  | [x] => Some x
  | x :: rest =>
      match join rest with
      | Some final => Some (BinaryExpr x "&&" final)
      | None => None
      end
  end.

(** [visit] of a [ChainBinaryExpr] up to the final [transform]; [None] is
    the assertion that there are at least two expressions. *)
Definition visitChain (exprs : list (string * E)) (calls : nat) : option CExpr :=
  match exprs with
  | (_, first) :: (_ :: _) as rest => join (items_loop first EmptyString calls rest)
  | _ => None
  end.

(** The operands an expression evaluates, in the order of evaluation. *)
Fixpoint evaluated (x : CExpr) : list E :=
  match x with
  | Operand e => [e]
  | IdExpr _ => []
  | AssignThen _ e => [e]
  | BinaryExpr l _ r => evaluated l ++ evaluated r
  end.

(** The comparison operators of an expression, from left to right; the
    ["&&"] that join the items are not comparisons of the chain. *)
Fixpoint comparisons (x : CExpr) : list string :=
  match x with
  | BinaryExpr (BinaryExpr _ _ _ as l) _ r => comparisons l ++ comparisons r
  | BinaryExpr _ op _ => [op]
  | _ => []
  end.

(** An item of the first loop: a comparison whose left side is an operand
    or a variable. *)
Definition is_item (x : CExpr) : Prop :=
  match x with
  | BinaryExpr (BinaryExpr _ _ _) _ _ => False
  | BinaryExpr _ _ _ => True
  | _ => False
  end.

End Chain.

Arguments CExpr : clear implicits.

End Chain.

(* --------------------------------------------------------------------- *)
(** ** [StaticUnary]: static unary expressions                            *)
(* --------------------------------------------------------------------- *)
Module StaticUnary.
Import StaticEval.
Local Open Scope string_scope.
Local Open Scope Z_scope.

(** The table [staticOps] of [visit] for a [UnaryExpr]. *)
Definition staticOps (kind : nat) : list string :=
  match kind with
  | 1%nat => ["-"; "+"; "!"]
  | 2%nat => ["@"]
  | 3%nat => ["!"]
  | _ => []
  end.

(** Whether [visit], for a [UnaryExpr], hands the expression to
    [evaluateStaticUnary]. *)
Definition isStaticUnary (op : string) (kind : nat) : bool :=
  negb (kind =? 0)%nat && mem op (staticOps kind).

(** What [evaluateStaticUnary] does: beside the outcomes of the binary
    evaluator it may return null and leave the type alone. *)
Inductive Evaluation :=
| Evaluated (e : StaticExpr)
| NotYet (isStatic : nat)
| Nothing
| Fault.

(** [-value] on [int64_t]. *)
Definition sneg (v : Z) : outcome Op.Error Z := Op.s64 (- v).

(** [TypecheckVisitor::evaluateStaticUnary(expr)] on the operator and the
    type of the operand; a realized static is one that [canRealize()]. *)
Definition evaluateStaticUnary (op : string) (expr : Operand)
  : outcome Op.Error Evaluation :=
  if (kind expr =? 2)%nat then
    if String.eqb op "!" then
      match static expr with
      | Some (SStr v) => Value (Evaluated (IntExpr (z_of_bool (String.eqb v ""))))
      | Some _ => Value Fault
      | None => Value (NotYet 1)
      end
    else Value Nothing
  else if (kind expr =? 3)%nat then
    if String.eqb op "!" then
      match static expr with
      | Some (SBool v) => Value (Evaluated (BoolExpr (negb v)))
      | Some _ => Value Fault
      | None => Value (NotYet 1)
      end
    else Value Nothing
  else if String.eqb op "-" || String.eqb op "+" || String.eqb op "!" then
    match static expr with
    | Some (SInt value) =>
        if String.eqb op "+" then Value (Evaluated (IntExpr value))
        else if String.eqb op "-" then
          (v <-- sneg value ;; Value (Evaluated (IntExpr v)))
        else Value (Evaluated (BoolExpr (value =? 0)))
    | Some _ => Value Fault
    | None => Value (NotYet 1)
    end
  else Value Nothing.

End StaticUnary.

(* --------------------------------------------------------------------- *)
(** ** [CallArgs]: expansion of starred call arguments                    *)
(* --------------------------------------------------------------------- *)
Module CallArgs.
Local Open Scope string_scope.
Local Open Scope Z_scope.

Inductive Error := CALL_BAD_UNPACK | CALL_BAD_KWUNPACK | CALL_REPEATED_NAME.

Inductive EllipsisType := PIPE | PARTIAL | STANDALONE.

Section CallArgs.

(** Expressions. *)
Context {E : Type}.

(** What [transformCallArgs] reads of the class of a starred expression:
    whether it is a record, whether its name starts with the tuple
    prefix, the number of arguments of the record and the names of the
    fields of the class. *)
Record Class := mkClass
  { getRecord : bool; isTuple : bool; recordArgs : nat; fields : list string }.

(** What the first lines of an expansion leave in [star->what], and its
    class ([None] when the type is not known yet). *)
Record Target := mkTarget { what : E; typ : option Class }.

(** The expression of an argument: the starred ones with their [what],
    the ellipsis, [DotExpr e name] that an expansion creates, and any
    other one. *)
Inductive ArgExpr :=
| StarExpr (e : E)
| KeywordStarExpr (e : E)
| EllipsisExpr (mode : EllipsisType)
| DotExpr (e : E) (name : string)
| Other (e : E).

(** [CallExpr::Arg]. *)
Record Arg := mkArg { name : string; value : ArgExpr }.

(** [transform(e)]: the expression that typechecking leaves in the place
    of [e]. *)
Variable transform : ArgExpr -> ArgExpr.

(** Lines 1438-1443 and 1456-1461: [what] is typechecked, and unwrapped
    and typechecked again as long as its class is an optional; the result
    is stored in the starred expression. *)
Variable resolve : E -> Target.

(** A starred argument after these lines: its expression holds the new
    [what]. *)
Definition resolved (a : Arg) : Arg :=
  match value a with
  | StarExpr e => mkArg (name a) (StarExpr (what (resolve e)))
  | KeywordStarExpr e => mkArg (name a) (KeywordStarExpr (what (resolve e)))
  | _ => a
  end.

(** [el->mode = EllipsisExpr::PARTIAL] for an ellipsis without a name in
    the last place. *)
Definition mark (last : bool) (a : Arg) : Arg :=
  match value a with
  | EllipsisExpr _ =>
      if last && String.eqb (name a) EmptyString
      then mkArg (name a) (EllipsisExpr PARTIAL) else a
  | _ => a
  end.

(** [args.insert(args.begin() + ai, x)]. *)
Definition insert_at (ai : nat) (x : Arg) (args : list Arg) : list Arg :=
  take ai args ++ x :: drop ai args.

(** [for (size_t i = 0; i < n; i++, ai++) args.insert(args.begin() + ai,
    {named ? fields[i].name : "", ... fields[i].name})], from [i] on;
    [None] is [fields[i]] read beyond the fields. *)
Fixpoint insert_loop (named : bool) (e : E) (fields : list string)
  (count i : nat) (args : list Arg) (ai : nat) : option (list Arg * nat) :=
  match count with
  | O => Some (args, ai)
  | S count' =>
      match fields !! i with
      | None => None
      | Some f =>
          insert_loop named e fields count' (S i)
            (insert_at ai (mkArg (if named then f else EmptyString)
                                 (transform (DotExpr e f))) args)
            (S ai)
      end
  end.

(** The first loop of [transformCallArgs] at index [ai]; the result is
    what the function returns at this point ([false] to process the call
    later) and the vector as it leaves it, or [true] with the vector when
    the loop ends. The outer [None] is a loop that has not ended when the
    fuel has, or a read beyond the fields. *)
Fixpoint expand_loop (fuel : nat) (args : list Arg) (ai : nat)
  : option (outcome Error (bool * list Arg)) :=
  match fuel with
  | O => None
  | S fuel' =>
      match args !! ai with
      | None => Some (Value (true, args))
      | Some a =>
          match value a with
          | StarExpr e =>
              let t := resolve e in
              match typ t with
              | None => Some (Value (false, <[ai := resolved a]> args))
              | Some c =>
                  if negb (getRecord c) then Some (Raise CALL_BAD_UNPACK)
                  else
                    match insert_loop false (what t) (fields c) (recordArgs c)
                                      0 args ai with
                    | None => None
                    | Some (args', ai') => expand_loop fuel' (delete ai' args') ai'
                    end
              end
          | KeywordStarExpr e =>
              let t := resolve e in
              match typ t with
              | None => Some (Value (false, <[ai := resolved a]> args))
              | Some c =>
                  if negb (getRecord c) || isTuple c
                  then Some (Raise CALL_BAD_KWUNPACK)
                  else
                    match insert_loop true (what t) (fields c) (recordArgs c)
                                      0 args ai with
                    | None => None
                    | Some (args', ai') => expand_loop fuel' (delete ai' args') ai'
                    end
              end
          | _ =>
              let a' := mark (S ai =? length args)%nat a in
              expand_loop fuel'
                (<[ai := mkArg (name a') (transform (value a'))]> args) (S ai)
          end
      end
  end.

(** The second loop: the names in [seen] so far; [true] when a name that
    is not empty comes a second time. *)
Fixpoint repeated (seen : list string) (args : list Arg) : bool :=
  match args with
  | [] => false
  | a :: rest =>
      if String.eqb (name a) EmptyString then repeated seen rest
      else if existsb (String.eqb (name a)) seen then true
      else repeated (name a :: seen) rest
  end.

(** [TypecheckVisitor::transformCallArgs(args)]: its result and [args] as
    it leaves them. *)
Definition transformCallArgs (fuel : nat) (args : list Arg)
  : option (outcome Error (bool * list Arg)) :=
  match expand_loop fuel args 0 with
  | Some (Value (true, args')) =>
      if repeated [] args' then Some (Raise CALL_REPEATED_NAME)
      else Some (Value (true, args'))
  | r => r
  end.

(** What one argument becomes: a starred record gives one unnamed
    argument for each of its fields, a double-starred one a named
    argument for each, both typechecked; any other argument is
    typechecked in its place, an unnamed ellipsis in the last place as a
    partial-call ellipsis. *)
Definition expansion (last : bool) (a : Arg) : list Arg :=
  match value a with
  | StarExpr e =>
      match typ (resolve e) with
      | Some c =>
          map (fun f => mkArg EmptyString
                          (transform (DotExpr (what (resolve e)) f)))
              (take (recordArgs c) (fields c))
      | None => [resolved a]
      end
  | KeywordStarExpr e =>
      match typ (resolve e) with
      | Some c =>
          map (fun f => mkArg f (transform (DotExpr (what (resolve e)) f)))
              (take (recordArgs c) (fields c))
      | None => [resolved a]
      end
  | _ => [mkArg (name (mark last a)) (transform (value (mark last a)))]
  end.

(** All arguments expanded, in order. *)
Fixpoint expanded (args : list Arg) : list Arg :=
  match args with
  | [] => []
  | [a] => expansion true a
  | a :: rest => expansion false a ++ expanded rest
  end.

(** An argument that can be expanded now: when it is starred, its class
    is known and is a record with a field name for each of its
    arguments, and not a tuple when it is double-starred. *)
Definition expandable (a : Arg) : Prop :=
  match value a with
  | StarExpr e =>
      exists c, typ (resolve e) = Some c /\ getRecord c = true /\
                (recordArgs c <= length (fields c))%nat
  | KeywordStarExpr e =>
      exists c, typ (resolve e) = Some c /\ getRecord c = true /\
                isTuple c = false /\
                (recordArgs c <= length (fields c))%nat
  | _ => True
  end.

(** A starred argument whose class is not known yet. *)
Definition pending (a : Arg) : Prop :=
  match value a with
  | StarExpr e | KeywordStarExpr e => typ (resolve e) = None
  | _ => False
  end.

(** The names of the arguments that have one. *)
Definition names (args : list Arg) : list string :=
  List.filter (fun n => negb (String.eqb n EmptyString)) (map name args).

End CallArgs.

Arguments Class : clear implicits.
Arguments Target : clear implicits.
Arguments ArgExpr : clear implicits.
Arguments Arg : clear implicits.

(** An example: expressions are numbers, and typechecking adds 100 to an
    expression; the expression 2 is a pair and 3 a record with the
    fields [x] and [y], the class of any other is not known. *)
Definition lift (e : ArgExpr Z) : ArgExpr Z :=
  match e with
  | DotExpr e f => DotExpr (e + 100) f
  | Other e => Other (e + 100)
  | e => e
  end.

Definition pair_class : Class := mkClass true true 2 ["item1"; "item2"].
Definition point_class : Class := mkClass true false 2 ["x"; "y"].

Definition settle (e : Z) : Target Z :=
  mkTarget (e + 100)
    (if e =? 2 then Some pair_class
     else if e =? 3 then Some point_class else None).

(** The arguments of [f(1, *p, **q, ...)]. *)
Definition call_args : list (Arg Z) :=
  [ mkArg "" (Other 1);
    mkArg "" (StarExpr 2);
    mkArg "" (KeywordStarExpr 3);
    mkArg "" (EllipsisExpr STANDALONE) ].

End CallArgs.


(* ===================================================================== *)
(** * Part II: theorems                                                   *)
(* ===================================================================== *)

Section OpFacts.
Import Op.

Lemma in_int64b_spec x : in_int64b x = true <-> in_int64 x.
Proof. unfold in_int64b, in_int64. rewrite andb_true_iff, !Z.leb_le. tauto. Qed.

Lemma s64_in x : in_int64 x -> s64 x = Value x.
Proof. intros H. unfold s64. apply in_int64b_spec in H. now rewrite H. Qed.

End OpFacts.

Section OpFacts2.
Import Op.

Lemma quot_in_int64 a b :
  in_int64 a -> in_int64 b -> b <> 0 -> ~ (a = INT64_MIN /\ b = -1) ->
  in_int64 (Z.quot a b).
Proof.
  unfold in_int64, INT64_MIN, INT64_MAX. intros Ha Hb Hb0 Hov.
  pose proof (Z.quot_rem' a b) as E.
  pose proof (Z.rem_bound_abs a b Hb0) as Hr.
  pose proof (Z.rem_sign_mul a b Hb0) as Hs.
  set (q := Z.quot a b) in *. set (r := Z.rem a b) in *.
  assert (M : 2 ^ 63 = 9223372036854775808) by reflexivity.
  rewrite M in *. clearbody q r.
  split; nia.
Qed.

Lemma xor_neg_iff b m :
  (Z.lxor b m <? 0) = true <-> ((b < 0 /\ 0 <= m) \/ (0 <= b /\ m < 0)).
Proof.
  rewrite Z.ltb_lt. pose proof (Z.lxor_nonneg b m). lia.
Qed.

End OpFacts2.

Section DivMod.
Import Op.

Lemma divMod_c a b :
  in_int64 a -> in_int64 b -> b <> 0 -> ~ (a = INT64_MIN /\ b = -1) ->
  divMod false a b = Value (Z.quot a b, Z.rem a b).
Proof.
  intros Ha Hb Hb0 Hov. unfold divMod, sdiv, srem.
  apply Z.eqb_neq in Hb0 as Hb0'. rewrite Hb0'.
  pose proof (quot_in_int64 a b Ha Hb Hb0 Hov) as Hq.
  rewrite (s64_in _ Hq). cbn. apply in_int64b_spec in Hq. now rewrite Hq.
Qed.

Lemma divMod_python a b :
  in_int64 a -> in_int64 b -> b <> 0 -> ~ (a = INT64_MIN /\ b = -1) ->
  divMod true a b = Value (a / b, a mod b).
Proof.
  intros Ha Hb Hb0 Hov. unfold divMod, sdiv, smul, ssub, sadd.
  apply Z.eqb_neq in Hb0 as Hb0'. rewrite Hb0'.
  pose proof (quot_in_int64 a b Ha Hb Hb0 Hov) as Hq.
  rewrite (s64_in _ Hq). cbn [obind].
  pose proof (Z.quot_rem' a b) as E.
  pose proof (Z.rem_bound_abs a b Hb0) as Hr.
  pose proof (Z.rem_sign_mul a b Hb0) as Hs.
  assert (Hm : a - Z.quot a b * b = Z.rem a b) by lia.
  assert (Hrng : in_int64 (Z.rem a b)).
  { unfold in_int64, INT64_MIN, INT64_MAX in *.
    assert (M : 2 ^ 63 = 9223372036854775808) by reflexivity.
    rewrite M in *. lia. }
  assert (Hprod : in_int64 (Z.quot a b * b)).
  { unfold in_int64, INT64_MIN, INT64_MAX in *.
    assert (M : 2 ^ 63 = 9223372036854775808) by reflexivity.
    rewrite M in *. set (q := Z.quot a b) in *. set (r := Z.rem a b) in *.
    clearbody q r. split; nia. }
  rewrite (s64_in _ Hprod). cbn [obind]. rewrite Hm.
  rewrite (s64_in _ Hrng). cbn [obind].
  destruct (negb (Z.rem a b =? 0) && (Z.lxor b (Z.rem a b) <? 0)) eqn:C.
  - apply andb_true_iff in C as [C1 C2].
    apply negb_true_iff, Z.eqb_neq in C1. apply xor_neg_iff in C2.
    assert (Hm' : in_int64 (Z.rem a b + b)).
    { unfold in_int64, INT64_MIN, INT64_MAX in *.
      assert (M : 2 ^ 63 = 9223372036854775808) by reflexivity.
      rewrite M in *. lia. }
    assert (Hd' : in_int64 (Z.quot a b - 1)).
    { unfold in_int64, INT64_MIN, INT64_MAX in *.
      assert (M : 2 ^ 63 = 9223372036854775808) by reflexivity.
      rewrite M in *. set (q := Z.quot a b) in *. set (r := Z.rem a b) in *.
      clearbody q r. split; nia. }
    rewrite (s64_in _ Hm'). cbn [obind]. rewrite (s64_in _ Hd'). cbn [obind].
    assert (R : Remainder (Z.rem a b + b) b).
    { unfold Remainder. lia. }
    f_equal. f_equal.
    + apply (Zdiv_unique_full a b (Z.quot a b - 1) (Z.rem a b + b) R). lia.
    + apply (Zmod_unique_full a b (Z.quot a b - 1) (Z.rem a b + b) R). lia.
  - apply andb_false_iff in C.
    assert (R : Remainder (Z.rem a b) b).
    { unfold Remainder. destruct C as [C | C].
      - apply negb_false_iff, Z.eqb_eq in C. lia.
      - assert (~ ((b < 0 /\ 0 <= Z.rem a b) \/ (0 <= b /\ Z.rem a b < 0))) as N.
        { intros N. apply xor_neg_iff in N. congruence. }
        lia. }
    f_equal. f_equal.
    + apply (Zdiv_unique_full a b (Z.quot a b) (Z.rem a b) R). lia.
    + apply (Zmod_unique_full a b (Z.quot a b) (Z.rem a b) R). lia.
Qed.

(** C9 (as amended): for 64-bit [a] and [b], [divMod] raises
    STATIC_DIV_ZERO when [b = 0]; when [b <> 0] and the quotient is
    representable (not [INT64_MIN / -1]) it returns [(d, m)] with
    [a = d*b + m], both 64-bit; under [pythonCompat] these are the floor
    quotient and a remainder that is zero or has the sign of [b], otherwise
    the truncating quotient and remainder of C. *)
Theorem divMod_spec (pythonCompat : bool) (a b : Z) :
  in_int64 a -> in_int64 b ->
  (b = 0 -> divMod pythonCompat a b = Raise STATIC_DIV_ZERO) /\
  (b <> 0 -> ~ (a = INT64_MIN /\ b = -1) ->
   exists d m,
     divMod pythonCompat a b = Value (d, m) /\
     a = d * b + m /\ in_int64 d /\ in_int64 m /\
     (pythonCompat = true ->
        d = a / b /\ m = a mod b /\
        (m = 0 \/ (0 < m /\ 0 < b) \/ (m < 0 /\ b < 0))) /\
     (pythonCompat = false -> d = Z.quot a b /\ m = Z.rem a b)).
Proof.
  intros Ha Hb. split.
  - intros ->. unfold divMod. reflexivity.
  - intros Hb0 Hov. destruct pythonCompat.
    + exists (a / b), (a mod b). split; [now apply divMod_python|].
      pose proof (Z.div_mod a b Hb0) as E.
      assert (Hbound : (0 <= a mod b < b) \/ (b < a mod b <= 0)).
      { destruct (Z_lt_le_dec 0 b).
        - left. apply Z.mod_pos_bound; lia.
        - right. apply Z.mod_neg_bound; lia. }
      assert (Hm : in_int64 (a mod b)).
      { unfold in_int64, INT64_MIN, INT64_MAX in *. lia. }
      assert (Hd : in_int64 (a / b)).
      { unfold in_int64, INT64_MIN, INT64_MAX in *.
        assert (M : 2 ^ 63 = 9223372036854775808) by reflexivity.
        rewrite M in *. set (q := a / b) in *. set (r := a mod b) in *.
        clearbody q r. split; nia. }
      split; [lia|]. split; [exact Hd|]. split; [exact Hm|].
      split; [intros _; split; [reflexivity|split; [reflexivity|lia]] | discriminate].
    + exists (Z.quot a b), (Z.rem a b). split; [now apply divMod_c|].
      pose proof (Z.quot_rem' a b) as E.
      pose proof (Z.rem_bound_abs a b Hb0) as Hr.
      pose proof (Z.rem_sign_mul a b Hb0) as Hs.
      assert (Hm : in_int64 (Z.rem a b)).
      { unfold in_int64, INT64_MIN, INT64_MAX in *.
        assert (M : 2 ^ 63 = 9223372036854775808) by reflexivity.
        rewrite M in *. lia. }
      split; [lia|]. split; [apply quot_in_int64; assumption|].
      split; [exact Hm|]. split; [discriminate | intros _; split; reflexivity].
Qed.

Lemma divMod_spec_witness :
  (exists d m, divMod true (-7) 2 = Value (d, m) /\ d = -4 /\ m = 1) /\
  (exists d m, divMod false (-7) 2 = Value (d, m) /\ d = -3 /\ m = -1).
Proof.
  assert (Ha : in_int64 (-7)) by (unfold in_int64, INT64_MIN, INT64_MAX; lia).
  assert (Hb : in_int64 2) by (unfold in_int64, INT64_MIN, INT64_MAX; lia).
  assert (Hn : 2 <> 0) by lia.
  assert (Hov : ~ (-7 = INT64_MIN /\ 2 = -1)) by lia.
  split.
  - destruct (divMod_spec true (-7) 2 Ha Hb) as [_ H].
    destruct (H Hn Hov) as (d & m & E & _ & _ & _ & Hp & _).
    exists d, m. destruct (Hp eq_refl) as (-> & -> & _). auto.
  - destruct (divMod_spec false (-7) 2 Ha Hb) as [_ H].
    destruct (H Hn Hov) as (d & m & E & _ & _ & _ & _ & Hc).
    exists d, m. destruct (Hc eq_refl) as (-> & ->). auto.
Defined.

(** C9, as first stated (every [b <> 0]), fails at [INT64_MIN / -1]: the
    quotient is not representable, so [a / b] has no defined value and no
    pair is returned, in either mode. *)
Lemma divMod_min_overflow :
  in_int64 INT64_MIN /\ in_int64 (-1) /\ -1 <> 0 /\
  divMod true INT64_MIN (-1) = Undefined /\
  divMod false INT64_MIN (-1) = Undefined.
Proof.
  repeat split; try (unfold INT64_MIN, INT64_MAX; lia); try discriminate;
    vm_compute; reflexivity || (intros; discriminate).
Qed.

End DivMod.

Section Validate.
Import Expr.

Lemma empty_true s : empty s = true <-> s = EmptyString.
Proof. unfold empty. apply String.eqb_eq. Qed.

Lemma empty_false s : empty s = false <-> s <> EmptyString.
Proof. unfold empty. apply String.eqb_neq. Qed.

Lemma isKeywordStar_true e : isKeywordStar e = true <-> e = KeywordStarExpr.
Proof. destruct e; cbn; split; congruence. Qed.

Lemma getEllipsis_true e : getEllipsis e = true <-> e = EllipsisExpr.
Proof. destruct e; cbn; split; congruence. Qed.

Lemma getStar_true e : getStar e = true <-> e = StarExpr.
Proof. destruct e; cbn; split; congruence. Qed.

Lemma validate_loop_raises l :
  forall ns fe, is_Some (validate_loop l ns fe) -> fault_from l ns fe.
Proof.
  induction l as [|a rest IH]; intros ns fe; cbn [validate_loop].
  - intros [e He]. discriminate.
  - destruct (empty (name a) && ns &&
              negb (isKeywordStar (value a) || getEllipsis (value a))) eqn:C1.
    { intros _. apply andb_true_iff in C1 as [C1 C1c].
      apply andb_true_iff in C1 as [C1a C1b].
      apply negb_true_iff, orb_false_iff in C1c as [K1 K2].
      exists 0%nat, a. split; [reflexivity|]. left.
      apply empty_true in C1a. repeat split; auto.
      - intros E. apply isKeywordStar_true in E. congruence.
      - intros E. apply getEllipsis_true in E. congruence. }
    destruct (negb (empty (name a)) &&
              (getStar (value a) || isKeywordStar (value a))) eqn:C2.
    { intros _. apply andb_true_iff in C2 as [C2a C2b].
      apply negb_true_iff, empty_false in C2a.
      exists 0%nat, a. split; [reflexivity|]. right; left. split; [assumption|].
      apply orb_true_iff in C2b as [S|S];
        [left; now apply getStar_true | right; now apply isKeywordStar_true]. }
    destruct (getEllipsis (value a) && fe) eqn:C3.
    { intros _. apply andb_true_iff in C3 as [C3a C3b].
      exists 0%nat, a. split; [reflexivity|]. right; right.
      split; [now apply getEllipsis_true | now left]. }
    intros H. destruct (IH _ _ H) as (i & x & Hi & Hx).
    exists (S i), x. split; [exact Hi|].
    destruct Hx as [(N & K & L & F)|[(N & S)|(L & F)]].
    + left. repeat split; auto.
      destruct F as [F|(j & b & Hj & Hb & Nb)].
      * apply orb_true_iff in F as [F|F]; [now left|].
        right. exists 0%nat, a. repeat split; [lia|].
        now apply negb_true_iff, empty_false in F.
      * right. exists (S j), b. repeat split; [lia|assumption|assumption].
    + right; left. auto.
    + right; right. split; [assumption|].
      destruct F as [F|(j & b & Hj & Hb & Eb)].
      * apply orb_true_iff in F as [F|F]; [now left|].
        right. exists 0%nat, a. repeat split; [lia|].
        now apply getEllipsis_true.
      * right. exists (S j), b. repeat split; [lia|assumption|assumption].
Qed.

Lemma validate_loop_returns l :
  forall ns fe, validate_loop l ns fe = None -> ~ fault_from l ns fe.
Proof.
  induction l as [|a rest IH]; intros ns fe; cbn [validate_loop].
  - intros _ (i & x & Hi & _). destruct i; discriminate.
  - destruct (empty (name a) && ns &&
              negb (isKeywordStar (value a) || getEllipsis (value a))) eqn:C1;
      [discriminate|].
    destruct (negb (empty (name a)) &&
              (getStar (value a) || isKeywordStar (value a))) eqn:C2;
      [discriminate|].
    destruct (getEllipsis (value a) && fe) eqn:C3; [discriminate|].
    intros H (i & x & Hi & Hx). apply IH in H. apply H. clear H IH.
    destruct i as [|i].
    + exfalso. cbn in Hi. injection Hi as <-.
      destruct Hx as [(N & K & L & F)|[(N & S)|(L & F)]].
      * destruct F as [F|(j & b & Hj & _)]; [|lia].
        apply empty_true in N. rewrite N, F in C1. cbn in C1.
        apply negb_false_iff, orb_true_iff in C1 as [C|C].
        -- apply isKeywordStar_true in C. congruence.
        -- apply getEllipsis_true in C. congruence.
      * apply empty_false in N. rewrite N in C2. cbn in C2.
        apply orb_false_iff in C2 as [G1 G2].
        destruct S as [S|S]; rewrite S in *; discriminate.
      * destruct F as [F|(j & b & Hj & _)]; [|lia].
        rewrite L, F in C3. discriminate.
    + cbn in Hi. exists i, x. split; [exact Hi|].
      destruct Hx as [(N & K & L & F)|[(N & S)|(L & F)]].
      * left. repeat split; auto.
        destruct F as [F|(j & b & Hj & Hb & Nb)].
        -- left. now rewrite F.
        -- destruct j as [|j].
           ++ cbn in Hb. injection Hb as <-. left.
              apply empty_false in Nb. rewrite Nb. apply orb_true_r.
           ++ right. exists j, b. repeat split; [lia|exact Hb|exact Nb].
      * right; left. auto.
      * right; right. split; [assumption|].
        destruct F as [F|(j & b & Hj & Hb & Eb)].
        -- left. now rewrite F.
        -- destruct j as [|j].
           ++ cbn in Hb. injection Hb as <-. left.
              rewrite Eb. apply orb_true_r.
           ++ right. exists j, b. repeat split; [lia|exact Hb|exact Eb].
Qed.

Lemma fault_from_start l : fault_from l false false <-> ill_formed l.
Proof.
  unfold fault_from, ill_formed, unnamed_after_named, named_star, second_ellipsis.
  split.
  - intros (i & a & Hi & [(N & K & L & F)|[(N & S)|(L & F)]]).
    + destruct F as [F|F]; [discriminate|].
      exists i. left. exists a. auto.
    + exists i. right; left. exists a. auto.
    + destruct F as [F|F]; [discriminate|].
      exists i. right; right. exists a. auto.
  - intros (i & [(a & Hi & N & K & L & F)|[(a & Hi & N & S)|(a & Hi & L & F)]]);
      exists i, a; (split; [exact Hi|]).
    + left. auto.
    + right; left. auto.
    + right; right. auto.
Qed.

(** C10: [CallExpr::validate] raises an error exactly when some argument
    is unnamed after a named one (keyword-star and ellipsis values apart),
    or is named with a star or keyword-star value, or is a second
    ellipsis; on every other argument list it returns and the call is
    what it was. *)
Theorem validate_raises_iff (c : CallExpr) :
  ((exists e, validate c = Raise e) <-> ill_formed (args c)) /\
  (validate c = Value c <-> ~ ill_formed (args c)).
Proof.
  unfold validate. rewrite <- fault_from_start.
  destruct (validate_loop (args c) false false) as [e|] eqn:V.
  - assert (F : fault_from (args c) false false).
    { apply validate_loop_raises. rewrite V. eauto. }
    split; split; intros H; try discriminate; eauto. contradiction.
  - apply validate_loop_returns in V.
    split; split; intros H; try contradiction; auto.
    destruct H as [e He]. discriminate.
Qed.

End Validate.

(* --------------------------------------------------------------------- *)
(** ** [FuncType::hasUnbounds]                                            *)
(* --------------------------------------------------------------------- *)
Section HasUnbounds.
Import Types Examples.

(** What the code does for every function type: when no function generic,
    parent or parameter has an unbound, the answer is that of the return
    type. *)
Lemma FuncType_hasUnbounds_return ig a c ast idx fg fp g0 g1 rest t0 tr :
  generics c = g0 :: g1 :: rest ->
  gtype g0 = Some t0 -> gtype g1 = Some tr ->
  hasUnbounds_skipping_return ig c fg fp = Some false ->
  hasUnbounds ig (FuncType a c ast idx fg fp) = hasUnbounds ig tr.
Proof.
  intros Hg H0 H1. unfold hasUnbounds_skipping_return. cbn [hasUnbounds].
  destruct (anyGeneric (hasUnbounds ig) fg) as [[|]|]; try discriminate.
  destruct (match fp with Some p => hasUnbounds ig p | None => Some false end)
    as [[|]|]; try discriminate.
  rewrite Hg, H0, H1. intros ->. reflexivity.
Qed.

(** C6 (the code departs from it): for the function type [f() -> ?1],
    whose only unbound is its return type, [hasUnbounds] answers true,
    where skipping the return type gives false. *)
Theorem hasUnbounds_consults_return :
  hasUnbounds false returns_unbound = Some true /\
  hasUnbounds true returns_unbound = Some true /\
  (let c := mkClass "Function" "Function"
       [mkGeneric "T" 0
          (Some (ClassType (mkClass "Tuple" "Tuple" [] [] true))) false;
        mkGeneric "TR" 1 (Some (Unbound 1 0 false)) false]
       [] false in
   hasUnbounds_skipping_return false c [] None = Some false).
Proof. repeat split. Qed.

End HasUnbounds.

(* --------------------------------------------------------------------- *)
(** ** Overload selection                                                 *)
(* --------------------------------------------------------------------- *)
Section Selection.
Import Typecheck.
Context {Method Ctx : Type} (probe : Method -> Ctx -> Z * Ctx).

Lemma findMatchingMethods_scores (methods : list (option Method)) :
  forall ctx,
    fst (findMatchingMethods probe methods ctx) =
    map fst (filter (fun p => accepted p = true) (probe_scores probe methods ctx)).
Proof.
  induction methods as [|[mi|] rest IH]; intros ctx; cbn.
  - reflexivity.
  - destruct (probe mi ctx) as [s ctx1] eqn:P.
    specialize (IH ctx1).
    destruct (findMatchingMethods probe rest ctx1) as [results ctx2].
    cbn in IH. cbn [fst].
    destruct (s =? -1) eqn:E.
    + rewrite filter_cons_False; [exact IH|].
      unfold accepted. cbn [snd]. rewrite E. discriminate.
    + rewrite filter_cons_True; [cbn; now rewrite IH|].
      unfold accepted. cbn [snd]. now rewrite E.
  - apply IH.
Qed.

Lemma filter_rejected (l : list (Method * Z)) :
  Forall (fun p => snd p = -1) l ->
  filter (fun p => accepted p = true) l = [].
Proof.
  induction 1 as [|p l Hp _ IH]; [reflexivity|].
  rewrite filter_cons_False; [exact IH|].
  unfold accepted. rewrite Hp. discriminate.
Qed.

(** C1: with the overloads probed latest declaration first, the candidate
    selected is the last declared one that can be called: a candidate [m]
    whose score is at least 0 wins as soon as every overload declared
    after it is rejected, whatever the scores of those declared before
    it, equal scores included. *)
Theorem findBestMethod_last_declared
  (declared : list (option Method)) (ctx : Ctx)
  (pre post : list (Method * Z)) (m : Method) (s : Z) :
  declared_scores probe declared ctx = pre ++ (m, s) :: post ->
  0 <= s ->
  Forall (fun p => snd p = -1) post ->
  fst (findBestMethod probe (latest_first declared) ctx) = Some m /\
  head (fst (findMatchingMethods probe (latest_first declared) ctx)) = Some m.
Proof.
  intros Hd Hs Hpost.
  assert (H : head (fst (findMatchingMethods probe (latest_first declared) ctx))
              = Some m).
  { rewrite findMatchingMethods_scores.
    unfold declared_scores in Hd.
    apply (f_equal (@rev _)) in Hd. rewrite rev_involutive in Hd.
    rewrite Hd, rev_app_distr. cbn [rev]. rewrite <- app_assoc. cbn [app].
    rewrite filter_app, filter_rejected.
    2:{ apply List.Forall_rev. exact Hpost. }
    cbn [app].
    assert (E : (s =? -1) = false) by (apply Z.eqb_neq; lia).
    rewrite filter_cons_True; [reflexivity|].
    unfold accepted. cbn [snd]. now rewrite E. }
  split; [|exact H].
  unfold findBestMethod.
  destruct (findMatchingMethods probe (latest_first declared) ctx) as [r c'].
  exact H.
Qed.

End Selection.

(** Two overloads with the same parameter types get the same score; the
    later declaration is selected. *)
Lemma findBestMethod_last_declared_witness :
  fst (Typecheck.findBestMethod (fun (m : nat) (c : unit) => (4, c))
         (Typecheck.latest_first [Some 1%nat; Some 2%nat]) tt) = Some 2%nat /\
  head (fst (Typecheck.findMatchingMethods (fun (m : nat) (c : unit) => (4, c))
         (Typecheck.latest_first [Some 1%nat; Some 2%nat]) tt)) = Some 2%nat.
Proof.
  apply (findBestMethod_last_declared (fun (m : nat) (c : unit) => (4, c))
           [Some 1%nat; Some 2%nat] tt [(1%nat, 4)] [] 2%nat 4).
  - reflexivity.
  - lia.
  - constructor.
Defined.

(* --------------------------------------------------------------------- *)
(** ** Union types                                                        *)
(* --------------------------------------------------------------------- *)
Section UnionFacts.
Import Union.
Context {Member : Type} `{EqDecision Member}.

Implicit Types (u : UnionType Member) (t : Member).

Lemma addType_prefix t u :
  pendingTypes u `prefix_of` pendingTypes (fst (addType t u)).
Proof.
  unfold addType. destruct (isSealed u); [reflexivity|].
  destruct (bool_decide _); [reflexivity|].
  destruct (_ <=? _)%nat; [reflexivity|].
  cbn. apply prefix_app_r. reflexivity.
Qed.

Lemma addType_sealed t u :
  sealed u = true -> addType t u = (u, Some UNION_SEALED).
Proof. intros Hs. unfold addType, isSealed. now rewrite Hs. Qed.

Lemma addType_keeps_sealed t u : sealed (fst (addType t u)) = sealed u.
Proof.
  unfold addType, isSealed. destruct (sealed u) eqn:S; [exact S|].
  destruct (bool_decide _); [exact S|].
  destruct (_ <=? _)%nat; [exact S|]. reflexivity.
Qed.

Lemma addType_bound t u :
  (length (pendingTypes u) <= MAX_UNION)%nat ->
  (length (pendingTypes (fst (addType t u))) <= MAX_UNION)%nat.
Proof.
  intros Hb. unfold addType. destruct (isSealed u); [exact Hb|].
  destruct (bool_decide _); [exact Hb|].
  destruct (Nat.leb_spec MAX_UNION (length (pendingTypes u))); [exact Hb|].
  cbn. rewrite length_app. cbn. lia.
Qed.

Lemma run_sealed (ops : list (Op Member)) :
  forall u, sealed u = true -> run ops u = u.
Proof.
  induction ops as [|o ops IH]; intros u Hs; [reflexivity|].
  unfold run in *. cbn [fold_left].
  assert (E : step u o = u).
  { destruct o as [t|]; cbn.
    - now rewrite addType_sealed.
    - unfold seal. destruct u as [p s]. cbn in *. now subst. }
  rewrite E. now apply IH.
Qed.

Lemma run_bound (ops : list (Op Member)) :
  forall u, (length (pendingTypes u) <= MAX_UNION)%nat ->
            (length (pendingTypes (run ops u)) <= MAX_UNION)%nat.
Proof.
  induction ops as [|o ops IH]; intros u Hb; [exact Hb|].
  unfold run in *. cbn [fold_left]. apply IH.
  destruct o as [t|]; cbn; [now apply addType_bound | exact Hb].
Qed.

Lemma run_prefix (ops : list (Op Member)) :
  forall u, pendingTypes u `prefix_of` pendingTypes (run ops u).
Proof.
  induction ops as [|o ops IH]; intros u; [reflexivity|].
  unfold run in *. cbn [fold_left].
  etransitivity; [|apply IH].
  destruct o as [t|]; cbn; [apply addType_prefix | reflexivity].
Qed.

(** C7: for a union [u] reached from the empty union by any run of
    [addType] and [seal] calls, [addType] keeps the members there are, in
    their order, as a prefix of the new member list; once [u] is sealed
    every further [addType] fails and no run of further calls changes it;
    and [u] never has more than [MAX_UNION] = 256 members. *)
Theorem union_grows_until_sealed (ops : list (Op Member)) (t : Member) :
  let u := run ops empty_union in
  pendingTypes u `prefix_of` pendingTypes (fst (addType t u)) /\
  (forall more, pendingTypes u `prefix_of` pendingTypes (run more u)) /\
  addType t (seal u) = (seal u, Some UNION_SEALED) /\
  (forall more, run more (seal u) = seal u) /\
  pendingTypes (seal u) = pendingTypes u /\
  (length (pendingTypes u) <= 256)%nat /\
  (length (pendingTypes (fst (addType t u))) <= 256)%nat.
Proof.
  intros u.
  assert (Hb : (length (pendingTypes u) <= MAX_UNION)%nat).
  { apply run_bound. cbn. unfold MAX_UNION. lia. }
  split; [apply addType_prefix|].
  split; [intros more; apply run_prefix|].
  split; [now apply addType_sealed|].
  split; [intros more; now apply run_sealed|].
  split; [reflexivity|].
  split; [exact Hb|].
  now apply addType_bound.
Qed.

End UnionFacts.

(* --------------------------------------------------------------------- *)
(** ** Unification: fuel                                                  *)
(* --------------------------------------------------------------------- *)
Section Fuel.
Import Types.

Lemma follow_mono n : forall m st t r,
  (n <= m)%nat -> follow n st t = Some r -> follow m st t = Some r.
Proof.
  induction n as [|n IH]; intros m st t r Hle H; [discriminate|].
  destruct m as [|m]; [lia|]. cbn in *.
  destruct t; try exact H.
  - destruct (st !! id); [|exact H]. apply (IH m); [lia|exact H].
  - apply (IH m); [lia|exact H].
Qed.

Lemma unify_generics_mono rec rec' g1 : forall g2 s us r,
  answers_as rec rec' ->
  unify_generics rec g1 g2 s us = Some r ->
  unify_generics rec' g1 g2 s us = Some r.
Proof.
  induction g1 as [|a g1 IH]; intros g2 s us r Hrec H; [exact H|].
  destruct g2 as [|b g2]; [exact H|]. cbn in *.
  destruct (gtype a) as [ta|]; [|discriminate].
  destruct (gtype b) as [tb|]; [|discriminate].
  destruct (rec ta tb us) as [[s' us']|] eqn:E; [|discriminate].
  rewrite (Hrec _ _ _ _ E).
  destruct (s' =? -1); [exact H|]. now apply IH.
Qed.

Lemma ClassType_unify_mono n m rec rec' this c typ us r :
  (n <= m)%nat -> answers_as rec rec' ->
  ClassType_unify n rec this c typ us = Some r ->
  ClassType_unify m rec' this c typ us = Some r.
Proof.
  intros Hle Hrec. unfold ClassType_unify.
  destruct (follow n (store us) typ) as [node|] eqn:F; [|discriminate].
  rewrite (follow_mono n m _ _ _ Hle F).
  destruct (as_class node) as [tc|].
  - destruct (_ && _); [apply Hrec|].
    destruct (_ && _).
    { destruct (generics c) as [|g0 ?]; [discriminate|].
      destruct (gtype g0); [apply Hrec|discriminate]. }
    destruct (negb _); [auto|].
    destruct (negb _); [auto|].
    destruct (unify_generics rec _ _ _ _) as [x|] eqn:U; [|discriminate].
    now rewrite (unify_generics_mono _ _ _ _ _ _ _ Hrec U).
  - destruct (is_link typ); [apply Hrec|auto].
Qed.

Lemma FuncType_unify_mono n m rec rec' this c ast idx fg fp typ us r :
  (n <= m)%nat -> answers_as rec rec' ->
  FuncType_unify n rec this c ast idx fg fp typ us = Some r ->
  FuncType_unify m rec' this c ast idx fg fp typ us = Some r.
Proof.
  intros Hle Hrec. unfold FuncType_unify.
  destruct (same_object this typ); [auto|].
  assert (Hfin : forall s1 us0 r0,
    match ClassType_unify n rec this c typ us0 with
    | Some (s, us') => Some (if s =? -1 then s else s1 + s, us')
    | None => None
    end = Some r0 ->
    match ClassType_unify m rec' this c typ us0 with
    | Some (s, us') => Some (if s =? -1 then s else s1 + s, us')
    | None => None
    end = Some r0).
  { intros s1 us0 r0.
    destruct (ClassType_unify n rec this c typ us0) as [x|] eqn:C; [|discriminate].
    now rewrite (ClassType_unify_mono _ _ _ _ _ _ _ _ _ Hle Hrec C). }
  destruct (follow n (store us) typ) as [node|] eqn:F; [|discriminate].
  rewrite (follow_mono n m _ _ _ Hle F).
  destruct node; try apply Hfin.
  destruct (_ || _); [auto|].
  assert (Hap : forall s1 us0 r0,
    (if negb (length fg =? length funcGenerics)%nat then None
     else match unify_generics rec fg funcGenerics s1 us0 with
          | Some (inl _, us') => Some (-1, us')
          | Some (inr s, us') =>
              match ClassType_unify n rec this c typ us' with
              | Some (s0, us'0) => Some (if s0 =? -1 then s0 else s + s0, us'0)
              | None => None
              end
          | None => None
          end) = Some r0 ->
    (if negb (length fg =? length funcGenerics)%nat then None
     else match unify_generics rec' fg funcGenerics s1 us0 with
          | Some (inl _, us') => Some (-1, us')
          | Some (inr s, us') =>
              match ClassType_unify m rec' this c typ us' with
              | Some (s0, us'0) => Some (if s0 =? -1 then s0 else s + s0, us'0)
              | None => None
              end
          | None => None
          end) = Some r0).
  { intros s1 us0 r0. destruct (negb _); [auto|].
    destruct (unify_generics rec fg funcGenerics s1 us0) as [x|] eqn:U;
      [|discriminate].
    rewrite (unify_generics_mono _ _ _ _ _ _ _ Hrec U).
    destruct x as [[u|s] us']; [auto|apply Hfin]. }
  destruct fp as [p|]; [|apply Hap].
  destruct funcParent as [p'|]; [|apply Hap].
  destruct (rec p p' us) as [[s us']|] eqn:R; [|discriminate].
  rewrite (Hrec _ _ _ _ R). destruct (s =? -1); [auto|apply Hap].
Qed.

Lemma StaticType_unify_mono n m rec rec' this v typ us r :
  (n <= m)%nat -> answers_as rec rec' ->
  StaticType_unify n rec this v typ us = Some r ->
  StaticType_unify m rec' this v typ us = Some r.
Proof.
  intros Hle Hrec. unfold StaticType_unify.
  destruct (follow n (store us) typ) as [node|] eqn:F; [|discriminate].
  rewrite (follow_mono n m _ _ _ Hle F).
  destruct node; auto.
Qed.

Lemma LinkType_unify_mono n m rec rec' this typ us r :
  (n <= m)%nat -> answers_as rec rec' ->
  LinkType_unify n rec this typ us = Some r ->
  LinkType_unify m rec' this typ us = Some r.
Proof.
  intros Hle Hrec. unfold LinkType_unify.
  destruct this; auto.
  destruct (store us !! id); [apply Hrec|].
  destruct (follow n (store us) typ) as [node|] eqn:F; [|discriminate].
  rewrite (follow_mono n m _ _ _ Hle F). auto.
Qed.

(** More fuel never changes an answer. *)
Lemma unify_mono n : forall m this typ us r,
  (n <= m)%nat -> unify n this typ us = Some r -> unify m this typ us = Some r.
Proof.
  induction n as [|n IH]; intros m this typ us r Hle H; [discriminate|].
  destruct m as [|m]; [lia|].
  assert (Hle' : (n <= m)%nat) by lia.
  assert (Hrec : answers_as (unify n) (unify m)).
  { intros a b us0 r0. now apply IH. }
  cbn [unify] in *. destruct this.
  - now apply (LinkType_unify_mono n m (unify n)).
  - now apply (LinkType_unify_mono n m (unify n)).
  - now apply (LinkType_unify_mono n m (unify n)).
  - now apply (ClassType_unify_mono n m (unify n)).
  - now apply (FuncType_unify_mono n m (unify n)).
  - now apply (StaticType_unify_mono n m (unify n)).
Qed.

End Fuel.

(* --------------------------------------------------------------------- *)
(** ** [ClassType::unify]                                                 *)
(* --------------------------------------------------------------------- *)
Section ClassUnify.
Import Types.
Local Open Scope string_scope.

Lemma unify_generics_pairwise rec g1 g2 us ss us' :
  pairwise rec g1 g2 us ss us' ->
  forall s1, unify_generics rec g1 g2 s1 us = Some (inr (s1 + sum_scores ss), us').
Proof.
  induction 1 as [us|a b ta tb g1 g2 us s us1 ss us2 Ha Hb Hr Hs _ IH];
    intros s1; cbn.
  - now rewrite Z.add_0_r.
  - rewrite Ha, Hb, Hr. apply Z.eqb_neq in Hs. rewrite Hs.
    rewrite IH. do 3 f_equal. unfold sum_scores. cbn [fold_right]. lia.
Qed.

Lemma unify_generics_fails rec g1 g2 us us' :
  pairwise_fails rec g1 g2 us us' ->
  forall s1, unify_generics rec g1 g2 s1 us = Some (inl tt, us').
Proof.
  induction 1 as [a b ta tb g1 g2 us us1 Ha Hb Hr
                 |a b ta tb g1 g2 us s us1 us2 Ha Hb Hr Hs _ IH];
    intros s1; cbn; rewrite Ha, Hb, Hr.
  - reflexivity.
  - apply Z.eqb_neq in Hs. rewrite Hs. apply IH.
Qed.

Lemma pairwise_length rec g1 g2 us ss us' :
  pairwise rec g1 g2 us ss us' -> length g1 = length g2.
Proof. induction 1; cbn; congruence. Qed.

(** C4: unifying two class types. Different names fail with -1, but for
    the pair "int" / "Int", which in either order unifies the width
    generic of "Int" with the static integer 64. With equal names a
    different number of generics fails; otherwise the score is 3 plus the
    sum of the scores of the pairwise generic unifications, or -1 as soon
    as one pair fails. *)
Theorem ClassType_unify_spec (n : nat) (c tc : ClassFields Ty) (us : UState) :
  let this := ClassType c in
  let typ := ClassType tc in
  (name c <> name tc ->
   ~ (name c = "int" /\ name tc = "Int") ->
   ~ (name c = "Int" /\ name tc = "int") ->
   unify (S (S n)) this typ us = Some (-1, us)) /\
  (forall g0 rest t0,
     name c = "Int" -> name tc = "int" ->
     generics c = g0 :: rest -> gtype g0 = Some t0 ->
     unify (S (S n)) this typ us = unify (S n) t0 (IntStaticType 64) us) /\
  (forall g0 rest t0,
     name c = "int" -> name tc = "Int" ->
     generics tc = g0 :: rest -> gtype g0 = Some t0 ->
     unify (S (S (S n))) this typ us = unify (S n) t0 (IntStaticType 64) us) /\
  (name c = name tc -> length (generics c) <> length (generics tc) ->
   unify (S (S n)) this typ us = Some (-1, us)) /\
  (forall ss us',
     name c = name tc ->
     pairwise (unify (S n)) (generics c) (generics tc) us ss us' ->
     unify (S (S n)) this typ us = Some (3 + sum_scores ss, us')) /\
  (forall us',
     name c = name tc -> length (generics c) = length (generics tc) ->
     pairwise_fails (unify (S n)) (generics c) (generics tc) us us' ->
     unify (S (S n)) this typ us = Some (-1, us')).
Proof.
  intros this typ. subst this typ.
  assert (Eq : forall a b : string,
             a = b -> ~ (String.eqb a "int" && String.eqb b "Int" = true) /\
                      ~ (String.eqb b "int" && String.eqb a "Int" = true)).
  { intros a b ->. split; intros H; apply andb_true_iff in H as [H1 H2];
      apply String.eqb_eq in H1, H2; congruence. }
  repeat split.
  - intros Hne H1 H2. cbn.
    destruct (String.eqb (name c) "int" && String.eqb (name tc) "Int") eqn:C1.
    { exfalso. apply H1. apply andb_true_iff in C1 as [A B].
      now apply String.eqb_eq in A, B. }
    destruct (String.eqb (name tc) "int" && String.eqb (name c) "Int") eqn:C2.
    { exfalso. apply H2. apply andb_true_iff in C2 as [A B].
      now apply String.eqb_eq in A, B. }
    apply String.eqb_neq in Hne. now rewrite Hne.
  - intros g0 rest t0 Hc Htc Hg H0. cbn [unify ClassType_unify follow as_class].
    rewrite Hc, Htc, Hg, H0. reflexivity.
  - intros g0 rest t0 Hc Htc Hg H0.
    cbn [unify ClassType_unify follow as_class].
    rewrite Hc, Htc, Hg, H0. reflexivity.
  - intros Hn Hl. cbn [unify ClassType_unify follow as_class].
    destruct (Eq _ _ Hn) as [E1 E2].
    apply not_true_is_false in E1, E2. rewrite E1, E2.
    rewrite Hn at 1. rewrite String.eqb_refl. cbn [negb].
    apply Nat.eqb_neq in Hl. now rewrite Hl.
  - intros ss us' Hn Hp. cbn [unify ClassType_unify follow as_class].
    destruct (Eq _ _ Hn) as [E1 E2].
    apply not_true_is_false in E1, E2. rewrite E1, E2.
    rewrite Hn at 1. rewrite String.eqb_refl. cbn [negb].
    rewrite (pairwise_length _ _ _ _ _ _ Hp), Nat.eqb_refl. cbn [negb].
    now rewrite (unify_generics_pairwise _ _ _ _ _ _ Hp).
  - intros us' Hn Hl Hp. cbn [unify ClassType_unify follow as_class].
    destruct (Eq _ _ Hn) as [E1 E2].
    apply not_true_is_false in E1, E2. rewrite E1, E2.
    rewrite Hn at 1. rewrite String.eqb_refl. cbn [negb].
    rewrite Hl, Nat.eqb_refl. cbn [negb].
    now rewrite (unify_generics_fails _ _ _ _ _ Hp).
Qed.

End ClassUnify.

(* --------------------------------------------------------------------- *)
(** ** Induction on types                                                 *)
(* --------------------------------------------------------------------- *)
Section TyInduction.
Import Types.

Lemma slots_nil P : slots P [].
Proof. intros g t []. Qed.

Lemma slots_cons P g gs :
  slots P (g :: gs) <-> (forall t, gtype g = Some t -> P t) /\ slots P gs.
Proof.
  unfold slots. split.
  - intros H. split; [intros t; apply H; now left|].
    intros g' t Hin. apply H. now right.
  - intros [H1 H2] g' t [<-|Hin]; [apply H1|now apply H2].
Qed.

Lemma list_all_slots (P : Ty -> Prop) gs :
  list_all (Generic Ty) (Generic_all Ty P) gs -> slots P gs.
Proof.
  induction 1 as [|g Hg gs _ IH]; [apply slots_nil|].
  apply slots_cons. split; [|exact IH].
  intros t Ht. destruct Hg as [n i ty Hty st]. cbn in Ht. subst ty.
  inversion Hty. assumption.
Qed.

Lemma Ty_induction (P : Ty -> Prop) :
  (forall id level isStatic, P (Unbound id level isStatic)) ->
  (forall id isStatic, P (GenericVar id isStatic)) ->
  (forall target, P target -> P (Link target)) ->
  (forall c, slots P (generics c) -> slots P (hiddenGenerics c) ->
             P (ClassType c)) ->
  (forall addr c ast index fg fp,
      slots P (generics c) -> slots P (hiddenGenerics c) -> slots P fg ->
      (forall p, fp = Some p -> P p) ->
      P (FuncType addr c ast index fg fp)) ->
  (forall sname value, P (StaticType sname value)) ->
  forall t, P t.
Proof.
  intros HU HG HL HC HF HS. apply Ty_ind; auto.
  - intros c Hc. destruct Hc as [n nn g Hg hg Hhg tup].
    apply HC; cbn; now apply list_all_slots.
  - intros a c Hc ast idx fg Hfg fp Hfp.
    destruct Hc as [n nn g Hg hg Hhg tup].
    apply HF; cbn; try now apply list_all_slots.
    intros p ->. inversion Hfp. assumption.
Qed.

End TyInduction.

(* --------------------------------------------------------------------- *)
(** ** Reflexivity of unification on concrete types                       *)
(* --------------------------------------------------------------------- *)
Section Reflexivity.
Import Types.

Lemma links_Link k t : links k (Link t) = links (S k) t.
Proof. induction k as [|k IH]; cbn; [reflexivity|]. now rewrite IH. Qed.

Lemma follow_links k : forall fuel st node,
  (k < fuel)%nat -> is_link node = false ->
  follow fuel st (links k node) = Some node.
Proof.
  induction k as [|k IH]; intros fuel st node Hlt Hn.
  - destruct fuel as [|f]; [lia|]. cbn. destruct node; try reflexivity; discriminate.
  - destruct fuel as [|f]; [lia|]. cbn. apply IH; [lia|exact Hn].
Qed.

Lemma static_eqb_refl v : static_eqb v v = true.
Proof.
  destruct v; cbn.
  - apply Z.eqb_refl.
  - apply String.eqb_refl.
  - now destruct value.
Qed.

Lemma unify_generics_self gs :
  slots (fun t => concrete t -> unifies_with_itself t) gs ->
  all_slots concrete gs ->
  forall us, exists ss n0,
    0 <= ss /\
    forall fuel s1, (n0 <= fuel)%nat ->
      unify_generics (unify fuel) gs gs s1 us = Some (inr (s1 + ss), us).
Proof.
  induction gs as [|g gs IH]; intros Hs Hc us.
  - exists 0, 0%nat. split; [lia|]. intros fuel s1 _. cbn. now rewrite Z.add_0_r.
  - apply slots_cons in Hs as [Hg Hs]. cbn in Hc. destruct Hc as [Hcg Hc].
    destruct (gtype g) as [t|] eqn:Et; [|contradiction].
    destruct (Hg t eq_refl Hcg 0%nat us) as (s & n1 & Hs0 & Hu).
    destruct (IH Hs Hc us) as (ss & n2 & Hss & Hrest).
    exists (s + ss), (Nat.max n1 n2). split; [lia|].
    intros fuel s1 Hf. cbn. rewrite Et. cbn [links] in Hu.
    rewrite (Hu fuel) by lia.
    assert (E : (s =? -1) = false) by (apply Z.eqb_neq; lia).
    rewrite E. rewrite (Hrest fuel (s1 + s)) by lia.
    do 3 f_equal. lia.
Qed.

Lemma ClassType_unify_self fuel this c typ us ss :
  follow fuel (store us) typ = Some this ->
  as_class this = Some c ->
  (forall s1, unify_generics (unify fuel) (generics c) (generics c) s1 us
              = Some (inr (s1 + ss), us)) ->
  ClassType_unify fuel (unify fuel) this c typ us = Some (3 + ss, us).
Proof.
  intros F A U. unfold ClassType_unify. rewrite F, A.
  destruct (String.eqb (name c) "int" && String.eqb (name c) "Int") eqn:C1.
  { apply andb_true_iff in C1 as [X Y]. apply String.eqb_eq in X, Y.
    rewrite X in Y. discriminate. }
  rewrite String.eqb_refl, Nat.eqb_refl. cbn [negb]. now rewrite U.
Qed.

Lemma concrete_unifies_with_itself t : concrete t -> unifies_with_itself t.
Proof.
  induction t as [id lvl st|id st|t IH|c Hg Hh|a c ast idx fg fp Hg Hh Hfg Hp|n v]
    using Ty_induction; intros Hc k us.
  - contradiction.
  - contradiction.
  - destruct (IH Hc (S k) us) as (s & n0 & Hs & Hu).
    exists s, (S n0). split; [exact Hs|].
    intros fuel Hf. destruct fuel as [|f]; [lia|].
    cbn [unify LinkType_unify]. rewrite links_Link. apply Hu. lia.
  - destruct Hc as [Hcg _].
    destruct (unify_generics_self _ Hg Hcg us) as (ss & n1 & Hss & Hu).
    exists (3 + ss), (S (Nat.max n1 (S k))). split; [lia|].
    intros fuel Hf. destruct fuel as [|f]; [lia|]. cbn [unify].
    apply ClassType_unify_self.
    + apply follow_links; [lia|reflexivity].
    + reflexivity.
    + intros s1. apply Hu. lia.
  - destruct Hc as (Hcg & _ & Hcf & Hcp).
    destruct (unify_generics_self _ Hg Hcg us) as (ss & n1 & Hss & Hu).
    destruct (unify_generics_self _ Hfg Hcf us) as (fs & n2 & Hfs & Hfu).
    assert (Hpar : exists ps n3, 0 <= ps /\
              forall fuel, (n3 <= fuel)%nat ->
                match fp with
                | Some p => unify fuel p p us = Some (ps, us)
                | None => ps = 0
                end).
    { destruct fp as [p|].
      - destruct (Hp p eq_refl Hcp 0%nat us) as (ps & n3 & Hps & Hpu).
        exists ps, n3. split; [exact Hps|]. intros fuel Hf. now apply Hpu.
      - exists 0, 0%nat. split; [lia|]. reflexivity. }
    destruct Hpar as (ps & n3 & Hps & Hpu).
    destruct k as [|k].
    + exists 0, 1%nat. split; [lia|].
      intros fuel Hf. destruct fuel as [|f]; [lia|].
      cbn [unify links]. unfold FuncType_unify, same_object.
      now rewrite Nat.eqb_refl.
    + exists (2 + ps + fs + (3 + ss)),
             (S (Nat.max (Nat.max n1 n2) (Nat.max n3 (S (S k))))).
      split; [lia|].
      intros fuel Hf. destruct fuel as [|f]; [lia|].
      cbn [unify]. unfold FuncType_unify.
      cbn [links same_object].
      change (Link (links k (FuncType a c ast idx fg fp)))
        with (links (S k) (FuncType a c ast idx fg fp)).
      rewrite (follow_links (S k) f (store us) (FuncType a c ast idx fg fp))
        by (lia || reflexivity).
      rewrite String.eqb_refl, Nat.eqb_refl.
      assert (X : xorb (bool_decide (is_Some fp)) (bool_decide (is_Some fp)) = false)
        by apply xorb_nilpotent.
      rewrite X. cbn [negb orb].
      assert (Cl : ClassType_unify f (unify f) (FuncType a c ast idx fg fp) c
                     (links (S k) (FuncType a c ast idx fg fp)) us
                   = Some (3 + ss, us)).
      { apply ClassType_unify_self.
        - apply follow_links; [lia|reflexivity].
        - reflexivity.
        - intros s1. apply Hu. lia. }
      assert (E3 : (3 + ss =? -1) = false) by (apply Z.eqb_neq; lia).
      destruct fp as [p|].
      * rewrite (Hpu f) by lia.
        assert (E : (ps =? -1) = false) by (apply Z.eqb_neq; lia).
        rewrite E. rewrite Hfu by lia. rewrite Cl, E3.
        rewrite Nat.eqb_refl. reflexivity.
      * rewrite (Hpu f) by lia. rewrite Hfu by lia. rewrite Cl, E3.
        rewrite Nat.eqb_refl. cbn [negb]. reflexivity.
  - exists 0, (S (S k)). split; [lia|].
    intros fuel Hf. destruct fuel as [|f]; [lia|].
    cbn [unify]. unfold StaticType_unify.
    rewrite follow_links by (lia || reflexivity).
    now rewrite static_eqb_refl.
Qed.

End Reflexivity.

Section ReflexivityTheorem.
Import Types Examples.
Local Open Scope string_scope.

Lemma all_slots_slots (P : Ty -> Prop) gs :
  (forall t, P t) -> slots P gs.
Proof. intros H g t _ _. apply H. Qed.

(** C5 (as amended): a concrete type unifies with itself with a score that
    is at least 0, for all fuel from some point on, and the type graph and
    the undo log are left as they were; the score is 0 for a function type
    (the same object) and at least 3 for a class type. *)
Theorem unify_reflexive (t : Ty) (us : UState) :
  concrete t ->
  exists s n0,
    0 <= s /\
    (forall fuel, (n0 <= fuel)%nat -> unify fuel t t us = Some (s, us)) /\
    (forall a c ast idx fg fp, t = FuncType a c ast idx fg fp -> s = 0) /\
    (forall c, t = ClassType c -> 3 <= s).
Proof.
  intros Hc. destruct t as [id lvl st|id st|t'|c|a c ast idx fg fp|n v].
  - contradiction.
  - contradiction.
  - destruct (concrete_unifies_with_itself _ Hc 0%nat us) as (s & n0 & Hs & Hu).
    exists s, n0. repeat split; try exact Hs; try exact Hu; intros; discriminate.
  - destruct Hc as [Hcg Hch].
    destruct (unify_generics_self (generics c)
                (all_slots_slots _ _ concrete_unifies_with_itself) Hcg us)
      as (ss & n1 & Hss & Hu).
    exists (3 + ss), (S (S n1)). split; [lia|]. split; [|split].
    + intros fuel Hf. destruct fuel as [|f]; [lia|]. cbn [unify].
      apply ClassType_unify_self.
      * apply (follow_links 0); [lia|reflexivity].
      * reflexivity.
      * intros s1. apply Hu. lia.
    + intros; discriminate.
    + intros; lia.
  - exists 0, 1%nat. split; [lia|]. split; [|split].
    + intros fuel Hf. destruct fuel as [|f]; [lia|].
      cbn [unify]. unfold FuncType_unify, same_object.
      now rewrite Nat.eqb_refl.
    + reflexivity.
    + intros; discriminate.
  - destruct (concrete_unifies_with_itself _ Hc 0%nat us) as (s & n0 & Hs & Hu).
    exists s, n0. repeat split; try exact Hs; try exact Hu; intros; discriminate.
Qed.

Lemma unify_reflexive_witness :
  exists s n0,
    0 <= s /\
    (forall fuel, (n0 <= fuel)%nat ->
       unify fuel (list_of int_class) (list_of int_class) (mkUState ∅ [])
       = Some (s, mkUState ∅ [])) /\
    3 <= s.
Proof.
  destruct (unify_reflexive (list_of int_class) (mkUState ∅ [])) as
    (s & n0 & Hs & Hu & _ & Hc).
  - cbn. tauto.
  - exists s, n0. split; [exact Hs|]. split; [exact Hu|].
    apply (Hc _ eq_refl).
Defined.

(** C5, as first stated (score 0), fails for the concrete class type
    [int]: [unify(int, int)] scores 3, the base weight of a class match,
    whatever the fuel. *)
Lemma unify_int_int_scores_3 :
  concrete int_class /\
  unify 2 int_class int_class (mkUState ∅ []) = Some (3, mkUState ∅ []) /\
  ~ (exists fuel us, unify fuel int_class int_class (mkUState ∅ []) = Some (0, us)).
Proof.
  split; [cbn; tauto|]. split; [reflexivity|].
  intros (fuel & us & H).
  destruct (Nat.le_gt_cases fuel 2) as [Hle|Hgt].
  - apply (unify_mono fuel 2) in H; [|exact Hle]. discriminate.
  - assert (E : unify fuel int_class int_class (mkUState ∅ [])
                = Some (3, mkUState ∅ [])).
    { apply (unify_mono 2); [lia|reflexivity]. }
    rewrite E in H. discriminate.
Qed.

End ReflexivityTheorem.

(* --------------------------------------------------------------------- *)
(** ** The undo log                                                       *)
(* --------------------------------------------------------------------- *)
Section UndoLog.
Import Types.

Lemma undo_app d1 : forall d2 st, undo (d1 ++ d2) st = undo d2 (undo d1 st).
Proof.
  induction d1 as [|[id prev] d1 IH]; intros d2 st; [reflexivity|].
  cbn. apply IH.
Qed.

Lemma logged_refl us : logged us us.
Proof. exists []. split; reflexivity. Qed.

Lemma logged_trans us1 us2 us3 :
  logged us1 us2 -> logged us2 us3 -> logged us1 us3.
Proof.
  intros (d1 & L1 & U1) (d2 & L2 & U2). exists (d2 ++ d1). split.
  - rewrite L2, L1. now rewrite app_assoc.
  - rewrite undo_app, U2. exact U1.
Qed.

Lemma unify_generics_logged rec g1 : forall g2 s1 us r us',
  logs rec -> unify_generics rec g1 g2 s1 us = Some (r, us') -> logged us us'.
Proof.
  induction g1 as [|a g1 IH]; intros g2 s1 us r us' Hrec H.
  - cbn in H. injection H as _ <-. apply logged_refl.
  - destruct g2 as [|b g2]; [cbn in H; injection H as _ <-; apply logged_refl|].
    cbn in H.
    destruct (gtype a) as [ta|]; [|discriminate].
    destruct (gtype b) as [tb|]; [|discriminate].
    destruct (rec ta tb us) as [[s us1]|] eqn:E; [|discriminate].
    apply Hrec in E.
    destruct (s =? -1).
    + injection H as _ <-. exact E.
    + eapply logged_trans; [exact E|]. eapply IH; eassumption.
Qed.

Lemma ClassType_unify_logged fuel rec this c typ us s us' :
  logs rec ->
  ClassType_unify fuel rec this c typ us = Some (s, us') -> logged us us'.
Proof.
  intros Hrec. unfold ClassType_unify.
  destruct (follow fuel (store us) typ) as [node|]; [|discriminate].
  destruct (as_class node) as [tc|].
  - destruct (_ && _); [apply Hrec|].
    destruct (_ && _).
    { destruct (generics c) as [|g0 ?]; [discriminate|].
      destruct (gtype g0); [apply Hrec|discriminate]. }
    destruct (negb _); [intros [= _ <-]; apply logged_refl|].
    destruct (negb _); [intros [= _ <-]; apply logged_refl|].
    destruct (unify_generics rec _ _ _ _) as [[[u|s1] us1]|] eqn:U;
      [| |discriminate]; intros [= _ <-];
      eapply unify_generics_logged; eassumption.
  - destruct (is_link typ); [apply Hrec|].
    intros [= _ <-]. apply logged_refl.
Qed.

Lemma FuncType_unify_logged fuel rec this c ast idx fg fp typ us s us' :
  logs rec ->
  FuncType_unify fuel rec this c ast idx fg fp typ us = Some (s, us') ->
  logged us us'.
Proof.
  intros Hrec. unfold FuncType_unify.
  destruct (same_object this typ); [intros [= _ <-]; apply logged_refl|].
  assert (Hfin : forall s1 us0 s0 us1,
    match ClassType_unify fuel rec this c typ us0 with
    | Some (s, us') => Some (if s =? -1 then s else s1 + s, us')
    | None => None
    end = Some (s0, us1) -> logged us0 us1).
  { intros s1 us0 s0 us1.
    destruct (ClassType_unify fuel rec this c typ us0) as [[x y]|] eqn:C;
      [|discriminate].
    intros [= _ <-]. eapply ClassType_unify_logged; eassumption. }
  destruct (follow fuel (store us) typ) as [node|]; [|discriminate].
  destruct node; try apply Hfin.
  destruct (_ || _); [intros [= _ <-]; apply logged_refl|].
  assert (Hap : forall s1 us0 s0 us1,
    (if negb (length fg =? length funcGenerics)%nat then None
     else match unify_generics rec fg funcGenerics s1 us0 with
          | Some (inl _, us') => Some (-1, us')
          | Some (inr s, us') =>
              match ClassType_unify fuel rec this c typ us' with
              | Some (s0, us'0) => Some (if s0 =? -1 then s0 else s + s0, us'0)
              | None => None
              end
          | None => None
          end) = Some (s0, us1) -> logged us0 us1).
  { intros s1 us0 s0 us1. destruct (negb _); [discriminate|].
    destruct (unify_generics rec fg funcGenerics s1 us0) as [[[u|x] us2]|] eqn:U;
      [| |discriminate].
    - intros [= _ <-]. eapply unify_generics_logged; eassumption.
    - intros H. eapply logged_trans.
      + eapply unify_generics_logged; eassumption.
      + eapply Hfin; exact H. }
  destruct fp as [p|]; [|apply Hap].
  destruct funcParent as [p'|]; [|apply Hap].
  destruct (rec p p' us) as [[s0 us0]|] eqn:R; [|discriminate].
  apply Hrec in R. destruct (s0 =? -1).
  - intros [= _ <-]. exact R.
  - intros H. eapply logged_trans; [exact R|]. eapply Hap; exact H.
Qed.

Lemma StaticType_unify_logged fuel rec this v typ us s us' :
  logs rec ->
  StaticType_unify fuel rec this v typ us = Some (s, us') -> logged us us'.
Proof.
  intros Hrec. unfold StaticType_unify.
  destruct (follow fuel (store us) typ) as [node|]; [|discriminate].
  destruct node; try (intros [= _ <-]; apply logged_refl). apply Hrec.
Qed.

Lemma bind_logged id other us :
  store us !! id = None ->
  logged us (mkUState (<[id := other]> (store us)) ((id, None) :: undoLog us)).
Proof.
  intros Hn. exists [(id, None)]. split; [reflexivity|].
  cbn. now apply delete_insert_id.
Qed.

Lemma LinkType_unify_logged fuel rec this typ us s us' :
  logs rec ->
  LinkType_unify fuel rec this typ us = Some (s, us') -> logged us us'.
Proof.
  intros Hrec. unfold LinkType_unify.
  destruct this; try (intros [= _ <-]; apply logged_refl); try apply Hrec.
  destruct (store us !! id) eqn:L; [apply Hrec|].
  destruct (follow fuel (store us) typ) as [other|]; [|discriminate].
  destruct other; try (intros [= _ <-]; now apply bind_logged).
  - destruct (id =? id0)%nat; intros [= _ <-];
      [apply logged_refl | now apply bind_logged].
  - destruct isStatic; intros [= _ <-];
      [now apply bind_logged | apply logged_refl].
Qed.

(** Every binding a unification makes is on the undo log, whether it
    succeeds or fails. *)
Lemma unify_logged fuel : logs (unify fuel).
Proof.
  induction fuel as [|n IH]; intros a b us s us' H; [discriminate|].
  cbn [unify] in H. destruct a.
  - eapply LinkType_unify_logged; eassumption.
  - eapply LinkType_unify_logged; eassumption.
  - eapply LinkType_unify_logged; eassumption.
  - eapply ClassType_unify_logged; eassumption.
  - eapply FuncType_unify_logged; eassumption.
  - eapply StaticType_unify_logged; eassumption.
Qed.

(** Unwinding the log of a unification that started on an empty log gives
    the type graph back. *)
Lemma undo_restores fuel a b st s us :
  unify fuel a b (mkUState st []) = Some (s, us) ->
  undo (undoLog us) (store us) = st.
Proof.
  intros H. apply unify_logged in H as (delta & L & U). cbn in *.
  rewrite app_nil_r in L. now rewrite L.
Qed.

End UndoLog.

(* --------------------------------------------------------------------- *)
(** ** The speculative probe [canCall]                                    *)
(* --------------------------------------------------------------------- *)
Section CanCallFacts.
Import Types Typecheck.
Variable wrapBody : Ty -> Ty -> gmap nat Ty -> Wrapped.
Variable fuel : nat.

Lemma probe_unify_fields callee argType e p p' :
  probe_unify wrapBody fuel callee argType e p = Some p' ->
  (score p' = score p \/ score p' = -1) /\ real_gi p' = real_gi p.
Proof.
  unfold probe_unify.
  destruct (wrapExpr wrapBody argType e callee (graph p)) as [t st|st].
  - destruct (unify fuel t e (mkUState st [])) as [[s us]|]; [|discriminate].
    destruct (0 <=? s); intros [= <-]; cbn; auto.
  - intros [= <-]. cbn. auto.
Qed.

Lemma probe_unify_rejects callee argType e p t st s us :
  wrapExpr wrapBody argType e callee (graph p) = WrapOk t st ->
  unify fuel t e (mkUState st []) = Some (s, us) -> s < 0 ->
  probe_unify wrapBody fuel callee argType e p =
    Some (set_graph (set_score p (-1)) (store us)).
Proof.
  intros W U Hs. unfold probe_unify. rewrite W, U.
  assert (E : (0 <=? s) = false) by (apply Z.leb_gt; lia).
  now rewrite E.
Qed.

Lemma probe_arg_fields fn callee args ai item p p' :
  probe_arg wrapBody fuel fn callee args ai item p = Some p' ->
  (score p' = score p \/ score p' = -1) /\
  real_gi p' = (real_gi p + bound_generic callee ai item)%nat.
Proof.
  unfold probe_arg, bound_generic.
  destruct (params callee !! ai) as [prm|]; [|discriminate].
  destruct (isValue prm) eqn:V; cbn [negb andb].
  - destruct (extractFuncArgType fuel (graph p) fn (mai p)) as [e|];
      [|discriminate].
    destruct (fst item) as [argType|].
    + destruct e as [e|]; [|discriminate].
      intros H. apply probe_unify_fields in H. cbn in H.
      destruct H as [H1 H2]. split; [exact H1|]. lia.
    + intros [= <-]. cbn. split; [auto|lia].
  - destruct (extractFuncGeneric fuel (graph p) fn (gi p)) as [e|];
      [|discriminate].
    destruct (fst item) as [argType|]; cbn.
    2:{ intros [= <-]. cbn. split; [auto|lia]. }
    try rewrite bool_decide_eq_true_2 by eauto.
    destruct e as [e|].
    2:{ intros [= <-]. cbn. split; [auto|lia]. }
    destruct (isStaticType fuel (graph p) e) as [[|]|]; [|intros [= <-]; cbn; split; [auto|lia]|discriminate].
    destruct (args !! snd item) as [a|]; [|discriminate].
    destruct (isStaticType fuel (graph p) (exprType a)) as [[|]|];
      [|intros [= <-]; cbn; split; [auto|lia]|discriminate].
    intros H. apply probe_unify_fields in H. cbn in H.
    destruct H as [H1 H2]. split; [exact H1|]. lia.
Qed.

Lemma canCall_loop_rejected fn callee args ai items p :
  score p = -1 ->
  canCall_loop wrapBody fuel fn callee args ai items p = Some p.
Proof. intros H. destruct items; cbn; [reflexivity|]. now rewrite H. Qed.

Lemma canCall_loop_app fn callee args pre : forall ai post p,
  canCall_loop wrapBody fuel fn callee args ai (pre ++ post) p =
  match canCall_loop wrapBody fuel fn callee args ai pre p with
  | Some p' => canCall_loop wrapBody fuel fn callee args (ai + length pre) post p'
  | None => None
  end.
Proof.
  induction pre as [|item pre IH]; intros ai post p; cbn.
  - now rewrite Nat.add_0_r.
  - destruct (score p =? -1) eqn:E.
    + apply Z.eqb_eq in E. symmetry. now apply canCall_loop_rejected.
    + destruct (probe_arg wrapBody fuel fn callee args ai item p) as [p'|];
        [|reflexivity].
      rewrite IH. now replace (S ai + length pre)%nat with (ai + S (length pre))%nat by lia.
Qed.

Lemma canCall_loop_fields fn callee args items : forall ai p p',
  canCall_loop wrapBody fuel fn callee args ai items p = Some p' ->
  (score p' = score p /\
   real_gi p' = (real_gi p + bound_generics callee ai items)%nat) \/
  score p' = -1.
Proof.
  induction items as [|item rest IH]; intros ai p p'; cbn.
  - intros [= <-]. left. split; [reflexivity|lia].
  - destruct (score p =? -1) eqn:E.
    + intros [= <-]. right. now apply Z.eqb_eq.
    + destruct (probe_arg wrapBody fuel fn callee args ai item p) as [p1|] eqn:P;
        [|discriminate].
      intros H. apply probe_arg_fields in P as [[S1|S1] R1].
      * destruct (IH _ _ _ H) as [[S2 R2]|S2]; [left|now right].
        split; [congruence|lia].
      * rewrite (canCall_loop_rejected _ _ _ _ _ _ S1) in H.
        injection H as <-. now right.
Qed.

End CanCallFacts.

Section CanCallAccepted.
Import Types Typecheck.
Variable wrapBody : Ty -> Ty -> gmap nat Ty -> Wrapped.
Variable fuel : nat.
Variables (addr : nat) (c : ClassFields Ty) (callee : FunctionStmt) (idx : nat).
Variables (fg : list (Generic Ty)) (fp : option Ty).
Variables (g0 : Generic Ty) (gs : list (Generic Ty)) (k : nat) (tup : ClassFields Ty).
Variable args : list CallArg.

Hypothesis Hgenerics : generics c = g0 :: gs.
Hypothesis Htuple : gtype g0 = Some (links k (ClassType tup)).
Hypothesis Hfuel : (k < fuel)%nat.

Local Abbreviation fn := (FuncType addr c callee idx fg fp).
Local Abbreviation accepted :=
  (accepts wrapBody fuel (generics tup) fg callee args).
Local Abbreviation rejected :=
  (rejects wrapBody fuel (generics tup) fg callee args).

Lemma follow_fn st : follow fuel st fn = Some fn.
Proof. destruct fuel as [|f]; [lia|reflexivity]. Qed.

Lemma extractFuncGeneric_fn st i :
  extractFuncGeneric fuel st fn i = gtype <$> fg !! i.
Proof. unfold extractFuncGeneric. now rewrite follow_fn. Qed.

Lemma extractFuncArgType_fn st i :
  extractFuncArgType fuel st fn i = gtype <$> generics tup !! i.
Proof.
  unfold extractFuncArgType, extractClassGeneric.
  rewrite follow_fn. cbn [as_class]. rewrite Hgenerics. cbn [lookup list_lookup].
  cbn. rewrite Htuple.
  rewrite (follow_links k fuel st (ClassType tup)) by (assumption || reflexivity).
  reflexivity.
Qed.

Lemma value_index_S ai prm :
  params callee !! ai = Some prm ->
  value_index callee (S ai) =
  (value_index callee ai + if isValue prm then 1 else 0)%nat.
Proof.
  intros H. unfold value_index. rewrite (take_S_r _ _ _ H).
  rewrite List.filter_app, length_app. cbn.
  destruct (isValue prm); reflexivity.
Qed.

Lemma generic_index_S ai prm :
  params callee !! ai = Some prm ->
  generic_index callee (S ai) =
  (generic_index callee ai + if isValue prm then 0 else 1)%nat.
Proof.
  intros H. unfold generic_index. rewrite (take_S_r _ _ _ H).
  rewrite List.filter_app, length_app. cbn.
  destruct (isValue prm); reflexivity.
Qed.

Lemma probe_unify_accepts argType e p :
  unifies wrapBody fuel callee argType e (graph p) ->
  probe_unify wrapBody fuel callee argType e p = Some p.
Proof.
  intros (t & s & us & W & U & Hs). unfold probe_unify. rewrite W, U.
  apply Z.leb_le in Hs. rewrite Hs.
  rewrite (undo_restores _ _ _ _ _ _ U). now destruct p.
Qed.

Lemma probe_unify_fails argType e p st' :
  fails_to_unify wrapBody fuel callee argType e (graph p) st' ->
  probe_unify wrapBody fuel callee argType e p =
  Some (set_graph (set_score p (-1)) st').
Proof.
  intros (t & st1 & s & us & W & U & Hs & ->).
  now apply (probe_unify_rejects wrapBody fuel callee argType e p t st1 s us).
Qed.

(** One turn of the loop on an accepted argument: only the counters
    move. *)
Lemma probe_arg_accepts ai item p :
  mai p = value_index callee ai -> gi p = generic_index callee ai ->
  accepted (graph p) ai item ->
  probe_arg wrapBody fuel fn callee args ai item p =
  Some (mkProbe (score p) (value_index callee (S ai)) (generic_index callee (S ai))
                (real_gi p + bound_generic callee ai item) (graph p)).
Proof.
  intros Hm Hg. unfold accepts, declared, probe_arg, bound_generic.
  destruct (params callee !! ai) as [prm|] eqn:Hprm; [|contradiction].
  rewrite (value_index_S ai prm Hprm), (generic_index_S ai prm Hprm).
  rewrite extractFuncArgType_fn, extractFuncGeneric_fn, Hm, Hg.
  destruct (isValue prm); cbn [negb andb].
  - destruct (generics tup !! value_index callee ai) as [g|]; [|contradiction].
    cbn [fmap option_fmap option_map].
    destruct (fst item) as [argType|].
    + destruct (gtype g) as [e|]; [|contradiction].
      intros Hu. rewrite probe_unify_accepts by exact Hu.
      cbn. repeat (try lia; f_equal).
    + intros _. cbn. repeat (try lia; f_equal).
  - destruct (fg !! generic_index callee ai) as [g|]; [|contradiction].
    cbn [fmap option_fmap option_map].
    destruct (fst item) as [argType|].
    2:{ intros _. cbn. repeat (try lia; f_equal). }
    rewrite bool_decide_eq_true_2 by eauto.
    destruct (gtype g) as [e|].
    2:{ intros _. cbn. repeat (try lia; f_equal). }
    cbn [graph].
    destruct (isStaticType fuel (graph p) e) as [[|]|]; [| |contradiction].
    + intros (a & Ha & Hs & Hu). rewrite Ha, Hs.
      rewrite probe_unify_accepts by exact Hu.
      cbn. repeat (try lia; f_equal).
    + intros _. cbn. repeat (try lia; f_equal).
Qed.

(** One turn of the loop on an argument whose unification fails. *)
Lemma probe_arg_rejects ai item p st' :
  mai p = value_index callee ai -> gi p = generic_index callee ai ->
  rejected (graph p) ai item st' ->
  exists p', probe_arg wrapBody fuel fn callee args ai item p = Some p' /\
             score p' = -1 /\ graph p' = st'.
Proof.
  intros Hm Hg. unfold rejects, declared, probe_arg.
  destruct (params callee !! ai) as [prm|] eqn:Hprm; [|contradiction].
  rewrite extractFuncArgType_fn, extractFuncGeneric_fn, Hm, Hg.
  destruct (isValue prm).
  - destruct (generics tup !! value_index callee ai) as [g|]; [|contradiction].
    cbn [fmap option_fmap option_map].
    destruct (gtype g) as [e|]; [|contradiction].
    destruct (fst item) as [argType|]; [|contradiction].
    intros Hf. rewrite (probe_unify_fails _ _ _ st') by exact Hf.
    eexists. split; [reflexivity|]. split; reflexivity.
  - destruct (fg !! generic_index callee ai) as [g|]; [|contradiction].
    cbn [fmap option_fmap option_map].
    destruct (gtype g) as [e|]; [|contradiction].
    destruct (fst item) as [argType|]; [|contradiction].
    cbn [graph].
    intros (He & a & Ha & [[Hs ->]|[Hs Hf]]); rewrite He, Ha, Hs.
    + eexists. split; [reflexivity|]. split; reflexivity.
    + rewrite (probe_unify_fails _ _ _ st') by exact Hf.
      eexists. split; [reflexivity|]. split; reflexivity.
Qed.

(** The loop over accepted arguments keeps the score and the graph, and
    counts the bound generics. *)
Lemma canCall_loop_accepts items : forall ai p,
  score p <> -1 ->
  mai p = value_index callee ai -> gi p = generic_index callee ai ->
  (forall i item, items !! i = Some item -> accepted (graph p) (ai + i) item) ->
  canCall_loop wrapBody fuel fn callee args ai items p =
  Some (mkProbe (score p) (value_index callee (ai + length items))
                (generic_index callee (ai + length items))
                (real_gi p + bound_generics callee ai items) (graph p)).
Proof.
  induction items as [|item rest IH]; intros ai p Hs Hm Hg Hall.
  - cbn. rewrite !Nat.add_0_r, <- Hm, <- Hg. now destruct p.
  - cbn [canCall_loop]. apply Z.eqb_neq in Hs as Hs'. rewrite Hs'.
    rewrite probe_arg_accepts; try assumption.
    2:{ specialize (Hall 0%nat item eq_refl). now rewrite Nat.add_0_r in Hall. }
    rewrite IH; cbn [score mai gi real_gi graph]; try reflexivity; try assumption.
    + cbn [length bound_generics].
      replace (S ai + length rest)%nat with (ai + S (length rest))%nat by lia.
      repeat (try lia; f_equal).
    + intros i it Hi. specialize (Hall (S i) it Hi).
      now replace (S ai + i)%nat with (ai + S i)%nat by lia.
Qed.

Lemma canCall_rejects reorder_score pre item post st st' :
  reorder_score <> -1 ->
  (forall i it, pre !! i = Some it -> accepted st i it) ->
  rejected st (length pre) item st' ->
  canCall wrapBody fuel fn args reorder_score (pre ++ item :: post) st =
  Some (-1, st').
Proof.
  intros Hs Hpre Hrej. unfold canCall.
  rewrite canCall_loop_app.
  rewrite canCall_loop_accepts; cbn [score mai gi real_gi graph];
    try assumption; try reflexivity.
  cbn [canCall_loop Nat.add score].
  apply Z.eqb_neq in Hs. rewrite Hs.
  edestruct (probe_arg_rejects (length pre) item) as (p' & -> & Hp & Hg);
    [| |exact Hrej|]; [reflexivity|reflexivity|].
  rewrite canCall_loop_rejected by exact Hp.
  rewrite Hp, Hg. reflexivity.
Qed.

Lemma canCall_accepts reorder_score reordered st :
  0 <= reorder_score ->
  (forall i item, reordered !! i = Some item -> accepted st i item) ->
  canCall wrapBody fuel fn args reorder_score reordered st =
  Some (reorder_score +
        (if (bound_generics callee 0 reordered =? length fg)%nat then 1 else 0),
        st).
Proof.
  intros Hs Hall. unfold canCall.
  rewrite canCall_loop_accepts; cbn [score mai gi real_gi graph];
    try assumption; try reflexivity; [|lia].
  apply Z.leb_le in Hs. rewrite Hs. reflexivity.
Qed.

End CanCallAccepted.

Section CanCallTheorems.
Import Types Typecheck.


End CanCallTheorems.

Section CanCallGraph.
Import Types Typecheck.
Variable wrapBody : Ty -> Ty -> gmap nat Ty -> Wrapped.
Variable fuel : nat.
Hypothesis Hwrap : graph_preserving wrapBody.

Lemma wrapExpr_graph t e callee st :
  match wrapExpr wrapBody t e callee st with
  | WrapOk _ st' => st' = st
  | WrapThrows st' => st' = st
  end.
Proof.
  unfold wrapExpr. destruct (hasAttribute callee no_argument_wrap);
    [reflexivity|apply Hwrap].
Qed.

Lemma probe_unify_graph callee argType e p p' :
  probe_unify wrapBody fuel callee argType e p = Some p' ->
  graph p' = graph p \/ score p' = -1.
Proof.
  unfold probe_unify. pose proof (wrapExpr_graph argType e callee (graph p)) as W.
  destruct (wrapExpr wrapBody argType e callee (graph p)) as [t st|st]; subst st.
  - destruct (unify fuel t e (mkUState (graph p) [])) as [[s us]|] eqn:U;
      [|discriminate].
    destruct (0 <=? s); intros [= <-]; cbn; [left|now right].
    eapply undo_restores; eassumption.
  - intros [= <-]. now right.
Qed.

Lemma probe_arg_graph fn callee args ai item p p' :
  probe_arg wrapBody fuel fn callee args ai item p = Some p' ->
  graph p' = graph p \/ score p' = -1.
Proof.
  unfold probe_arg.
  destruct (params callee !! ai) as [prm|]; [|discriminate].
  destruct (isValue prm).
  - destruct (extractFuncArgType fuel (graph p) fn (mai p)) as [e|];
      [|discriminate].
    destruct (fst item) as [argType|]; [|intros [= <-]; now left].
    destruct e as [e|]; [|discriminate].
    intros H. now apply probe_unify_graph in H.
  - destruct (extractFuncGeneric fuel (graph p) fn (gi p)) as [e|];
      [|discriminate].
    destruct (fst item) as [argType|]; cbn; [|intros [= <-]; now left].
    destruct e as [e|]; [|intros [= <-]; now left].
    destruct (isStaticType fuel (graph p) e) as [[|]|];
      [|intros [= <-]; now left|discriminate].
    destruct (args !! snd item) as [a|]; [|discriminate].
    destruct (isStaticType fuel (graph p) (exprType a)) as [[|]|];
      [|intros [= <-]; now right|discriminate].
    intros H. now apply probe_unify_graph in H.
Qed.

Lemma canCall_loop_graph fn callee args items : forall ai p p',
  canCall_loop wrapBody fuel fn callee args ai items p = Some p' ->
  graph p' = graph p \/ score p' = -1.
Proof.
  induction items as [|item rest IH]; intros ai p p'; cbn.
  - intros [= <-]. now left.
  - destruct (score p =? -1) eqn:E.
    + intros [= <-]. now left.
    + destruct (probe_arg wrapBody fuel fn callee args ai item p) as [p1|] eqn:P;
        [|discriminate].
      intros H. apply probe_arg_graph in P as [G1|S1].
      * destruct (IH _ _ _ H) as [G2|S2]; [left; congruence|now right].
      * rewrite (canCall_loop_rejected _ _ _ _ _ _ _ _ S1) in H.
        injection H as <-. now right.
Qed.

End CanCallGraph.

Section CanCallRestores.
Import Types Typecheck.

(** A probe that succeeds leaves the type graph as it found it, when the
    coercions of [wrapExpr] do: every unification of the probe is unwound
    through its undo log. *)
Theorem canCall_restores_on_success
  (wrapBody : Ty -> Ty -> gmap nat Ty -> Wrapped) (fuel : nat) (fn : Ty)
  (args : list CallArg) (reorder_score : Z)
  (reordered : list (option Ty * nat)) (st st' : gmap nat Ty) (sc : Z) :
  graph_preserving wrapBody ->
  canCall wrapBody fuel fn args reorder_score reordered st = Some (sc, st') ->
  0 <= sc ->
  st' = st.
Proof.
  intros Hwrap H Hsc. unfold canCall in H.
  destruct fn as [| | | |a c callee idx fg fp|]; try discriminate.
  destruct (canCall_loop wrapBody fuel (FuncType a c callee idx fg fp) callee
              args 0 reordered (mkProbe reorder_score 0 0 0 st)) as [p|] eqn:L;
    [|discriminate].
  injection H as Hs <-.
  apply (canCall_loop_graph wrapBody fuel Hwrap) in L as [G|S1]; [exact G|].
  rewrite S1 in Hs. cbn in Hs. lia.
Qed.

End CanCallRestores.

Section ProbeExamples.
Import Types Typecheck Examples.
Local Open Scope string_scope.

(** C2 (the code departs from it): probing [f(x)] fails at the second
    component of the pair, after the first has bound [?1] to [int]; the
    probe returns -1 and leaves that binding in the type graph, which it
    found empty. *)
Theorem canCall_keeps_binding_on_failure
  (wrapBody : Ty -> Ty -> gmap nat Ty -> Wrapped) :
  canCall wrapBody 6 takes_pair [mkCallArg "" pair_arg] 0
          [(Some pair_arg, 0%nat)] ∅
  = Some (-1, {[ 1%nat := int_class ]}) /\
  ({[ 1%nat := int_class ]} : gmap nat Ty) !! 1%nat <> (∅ : gmap nat Ty) !! 1%nat.
Proof.
  split.
  - vm_compute. reflexivity.
  - rewrite lookup_singleton_eq, lookup_empty. discriminate.
Qed.



Lemma ClassType_unify_spec_witness :
  unify 5 (list_of int_class) (list_of (Unbound 7 0 false)) (mkUState ∅ [])
  = Some (3 + sum_scores [0],
          mkUState {[ 7%nat := int_class ]} [(7%nat, None)]).
Proof.
  destruct (ClassType_unify_spec 3
              (mkClass "List" "List" [slot int_class] [] false)
              (mkClass "List" "List" [slot (Unbound 7 0 false)] [] false)
              (mkUState ∅ [])) as (_ & _ & _ & _ & H & _).
  apply H; [reflexivity|].
  eapply pairwise_cons; try reflexivity; [discriminate|]. apply pairwise_nil.
Defined.

Lemma canCall_restores_on_success_witness :
  canCall (fun t _ st => WrapOk t st) 6 takes_pair
          [mkCallArg "" (pair_of (Unbound 1 0 false) str_class)] 0
          [(Some (pair_of (Unbound 1 0 false) str_class), 0%nat)] ∅
  = Some (1, ∅) /\
  (∅ : gmap nat Ty) = ∅.
Proof.
  split; [vm_compute; reflexivity|].
  apply (canCall_restores_on_success (fun t _ st => WrapOk t st) 6 takes_pair
           [mkCallArg "" (pair_of (Unbound 1 0 false) str_class)] 0
           [(Some (pair_of (Unbound 1 0 false) str_class), 0%nat)] ∅ ∅ 1).
  - intros t e st. reflexivity.
  - vm_compute. reflexivity.
  - lia.
Defined.

End ProbeExamples.

(* --------------------------------------------------------------------- *)
(** ** The round trip [instantiate (generalize t)]: shape                 *)
(* --------------------------------------------------------------------- *)
Section CopyFacts.
Import Types Roundtrip.

Lemma slots_copy_mono (R R' : Ty -> Ty -> Prop) gs : forall gs',
  slots (fun t => forall r, R t r -> R' t r) gs ->
  slots_copy R gs gs' -> slots_copy R' gs gs'.
Proof.
  induction gs as [|g gs IH]; intros [|g' gs'] Hs H; cbn in *; try tauto.
  apply slots_cons in Hs as [Hg Hs].
  destruct H as (E1 & E2 & E3 & Ht & Hrest).
  repeat (split; [assumption|]). split; [|now apply IH].
  destruct (gtype g) as [t|], (gtype g') as [r|]; try tauto.
  now apply (Hg t).
Qed.

Lemma copy_mono L t : forall rho rho' r,
  rho ⊆ rho' -> copy rho L t r -> copy rho' L t r.
Proof.
  induction t as [x lvl st|x st|t IH|c Hg Hh|a c ast idx fg fp Hg Hh Hfg Hp|n v]
    using Ty_induction; intros rho rho' r Hsub; cbn [copy].
  - destruct (L <=? lvl)%nat; [|auto]. intros H. eapply lookup_weaken; eassumption.
  - intros H. eapply lookup_weaken; eassumption.
  - apply IH; assumption.
  - intros (c' & -> & N1 & N2 & N3 & G & H). exists c'. split; [reflexivity|].
    repeat (split; [assumption|]). split.
    + eapply slots_copy_mono; [|exact G]. intros g t Hin Ht r0. eapply (Hg g t); eassumption.
    + eapply slots_copy_mono; [|exact H]. intros g t Hin Ht r0. eapply (Hh g t); eassumption.
  - intros (a' & c' & fg' & fp' & -> & (N1 & N2 & N3 & G & H) & F & P).
    exists a', c', fg', fp'. split; [reflexivity|]. split; [|split].
    + repeat (split; [assumption|]). split.
      * eapply slots_copy_mono; [|exact G]. intros g t Hin Ht r0. eapply (Hg g t); eassumption.
      * eapply slots_copy_mono; [|exact H]. intros g t Hin Ht r0. eapply (Hh g t); eassumption.
    + eapply slots_copy_mono; [|exact F]. intros g t Hin Ht r0. eapply (Hfg g t); eassumption.
    + destruct fp as [p|], fp' as [p'|]; try tauto. eapply (Hp p eq_refl); eassumption.
  - auto.
Qed.

Lemma each_slot_cons (Q : Ty -> Prop) g gs :
  each_slot Q (g :: gs) <->
  (forall t, gtype g = Some t -> Q t) /\ each_slot Q gs.
Proof.
  cbn. destruct (gtype g) as [t|]; split.
  - intros [H1 H2]. split; [now intros t' [= <-]|exact H2].
  - intros [H1 H2]. split; [now apply H1|exact H2].
  - intros [_ H2]. split; [discriminate|exact H2].
  - intros [_ H2]. tauto.
Qed.

End CopyFacts.

Section RoundtripCopy.
Import Types Roundtrip.
Variable V : nat -> Prop.
Variables L n0 : nat.
Local Abbreviation cache_ok := (Roundtrip.cache_ok V L n0).
Local Abbreviation roundtrip_ok := (Roundtrip.roundtrip_ok V L n0).

Lemma copy_generic_id t : forall rho r x,
  generic_id L t = Some x -> copy rho L t r -> rho !! x = Some r.
Proof.
  induction t as [y lvl st|y st|t IH|c _ _|a c ast idx fg fp _ _ _ _|n v]
    using Ty_induction; intros rho r x; cbn [generic_id copy]; try discriminate.
  - destruct (L <=? lvl)%nat; [|discriminate]. now intros [= ->].
  - now intros [= ->].
  - intros H1 H2. eapply IH; eassumption.
Qed.

Lemma cache_ok_fresh s x st :
  cache_ok s -> V x -> cache s !! x = None ->
  cache_ok (mkIState (S (unboundCount s))
              (<[x := Unbound (unboundCount s) L st]> (cache s)) (heap s)).
Proof.
  intros [Hn [Hr Hi]] Hx Hnone. split; cbn; [lia|]. split.
  - intros x' v Hx' Hl. destruct (decide (x = x')) as [<-|Hne].
    + rewrite lookup_insert_eq in Hl. injection Hl as <-.
      exists (unboundCount s), st. split; [reflexivity|lia].
    + rewrite lookup_insert_ne in Hl by exact Hne.
      destruct (Hr x' v Hx' Hl) as (y & st' & -> & Hy).
      exists y, st'. split; [reflexivity|lia].
  - intros x1 x2 y st1 st2 H1 H2 L1 L2.
    destruct (decide (x = x1)) as [<-|N1], (decide (x = x2)) as [<-|N2];
      try reflexivity.
    + rewrite lookup_insert_eq in L1. injection L1 as <- _.
      rewrite lookup_insert_ne in L2 by exact N2.
      destruct (Hr x2 _ H2 L2) as (y' & st' & [= <- _] & Hy). lia.
    + rewrite lookup_insert_eq in L2. injection L2 as <- _.
      rewrite lookup_insert_ne in L1 by exact N1.
      destruct (Hr x1 _ H1 L1) as (y' & st' & [= <- _] & Hy). lia.
    + rewrite lookup_insert_ne in L1 by exact N1.
      rewrite lookup_insert_ne in L2 by exact N2.
      eapply Hi; eassumption.
Qed.

Lemma cache_ok_outside s k v :
  cache_ok s -> ~ V k ->
  cache_ok (mkIState (unboundCount s) (<[k := v]> (cache s)) (heap s)).
Proof.
  intros [Hn [Hr Hi]] Hk. split; cbn; [exact Hn|]. split.
  - intros x v' Hx Hl. rewrite lookup_insert_ne in Hl by (intros ->; tauto).
    eapply Hr; eassumption.
  - intros x1 x2 y st1 st2 H1 H2 L1 L2.
    rewrite lookup_insert_ne in L1 by (intros ->; tauto).
    rewrite lookup_insert_ne in L2 by (intros ->; tauto).
    eapply Hi; eassumption.
Qed.

Lemma cache_ok_heap s h :
  cache_ok s -> cache_ok (mkIState (unboundCount s) (cache s) h).
Proof. intros H. exact H. Qed.

Lemma instantiate_generic x st s r s' :
  cache_ok s -> V x ->
  instantiate L (GenericVar x st) s = (r, s') ->
  cache s' !! x = Some r /\ cache_ok s' /\ cache s ⊆ cache s'.
Proof.
  intros Hok Hx. cbn. destruct (cache s !! x) as [v|] eqn:E.
  - intros [= <- <-]. auto.
  - intros [= <- <-]. cbn. split; [apply lookup_insert_eq|]. split.
    + now apply cache_ok_fresh.
    + now apply insert_subseteq.
Qed.

(** [ClassType::generalize] then [ClassType::instantiate] on one list. *)
Lemma mapGenerics_roundtrip gs :
  slots roundtrip_ok gs ->
  each_slot (well_formed V n0 L) gs ->
  forall h s gs' h' rs s',
    cache_ok s ->
    mapGenerics (generalize L) gs h = (gs', h') ->
    mapGenerics (instantiate L) gs' s = (rs, s') ->
    slots_copy (copy (cache s') L) gs rs /\ cache_ok s' /\ cache s ⊆ cache s'.
Proof.
  induction gs as [|g gs IH]; intros Hs Hw h s gs' h' rs s' Hok.
  - cbn. intros [= <- <-]. cbn. intros [= <- <-]. cbn. auto.
  - apply slots_cons in Hs as [Hg Hs]. apply each_slot_cons in Hw as [Hwg Hw].
    cbn [mapGenerics]. destruct (gtype g) as [t|] eqn:Et.
    + destruct (generalize L t h) as [tg h1] eqn:G.
      destruct (mapGenerics (generalize L) gs h1) as [r1 h2] eqn:G1.
      intros [= <- <-]. cbn [mapGenerics gtype].
      destruct (instantiate L tg s) as [r s1] eqn:I.
      destruct (mapGenerics (instantiate L) r1 s1) as [rs1 s2] eqn:I1.
      intros [= <- <-].
      destruct (Hg t eq_refl (Hwg t eq_refl) h s tg h1 r s1 Hok G I)
        as (C & Hok1 & Sub1).
      destruct (IH Hs Hw h1 s1 r1 h2 rs1 s2 Hok1 G1 I1) as (C1 & Hok2 & Sub2).
      split; [|split; [exact Hok2|etransitivity; eassumption]].
      cbn. rewrite Et. repeat (split; [reflexivity|]).
      split; [|exact C1]. eapply copy_mono; eassumption.
    + destruct (mapGenerics (generalize L) gs h) as [r1 h2] eqn:G1.
      intros [= <- <-]. cbn [mapGenerics]. rewrite Et.
      destruct (mapGenerics (instantiate L) r1 s) as [rs1 s2] eqn:I1.
      intros [= <- <-].
      destruct (IH Hs Hw h s r1 h2 rs1 s2 Hok G1 I1) as (C1 & Hok2 & Sub2).
      split; [|split; assumption].
      cbn. rewrite Et. auto.
Qed.

(** [FuncType::generalize] then the loop of [FuncType::instantiate] on the
    function generics. *)
Lemma mapFuncGenerics_roundtrip gs :
  slots roundtrip_ok gs ->
  each_slot (well_formed V n0 L) gs ->
  Forall (fun g => forall ty, gtype g = Some ty ->
            generic_id L ty = Some (gid g) \/ ~ V (gid g)) gs ->
  forall h s gs' h' rs s',
    cache_ok s ->
    mapGenerics (generalize L) gs h = (gs', h') ->
    mapFuncGenerics (instantiate L) gs' s = (rs, s') ->
    slots_copy (copy (cache s') L) gs rs /\ cache_ok s' /\ cache s ⊆ cache s'.
Proof.
  induction gs as [|g gs IH]; intros Hs Hw Hid h s gs' h' rs s' Hok.
  - cbn. intros [= <- <-]. cbn. intros [= <- <-]. cbn. auto.
  - apply slots_cons in Hs as [Hg Hs]. apply each_slot_cons in Hw as [Hwg Hw].
    apply Forall_cons in Hid as [Hidg Hid].
    cbn [mapGenerics]. destruct (gtype g) as [t|] eqn:Et.
    + destruct (generalize L t h) as [tg h1] eqn:G.
      destruct (mapGenerics (generalize L) gs h1) as [r1 h2] eqn:G1.
      intros [= <- <-]. cbn [mapFuncGenerics gtype gid].
      destruct (instantiate L tg s) as [r s1] eqn:I.
      destruct (Hg t eq_refl (Hwg t eq_refl) h s tg h1 r s1 Hok G I)
        as (C & Hok1 & Sub1).
      set (s1' := match cache s1 !! gid g with
                  | Some _ => s1
                  | None => mkIState (unboundCount s1) (<[gid g := r]> (cache s1))
                                     (heap s1)
                  end).
      assert (Hs1' : cache_ok s1' /\ cache s1 ⊆ cache s1').
      { subst s1'. destruct (cache s1 !! gid g) as [v|] eqn:E; [auto|].
        split; [|now apply insert_subseteq].
        apply cache_ok_outside; [exact Hok1|].
        destruct (Hidg t eq_refl) as [Hx|Hx]; [|exact Hx].
        rewrite (copy_generic_id _ _ _ _ Hx C) in E. discriminate. }
      destruct Hs1' as [Hok1' Sub1'].
      destruct (mapFuncGenerics (instantiate L) r1 s1') as [rs1 s2] eqn:I1.
      intros [= <- <-].
      destruct (IH Hs Hw Hid h1 s1' r1 h2 rs1 s2 Hok1' G1 I1) as (C1 & Hok2 & Sub2).
      split; [|split; [exact Hok2|]].
      * cbn. rewrite Et. repeat (split; [reflexivity|]).
        split; [|exact C1]. eapply copy_mono; [|exact C].
        etransitivity; eassumption.
      * etransitivity; [exact Sub1|]. etransitivity; eassumption.
    + destruct (mapGenerics (generalize L) gs h) as [r1 h2] eqn:G1.
      intros [= <- <-]. cbn [mapFuncGenerics]. rewrite Et.
      destruct (mapFuncGenerics (instantiate L) r1 s) as [rs1 s2] eqn:I1.
      intros [= <- <-].
      destruct (IH Hs Hw Hid h s r1 h2 rs1 s2 Hok G1 I1) as (C1 & Hok2 & Sub2).
      split; [|split; assumption].
      cbn. rewrite Et. auto.
Qed.

Lemma class_roundtrip c :
  slots roundtrip_ok (generics c) -> slots roundtrip_ok (hiddenGenerics c) ->
  each_slot (well_formed V n0 L) (generics c) ->
  each_slot (well_formed V n0 L) (hiddenGenerics c) ->
  forall h s c1 h' c2 s',
    cache_ok s ->
    ClassType_generalize (generalize L) c h = (c1, h') ->
    ClassType_instantiate (instantiate L) c1 s = (c2, s') ->
    class_copy (copy (cache s') L) c c2 /\ cache_ok s' /\ cache s ⊆ cache s'.
Proof.
  intros Hg Hh Wg Wh h s c1 h' c2 s' Hok.
  unfold ClassType_generalize, ClassType_instantiate.
  destruct (mapGenerics (generalize L) (generics c) h) as [g1 h1] eqn:G1.
  destruct (mapGenerics (generalize L) (hiddenGenerics c) h1) as [g2 h2] eqn:G2.
  intros [= <- <-]. cbn [generics hiddenGenerics name niceName isTuple].
  destruct (mapGenerics (instantiate L) g1 s) as [r1 s1] eqn:I1.
  destruct (mapGenerics (instantiate L) g2 s1) as [r2 s2] eqn:I2.
  intros [= <- <-].
  destruct (mapGenerics_roundtrip _ Hg Wg _ _ _ _ _ _ Hok G1 I1) as (C1 & Hok1 & S1).
  destruct (mapGenerics_roundtrip _ Hh Wh _ _ _ _ _ _ Hok1 G2 I2) as (C2 & Hok2 & S2).
  split; [|split; [exact Hok2|etransitivity; eassumption]].
  unfold class_copy. cbn. repeat (split; [reflexivity|]). split; [|exact C2].
  eapply slots_copy_mono; [|exact C1].
  intros g t _ _ r0. now apply copy_mono.
Qed.

(** The round trip gives a copy under the cache it ends with, and keeps
    the cache a fresh renaming. *)
Lemma roundtrip_ok_all t : roundtrip_ok t.
Proof.
  induction t as [x lvl st|x st|t IH|c Hg Hh|a c ast idx fg fp Hg Hh Hfg Hp|n v]
    using Ty_induction; intros Hw h s g h' r s' Hok.
  - destruct Hw as [[Hx HV] _]. cbn [generalize LinkType_generalize copy].
    destruct (L <=? lvl)%nat eqn:E.
    + intros [= <- <-] I. apply Nat.leb_le in E.
      exact (instantiate_generic x st s r s' Hok (HV E) I).
    + intros [= <- <-]. cbn. intros [= <- <-]. auto.
  - destruct Hw as [[Hx HV] _]. cbn [generalize LinkType_generalize copy].
    intros [= <- <-] I. exact (instantiate_generic x st s r s' Hok HV I).
  - destruct Hw as [_ Hw]. cbn [generalize LinkType_generalize copy].
    intros G I. eapply IH; eassumption.
  - destruct Hw as [_ [Wg Wh]]. cbn [generalize].
    destruct (ClassType_generalize (generalize L) c h) as [c1 h1] eqn:G.
    intros [= <- <-]. cbn [instantiate].
    destruct (ClassType_instantiate (instantiate L) c1 s) as [c2 s2] eqn:I.
    intros [= <- <-].
    destruct (class_roundtrip c Hg Hh Wg Wh _ _ _ _ _ _ Hok G I) as (C & Hok2 & S).
    split; [|split; assumption]. cbn [copy]. exists c2. auto.
  - destruct Hw as [(_ & _ & Hid) (Wg & Wh & Wfg & Wp)]. cbn [generalize].
    destruct (mapGenerics (generalize L) fg h) as [g1 h1] eqn:G1.
    destruct (match fp with
              | Some p => let '(p', h0) := generalize L p h1 in (Some p', h0)
              | None => (None, h1)
              end) as [p1 h2] eqn:G2.
    destruct (ClassType_generalize (generalize L) c h2) as [c1 h3] eqn:G3.
    intros [= <- <-]. cbn [instantiate].
    destruct (mapFuncGenerics (instantiate L) g1 s) as [r1 s1] eqn:I1.
    destruct (match p1 with
              | Some p => let '(p', s0) := instantiate L p s1 in (Some p', s0)
              | None => (None, s1)
              end) as [p2 s2] eqn:I2.
    destruct (ClassType_instantiate (instantiate L) c1 s2) as [c2 s3] eqn:I3.
    intros [= <- <-]. cbn [cache unboundCount].
    destruct (mapFuncGenerics_roundtrip _ Hfg Wfg Hid _ _ _ _ _ _ Hok G1 I1)
      as (C1 & Hok1 & S1).
    assert (Hpar : match fp, p2 with
                   | Some p, Some p' => copy (cache s2) L p p'
                   | None, None => True
                   | _, _ => False
                   end /\ cache_ok s2 /\ cache s1 ⊆ cache s2).
    { destruct fp as [p|].
      - destruct (generalize L p h1) as [pg hp] eqn:Gp. injection G2 as <- <-.
        destruct (instantiate L pg s1) as [pr sp] eqn:Ip. injection I2 as <- <-.
        exact (Hp p eq_refl Wp _ _ _ _ _ _ Hok1 Gp Ip).
      - injection G2 as <- <-. injection I2 as <- <-. auto. }
    destruct Hpar as (C2 & Hok2 & S2).
    destruct (class_roundtrip c Hg Hh Wg Wh _ _ _ _ _ _ Hok2 G3 I3)
      as (C3 & Hok3 & S3).
    split; [|split].
    + cbn [copy]. exists (heap s3), c2, r1, p2. split; [reflexivity|].
      split; [exact C3|]. split.
      * eapply slots_copy_mono; [|exact C1].
        intros g0 t0 _ _ r0. apply copy_mono.
        etransitivity; eassumption.
      * destruct fp as [p|], p2 as [p'|]; try tauto.
        eapply copy_mono; eassumption.
    + exact Hok3.
    + etransitivity; [exact S1|]. etransitivity; eassumption.
  - cbn. intros [= <- <-]. cbn. intros [= <- <-]. auto.
Qed.

End RoundtripCopy.

(* --------------------------------------------------------------------- *)
(** ** The round trip: two fresh copies unify                             *)
(* --------------------------------------------------------------------- *)
Section CopiesUnify.
Import Types Roundtrip.
Variable V : nat -> Prop.
Variables L n0 lo1 hi1 lo2 hi2 : nat.
Variables rho1 rho2 : gmap nat Ty.
Hypothesis Hfresh1 : fresh_renaming V L lo1 hi1 rho1.
Hypothesis Hfresh2 : fresh_renaming V L lo2 hi2 rho2.
Hypothesis Hlo1 : (n0 <= lo1)%nat.
Hypothesis Hlo2 : (hi1 <= lo2)%nat.
Local Abbreviation paired := (Roundtrip.paired V L rho1 rho2).
Local Abbreviation copies_unify := (Roundtrip.copies_unify V L n0 rho1 rho2).

Lemma paired_unbound2 us x y st :
  paired us -> V x -> rho2 !! x = Some (Unbound y L st) -> store us !! y = None.
Proof.
  intros Hp Hx H2. destruct (store us !! y) as [T|] eqn:E; [|reflexivity].
  destruct (Hp y T E) as (x' & st1 & Hx' & H1 & _).
  destruct Hfresh1 as [R1 _]. destruct Hfresh2 as [R2 _].
  destruct (R1 x' _ Hx' H1) as (y1 & s1 & [= <- _] & B1).
  destruct (R2 x _ Hx H2) as (y2 & s2 & [= <- _] & B2). lia.
Qed.

Lemma paired_old us x :
  paired us -> (x < n0)%nat -> store us !! x = None.
Proof.
  intros Hp Hx. destruct (store us !! x) as [T|] eqn:E; [|reflexivity].
  destruct (Hp x T E) as (x' & st1 & Hx' & H1 & _).
  destruct Hfresh1 as [R1 _].
  destruct (R1 x' _ Hx' H1) as (y1 & s1 & [= <- _] & B1). lia.
Qed.

Lemma generic_copies_unify x r1 r2 us :
  V x -> rho1 !! x = Some r1 -> rho2 !! x = Some r2 -> paired us ->
  exists s us' n,
    0 <= s /\ paired us' /\
    forall fuel, (n <= fuel)%nat -> unify fuel r1 r2 us = Some (s, us').
Proof.
  intros Hx H1 H2 Hp.
  destruct Hfresh1 as [R1 I1]. destruct Hfresh2 as [R2 _].
  destruct (R1 x _ Hx H1) as (y1 & s1 & -> & B1).
  destruct (R2 x _ Hx H2) as (y2 & s2 & -> & B2).
  assert (N2 : store us !! y2 = None) by (eapply paired_unbound2; eassumption).
  assert (Ne : (y1 =? y2)%nat = false) by (apply Nat.eqb_neq; lia).
  destruct (store us !! y1) as [T|] eqn:E1.
  - destruct (Hp y1 T E1) as (x' & st1 & Hx' & H1' & H2').
    assert (x' = x) by (eapply I1; eassumption). subst x'.
    rewrite H2 in H2'. injection H2' as <-.
    exists 0, us, 3%nat. split; [lia|]. split; [exact Hp|].
    intros fuel Hf. destruct fuel as [|[|[|f]]]; try lia.
    cbn [unify LinkType_unify]. rewrite E1.
    cbn [unify LinkType_unify follow]. rewrite N2.
    now rewrite Nat.eqb_refl.
  - exists 0, (mkUState (<[y1 := Unbound y2 L s2]> (store us))
                        ((y1, None) :: undoLog us)), 2%nat.
    split; [lia|]. split.
    + intros y T. cbn. destruct (decide (y1 = y)) as [<-|Hne].
      * rewrite lookup_insert_eq. intros [= <-]. exists x, s1. auto.
      * rewrite lookup_insert_ne by exact Hne. apply Hp.
    + intros fuel Hf. destruct fuel as [|[|f]]; try lia.
      cbn [unify LinkType_unify]. rewrite E1. cbn [follow]. rewrite N2.
      now rewrite Ne.
Qed.

Lemma slots_copy_length (R : Ty -> Ty -> Prop) gs : forall gs',
  slots_copy R gs gs' -> length gs = length gs'.
Proof.
  induction gs as [|g gs IH]; intros [|g' gs']; cbn; try tauto.
  intros (_ & _ & _ & _ & H). f_equal. now apply IH.
Qed.

Lemma unify_generics_copies gs :
  slots copies_unify gs ->
  each_slot (well_formed V n0 L) gs -> no_null gs ->
  forall gs1 gs2 us,
    slots_copy (copy rho1 L) gs gs1 -> slots_copy (copy rho2 L) gs gs2 ->
    paired us ->
    exists ss us' n,
      0 <= ss /\ paired us' /\
      forall fuel s1, (n <= fuel)%nat ->
        unify_generics (unify fuel) gs1 gs2 s1 us = Some (inr (s1 + ss), us').
Proof.
  induction gs as [|g gs IH]; intros Hs Hw Hn [|g1 gs1] [|g2 gs2] us C1 C2 Hp;
    cbn in C1, C2; try tauto.
  - exists 0, us, 0%nat. split; [lia|]. split; [exact Hp|].
    intros fuel s1 _. cbn. now rewrite Z.add_0_r.
  - apply slots_cons in Hs as [Hg Hs]. apply each_slot_cons in Hw as [Hwg Hw].
    apply Forall_cons in Hn as [Hng Hn].
    destruct C1 as (_ & _ & _ & T1 & C1). destruct C2 as (_ & _ & _ & T2 & C2).
    destruct (gtype g) as [t|] eqn:Et; [|congruence].
    destruct (gtype g1) as [t1|] eqn:Et1; [|tauto].
    destruct (gtype g2) as [t2|] eqn:Et2; [|tauto].
    destruct (Hg t eq_refl (Hwg t eq_refl) t1 t2 us T1 T2 Hp)
      as (s & us1 & n1 & Hs0 & Hp1 & Hu).
    destruct (IH Hs Hw Hn gs1 gs2 us1 C1 C2 Hp1)
      as (ss & us2 & n2 & Hss & Hp2 & Hrest).
    exists (s + ss), us2, (Nat.max n1 n2). split; [lia|]. split; [exact Hp2|].
    intros fuel s1 Hf. cbn. rewrite Et1, Et2. rewrite (Hu fuel) by lia.
    assert (E : (s =? -1) = false) by (apply Z.eqb_neq; lia).
    rewrite E. rewrite (Hrest fuel (s1 + s)) by lia.
    replace (s1 + s + ss) with (s1 + (s + ss)) by lia. reflexivity.
Qed.

Lemma class_copies_unify c :
  slots copies_unify (generics c) ->
  each_slot (well_formed V n0 L) (generics c) -> no_null (generics c) ->
  forall this c1 r2 c2 us,
    class_copy (copy rho1 L) c c1 -> class_copy (copy rho2 L) c c2 ->
    is_link r2 = false -> as_class r2 = Some c2 ->
    paired us ->
    exists ss us' n,
      0 <= ss /\ paired us' /\
      forall fuel, (n <= fuel)%nat ->
        ClassType_unify fuel (unify fuel) this c1 r2 us = Some (3 + ss, us').
Proof.
  intros Hs Hw Hn this c1 r2 c2 us (N1 & _ & _ & G1 & _) (N2 & _ & _ & G2 & _)
         Hl Hc Hp.
  destruct (unify_generics_copies _ Hs Hw Hn _ _ us G1 G2 Hp)
    as (ss & us' & n & Hss & Hp' & Hu).
  exists ss, us', (S n). split; [exact Hss|]. split; [exact Hp'|].
  intros fuel Hf. unfold ClassType_unify.
  assert (F : follow fuel (store us) r2 = Some r2)
    by (apply (follow_links 0); [lia|exact Hl]).
  rewrite F, Hc. rewrite <- N1, <- N2.
  destruct (String.eqb (name c) "int" && String.eqb (name c) "Int") eqn:C1.
  { apply andb_true_iff in C1 as [X Y]. apply String.eqb_eq in X, Y.
    rewrite X in Y. discriminate. }
  rewrite String.eqb_refl.
  rewrite <- (slots_copy_length _ _ _ G1), <- (slots_copy_length _ _ _ G2).
  rewrite Nat.eqb_refl. cbn [negb]. rewrite Hu by lia. reflexivity.
Qed.

Lemma copies_unify_all t : copies_unify t.
Proof.
  induction t as [x lvl st|x st|t IH|c Hg Hh|a c ast idx fg fp Hg Hh Hfg Hpar|n v]
    using Ty_induction; intros Hw r1 r2 us C1 C2 Hp.
  - destruct Hw as [[Hx HV] _]. cbn [copy] in C1, C2.
    destruct (L <=? lvl)%nat eqn:E.
    + apply Nat.leb_le in E. eapply generic_copies_unify; eauto.
    + subst r1 r2. exists 0, us, 2%nat. split; [lia|]. split; [exact Hp|].
      intros fuel Hf. destruct fuel as [|[|f]]; try lia.
      cbn [unify LinkType_unify follow].
      rewrite (paired_old us x Hp Hx). now rewrite Nat.eqb_refl.
  - destruct Hw as [[Hx HV] _]. cbn [copy] in C1, C2.
    eapply generic_copies_unify; eauto.
  - destruct Hw as [_ Hw]. cbn [copy] in C1, C2. eapply IH; eassumption.
  - destruct Hw as [Hn [Wg Wh]]. cbn [copy] in C1, C2. cbn in Hn.
    destruct C1 as (c1 & -> & C1). destruct C2 as (c2 & -> & C2).
    destruct (class_copies_unify c Hg Wg Hn (ClassType c1) c1 (ClassType c2) c2 us
                C1 C2 eq_refl eq_refl Hp) as (ss & us' & n & Hss & Hp' & Hu).
    exists (3 + ss), us', (S n). split; [lia|]. split; [exact Hp'|].
    intros fuel Hf. destruct fuel as [|f]; [lia|]. cbn [unify].
    apply Hu. lia.
  - destruct Hw as [(Hn & Hnf & _) (Wg & Wh & Wfg & Wp)].
    cbn [copy] in C1, C2.
    destruct C1 as (a1 & c1 & fg1 & fp1 & -> & C1 & F1 & P1).
    destruct C2 as (a2 & c2 & fg2 & fp2 & -> & C2 & F2 & P2).
    destruct (a1 =? a2)%nat eqn:Ea.
    { exists 0, us, 1%nat. split; [lia|]. split; [exact Hp|].
      intros fuel Hf. destruct fuel as [|f]; [lia|]. cbn [unify].
      unfold FuncType_unify, same_object. now rewrite Ea. }
    assert (Hparent : exists ps us1 n1, 0 <= ps /\ paired us1 /\
              forall fuel, (n1 <= fuel)%nat ->
                match fp1, fp2 with
                | Some p1, Some p2 =>
                    unify fuel p1 p2 us = Some (ps, us1)
                | None, None => ps = 0 /\ us1 = us
                | _, _ => False
                end).
    { destruct fp as [p|], fp1 as [p1|], fp2 as [p2|]; try tauto.
      - destruct (Hpar p eq_refl Wp p1 p2 us P1 P2 Hp)
          as (ps & us1 & n1 & H0 & H1 & H2).
        exists ps, us1, n1. auto.
      - exists 0, us, 0%nat. split; [lia|]. split; [exact Hp|]. auto. }
    destruct Hparent as (ps & us1 & n1 & Hps & Hp1 & Hpu).
    destruct (unify_generics_copies _ Hfg Wfg Hnf _ _ us1 F1 F2 Hp1)
      as (fs & us2 & n2 & Hfs & Hp2 & Hfu).
    destruct (class_copies_unify c Hg Wg Hn
                (FuncType a1 c1 ast idx fg1 fp1) c1
                (FuncType a2 c2 ast idx fg2 fp2) c2 us2
                C1 C2 eq_refl eq_refl Hp2) as (ss & us3 & n3 & Hss & Hp3 & Hcu).
    exists (2 + ps + fs + (3 + ss)), us3,
           (S (S (Nat.max n1 (Nat.max n2 n3)))).
    split; [lia|]. split; [exact Hp3|].
    intros fuel Hf. destruct fuel as [|f]; [lia|]. cbn [unify].
    unfold FuncType_unify. cbn [same_object]. rewrite Ea.
    assert (F : follow f (store us) (FuncType a2 c2 ast idx fg2 fp2)
                = Some (FuncType a2 c2 ast idx fg2 fp2))
      by (apply (follow_links 0); [lia|reflexivity]).
    rewrite F. rewrite String.eqb_refl, Nat.eqb_refl. cbn [negb orb].
    assert (E3 : (3 + ss =? -1) = false) by (apply Z.eqb_neq; lia).
    rewrite <- (slots_copy_length _ _ _ F1), <- (slots_copy_length _ _ _ F2).
    rewrite Nat.eqb_refl. cbn [negb].
    specialize (Hpu f). specialize (Hfu f). specialize (Hcu f).
    destruct fp1 as [p1|], fp2 as [p2|].
    + cbn. rewrite Hpu by lia.
      assert (E : (ps =? -1) = false) by (apply Z.eqb_neq; lia).
      rewrite E. rewrite Hfu by lia. rewrite Hcu by lia. rewrite E3.
      reflexivity.
    + exfalso. apply Hpu. lia.
    + exfalso. apply Hpu. lia.
    + destruct Hpu as [-> ->]; [lia|]. cbn.
      rewrite Hfu by lia. rewrite Hcu by lia. rewrite E3.
      reflexivity.
  - cbn [copy] in C1, C2. subst r1 r2.
    exists 0, us, 2%nat. split; [lia|]. split; [exact Hp|].
    intros fuel Hf. destruct fuel as [|[|f]]; try lia.
    cbn [unify]. unfold StaticType_unify. cbn [follow].
    now rewrite static_eqb_refl.
Qed.

End CopiesUnify.

(* --------------------------------------------------------------------- *)
(** ** The round trip: the theorem                                        *)
(* --------------------------------------------------------------------- *)
Section RoundtripTheorem.
Import Types Roundtrip.

Lemma each_slot_impl (P Q : Ty -> Prop) gs :
  slots (fun t => P t -> Q t) gs -> each_slot P gs -> each_slot Q gs.
Proof.
  induction gs as [|g gs IH]; intros Hs H; [exact I|].
  apply slots_cons in Hs as [Hg Hs]. apply each_slot_cons in H as [H1 H2].
  apply each_slot_cons. split; [|now apply IH].
  intros t Ht. apply (Hg t Ht). now apply H1.
Qed.

Lemma every_impl (P Q : Ty -> Prop) t :
  (forall u, P u -> Q u) -> every P t -> every Q t.
Proof.
  intros HPQ.
  induction t as [x lvl st|x st|t IH|c Hg Hh|a c ast idx fg fp Hg Hh Hfg Hp|n v]
    using Ty_induction; cbn [every]; intros [H0 H]; (split; [now apply HPQ|]).
  - exact I.
  - exact I.
  - now apply IH.
  - destruct H as [H1 H2]. split; eapply each_slot_impl; eassumption.
  - destruct H as (H1 & H2 & H3 & H4).
    split; [eapply each_slot_impl; eassumption|].
    split; [eapply each_slot_impl; eassumption|].
    split; [eapply each_slot_impl; eassumption|].
    destruct fp as [p|]; [|exact I]. now apply (Hp p eq_refl).
  - exact I.
Qed.

Lemma well_formed_counter V n0 n1 L t :
  (n0 <= n1)%nat -> well_formed V n0 L t -> well_formed V n1 L t.
Proof.
  intros Hle. apply every_impl. intros u. destruct u; cbn; try tauto.
  - intros [H1 H2]. split; [lia|exact H2].
  - intros [H1 H2]. split; [lia|exact H2].
Qed.

Lemma cache_ok_start V L n0 h : cache_ok V L n0 (mkIState n0 ∅ h).
Proof.
  split; cbn; [lia|]. split.
  - intros x v _ H. rewrite lookup_empty in H. discriminate.
  - intros x x' y st st' _ _ H. rewrite lookup_empty in H. discriminate.
Qed.

Lemma roundtrip_copy V L n0 h0 t :
  well_formed V n0 L t ->
  copy (cache (snd (roundtrip L t n0 h0))) L t (fst (roundtrip L t n0 h0)) /\
  (n0 <= unboundCount (snd (roundtrip L t n0 h0)))%nat /\
  fresh_renaming V L n0 (unboundCount (snd (roundtrip L t n0 h0)))
    (cache (snd (roundtrip L t n0 h0))).
Proof.
  intros Hw. unfold roundtrip.
  destruct (generalize L t h0) as [g h1] eqn:G.
  destruct (instantiate L g (mkIState n0 ∅ h1)) as [r s] eqn:I. cbn [fst snd].
  destruct (roundtrip_ok_all V L n0 t Hw _ _ _ _ _ _ (cache_ok_start V L n0 h1) G I)
    as (C & [Hn Hf] & _).
  auto.
Qed.

(** C8 (as amended): for a type [t] that satisfies the invariants of its
    context, [instantiate(generalize(t, L), L, {})] is a copy of [t] under
    the cache it ends with, which renames the generic slots of [t] to
    fresh variables, one per slot id; and it unifies, with a score of at
    least 0, with every copy of [t] under a renaming to later variables,
    the result of a second round trip included. *)
Theorem roundtrip_fresh_copy (V : nat -> Prop) (L n0 h0 : nat) (t : Ty) :
  well_formed V n0 L t ->
  let r := fst (roundtrip L t n0 h0) in
  let s := snd (roundtrip L t n0 h0) in
  copy (cache s) L t r /\
  fresh_renaming V L n0 (unboundCount s) (cache s) /\
  (forall rho2 r2 hi2,
     fresh_renaming V L (unboundCount s) hi2 rho2 -> copy rho2 L t r2 ->
     exists sc us n,
       0 <= sc /\
       forall fuel, (n <= fuel)%nat ->
         unify fuel r r2 (mkUState ∅ []) = Some (sc, us)) /\
  (exists sc us n,
     0 <= sc /\
     forall fuel, (n <= fuel)%nat ->
       unify fuel r (fst (roundtrip L t (unboundCount s) (heap s)))
             (mkUState ∅ []) = Some (sc, us)).
Proof.
  intros Hw r s.
  destruct (roundtrip_copy V L n0 h0 t Hw) as (C & Hn & Hf).
  fold r in C. fold s in C, Hn, Hf.
  assert (Hunify : forall rho2 r2 hi2,
     fresh_renaming V L (unboundCount s) hi2 rho2 -> copy rho2 L t r2 ->
     exists sc us n,
       0 <= sc /\
       forall fuel, (n <= fuel)%nat ->
         unify fuel r r2 (mkUState ∅ []) = Some (sc, us)).
  { intros rho2 r2 hi2 Hf2 C2.
    assert (Hp : paired V L (cache s) rho2 (mkUState ∅ [])).
    { intros y T H. cbn in H. rewrite lookup_empty in H. discriminate. }
    destruct (copies_unify_all V L n0 n0 (unboundCount s) (unboundCount s) hi2
                (cache s) rho2 Hf Hf2 (Nat.le_refl _) (Nat.le_refl _)
                t Hw r r2 (mkUState ∅ []) C C2 Hp)
      as (sc & us & n & Hsc & _ & Hu).
    exists sc, us, n. auto. }
  split; [exact C|]. split; [exact Hf|]. split; [exact Hunify|].
  destruct (roundtrip_copy V L (unboundCount s) (heap s) t
              (well_formed_counter V n0 _ L t Hn Hw)) as (C2 & _ & Hf2).
  eapply Hunify; eassumption.
Qed.

End RoundtripTheorem.

Section RoundtripExamples.
Import Types Roundtrip Examples.
Local Open Scope string_scope.

Lemma id_type_well_formed : well_formed (fun x => x = 1%nat) 10 1 id_type.
Proof.
  unfold well_formed, id_type, tuple_of. cbn.
  repeat split; try lia; auto;
    repeat (apply Forall_cons; split); try apply Forall_nil;
    cbn; try discriminate; try (intros ty [= <-]; now left).
  all: repeat split; try lia; auto.
Qed.

Lemma roundtrip_fresh_copy_witness :
  copy (cache (snd (roundtrip 1 id_type 10 0))) 1 id_type
       (fst (roundtrip 1 id_type 10 0)) /\
  exists sc us n,
    0 <= sc /\
    forall fuel, (n <= fuel)%nat ->
      unify fuel (fst (roundtrip 1 id_type 10 0))
            (fst (roundtrip 1 id_type
                    (unboundCount (snd (roundtrip 1 id_type 10 0)))
                    (heap (snd (roundtrip 1 id_type 10 0)))))
            (mkUState ∅ []) = Some (sc, us).
Proof.
  destruct (roundtrip_fresh_copy (fun x => x = 1%nat) 1 10 0 id_type
              id_type_well_formed) as (C & _ & _ & U).
  split; [exact C|exact U].
Defined.

Lemma unify_null_slot fuel :
  unify fuel null_slot null_slot (mkUState ∅ []) = None.
Proof. destruct fuel as [|[|f]]; reflexivity. Qed.

(** C8, as first stated (every type), fails in two ways. For
    [slot_clash] the loop of [FuncType::instantiate] enters [int] in the
    cache under the slot id 5, and the parameter that was the generic 5
    comes back as [int]: no renaming of 5 to a variable makes the result
    a copy. For [null_slot] the round trip is the type itself, and
    unifying it with its copy dereferences the null slot: there is no
    score, whatever the fuel. *)
Lemma roundtrip_not_a_fresh_copy :
  fst (roundtrip 0 slot_clash 10 0) =
    FuncType 1
      (mkClass "Function" "Function"
         [slot (tuple_of [int_class]); slot int_class] [] false)
      (mkFunctionStmt "g" [mkParam "x" true] []) 0
      [mkGeneric "T" 5 (Some int_class) false] None /\
  ~ (exists rho y st,
       rho !! 5%nat = Some (Unbound y 0 st) /\
       copy rho 0 slot_clash (fst (roundtrip 0 slot_clash 10 0))) /\
  fst (roundtrip 0 null_slot 10 0) = null_slot /\
  (forall fuel,
     unify fuel (fst (roundtrip 0 null_slot 10 0))
           (fst (roundtrip 0 null_slot 10 0)) (mkUState ∅ []) = None).
Proof.
  assert (E : fst (roundtrip 0 slot_clash 10 0) =
    FuncType 1
      (mkClass "Function" "Function"
         [slot (tuple_of [int_class]); slot int_class] [] false)
      (mkFunctionStmt "g" [mkParam "x" true] []) 0
      [mkGeneric "T" 5 (Some int_class) false] None) by reflexivity.
  split; [exact E|]. split; [|split].
  - rewrite E. intros (rho & y & st & Hr & C).
    cbn in C. destruct C as (a' & c' & fg' & fp' & Eq & CC & _).
    injection Eq as <- <- <- <-.
    destruct CC as (_ & _ & _ & G & _). cbn in G.
    destruct G as (_ & _ & _ & (c2 & Eq2 & CC2) & _).
    injection Eq2 as <-.
    destruct CC2 as (_ & _ & _ & G2 & _). cbn in G2.
    destruct G2 as (_ & _ & _ & H5 & _).
    rewrite Hr in H5. discriminate.
  - reflexivity.
  - intros fuel. change (fst (roundtrip 0 null_slot 10 0)) with null_slot.
    apply unify_null_slot.
Qed.

End RoundtripExamples.

(* --------------------------------------------------------------------- *)
(** ** Static tuple indices and slices                                    *)
(* --------------------------------------------------------------------- *)
Section IndexFacts.
Import Op Index.

Lemma int64_in x : in_int64 x -> int64 x = Value x.
Proof. intros H. unfold int64. apply in_int64b_spec in H. now rewrite H. Qed.

Lemma int64_bounds x :
  - 9223372036854775808 <= x <= 9223372036854775807 -> int64 x = Value x.
Proof.
  intros H. apply int64_in. unfold in_int64, INT64_MIN, INT64_MAX.
  change (2 ^ 63) with 9223372036854775808. lia.
Qed.

Lemma in_int64_bounds x :
  in_int64 x <-> - 9223372036854775808 <= x <= 9223372036854775807.
Proof.
  unfold in_int64, INT64_MIN, INT64_MAX.
  change (2 ^ 63) with 9223372036854775808. lia.
Qed.

Lemma INT64_MAX_value : INT64_MAX = 9223372036854775807.
Proof. reflexivity. Qed.

Lemma INT64_MIN_value : INT64_MIN = - 9223372036854775808.
Proof. reflexivity. Qed.

End IndexFacts.

Ltac zbool :=
  rewrite ?Z.gtb_ltb, ?Z.geb_leb in *;
  repeat match goal with
  | |- context [?a <? ?b] => destruct (Z.ltb_spec a b)
  | |- context [?a <=? ?b] => destruct (Z.leb_spec a b)
  | |- context [?a =? ?b] => destruct (Z.eqb_spec a b)
  end; cbn [orb andb negb].

Section TranslateIndex.
Import Op Index.

(** [translateIndex] without clamping follows Python's indexing: for a
    length [len] it accepts exactly the indices from [-len] to [len - 1]
    and returns the position counted from the front; any other index
    raises TUPLE_RANGE_BOUNDS with the last valid position and the index
    after a negative one was shifted by [len]. *)
Theorem translateIndex_spec (idx len : Z) :
  in_int64 idx -> 0 <= len <= INT64_MAX ->
  (- len <= idx < len ->
   translateIndex idx len false = Value (idx mod len)) /\
  (~ (- len <= idx < len) ->
   translateIndex idx len false =
     Raise (TUPLE_RANGE_BOUNDS (len - 1) (if idx <? 0 then idx + len else idx))).
Proof.
  intros Hi Hl. apply (proj1 (in_int64_bounds _)) in Hi. rewrite INT64_MAX_value in Hl.
  unfold translateIndex. split; intros H.
  - destruct (Z.ltb_spec idx 0) as [N|N].
    + rewrite int64_bounds by lia. cbn [obind]. zbool; try lia.
      f_equal. apply Z.mod_unique with (q := -1); lia.
    + cbn [obind]. zbool; try lia.
      f_equal. symmetry. apply Z.mod_small. lia.
  - destruct (Z.ltb_spec idx 0) as [N|N].
    + rewrite int64_bounds by lia. cbn [obind]. zbool; try lia;
        rewrite int64_bounds by lia; reflexivity.
    + cbn [obind]. zbool; try lia. rewrite int64_bounds by lia. reflexivity.
Qed.

(** With clamping [translateIndex] never raises an error: the result lies
    between 0 and [len], both included; it is the position of an index
    that is in range, 0 for an index below [-len] and [len] for one from
    [len] on. *)
Theorem translateIndex_clamp (idx len : Z) :
  in_int64 idx -> 0 <= len <= INT64_MAX ->
  exists r,
    translateIndex idx len true = Value r /\
    0 <= r <= len /\
    (- len <= idx < len -> r = idx mod len) /\
    (idx < - len -> r = 0) /\
    (len <= idx -> r = len).
Proof.
  intros Hi Hl. apply (proj1 (in_int64_bounds _)) in Hi. rewrite INT64_MAX_value in Hl.
  unfold translateIndex.
  destruct (Z.ltb_spec idx 0) as [N|N].
  - rewrite int64_bounds by lia. cbn [obind]. cbv zeta.
    eexists. split; [reflexivity|].
    destruct (Z.ltb_spec (idx + len) 0) as [A|A]; rewrite Z.gtb_ltb;
      [destruct (Z.ltb_spec len 0) as [B|B]
      |destruct (Z.ltb_spec len (idx + len)) as [B|B]];
      repeat split; try lia.
    intros Hr. apply Z.mod_unique with (q := -1); lia.
  - cbn [obind]. cbv zeta. eexists. split; [reflexivity|].
    destruct (Z.ltb_spec idx 0) as [A|A]; [lia|]. rewrite Z.gtb_ltb.
    destruct (Z.ltb_spec len idx) as [B|B]; repeat split; try lia.
    intros Hr. symmetry. apply Z.mod_small. lia.
Qed.

End TranslateIndex.

Section SliceFacts.
Import Op Index.

Lemma adjust_spec length x step :
  0 <= length <= INT64_MAX -> in_int64 x -> step <> 0 ->
  exists x',
    adjust length x step = Value x' /\
    (0 < step -> 0 <= x' <= length) /\
    (step < 0 -> -1 <= x' <= length - 1) /\
    (0 <= x < length -> x' = x) /\
    (- length <= x < 0 -> x' = x + length).
Proof.
  intros Hl Hx Hs. apply (proj1 (in_int64_bounds _)) in Hx.
  rewrite INT64_MAX_value in Hl. unfold adjust.
  destruct (Z.ltb_spec x 0) as [A|A].
  - rewrite int64_bounds by lia. cbn [obind].
    destruct (Z.ltb_spec (x + length) 0) as [B|B];
      [destruct (Z.ltb_spec step 0) as [C|C]|];
      eexists; (split; [reflexivity|]); repeat split; lia.
  - rewrite Z.geb_leb. destruct (Z.leb_spec length x) as [B|B].
    + destruct (Z.ltb_spec step 0) as [C|C].
      * rewrite int64_bounds by lia. eexists. split; [reflexivity|].
        repeat split; lia.
      * eexists. split; [reflexivity|]. repeat split; lia.
    + eexists. split; [reflexivity|]. repeat split; lia.
Qed.

Lemma count_up a step k :
  0 <= a -> 0 < step -> 0 <= k -> (k < a / step + 1 <-> k * step <= a).
Proof.
  intros Ha Hs Hk.
  pose proof (Z.div_mod a step ltac:(lia)) as E.
  pose proof (Z.mod_pos_bound a step Hs) as R.
  set (q := a / step) in *. set (r := a mod step) in *. clearbody q r.
  split; intros H; nia.
Qed.

Lemma count_bound a step :
  0 <= a -> 0 < step -> 0 <= a / step <= a.
Proof.
  intros Ha Hs. split; [apply Z.div_pos; lia|].
  pose proof (Z.div_mod a step ltac:(lia)) as E.
  pose proof (Z.mod_pos_bound a step Hs) as R.
  assert (0 <= a / step) by (apply Z.div_pos; lia).
  set (q := a / step) in *. set (r := a mod step) in *. clearbody q r. nia.
Qed.

Lemma in_slice_up stop step i :
  0 < step -> (in_slice stop step i = true <-> i < stop).
Proof.
  intros H. unfold in_slice. rewrite Z.gtb_ltb.
  destruct (Z.ltb_spec 0 step); [|lia]. apply Z.ltb_lt.
Qed.

Lemma in_slice_down stop step i :
  step < 0 -> (in_slice stop step i = true <-> stop < i).
Proof.
  intros H. unfold in_slice. rewrite !Z.gtb_ltb.
  destruct (Z.ltb_spec 0 step); [lia|]. apply Z.ltb_lt.
Qed.

End SliceFacts.

Section SliceAdjust.
Import Op Index.

Lemma sliceAdjustIndices_value (length start stop step : Z) :
  0 <= length <= INT64_MAX -> in_int64 start -> in_int64 stop ->
  in_int64 step ->
  (step = 0 -> sliceAdjustIndices length start stop step = Raise SLICE_STEP_ZERO) /\
  (step <> 0 -> INT64_MIN < step ->
   exists n start' stop',
     sliceAdjustIndices length start stop step = Value (n, start', stop') /\
     (0 < step -> 0 <= start' <= length /\ 0 <= stop' <= length) /\
     (step < 0 -> -1 <= start' <= length - 1 /\ -1 <= stop' <= length - 1) /\
     0 <= n <= length /\
     forall k, 0 <= k ->
       (k < n <-> in_slice stop' step (start' + k * step) = true)).
Proof.
  intros Hl Hstart Hstop Hstep. split.
  - intros ->. reflexivity.
  - intros Hs Hmin.
    destruct (adjust_spec length start step Hl Hstart Hs)
      as (s1 & E1 & U1 & D1 & _).
    destruct (adjust_spec length stop step Hl Hstop Hs)
      as (s2 & E2 & U2 & D2 & _).
    apply (proj1 (in_int64_bounds _)) in Hstep.
    rewrite INT64_MAX_value in Hl. rewrite INT64_MIN_value in Hmin.
    unfold sliceAdjustIndices.
    destruct (Z.eqb_spec step 0) as [|_]; [contradiction|].
    rewrite E1, E2. cbn [obind].
    destruct (Z.ltb_spec step 0) as [Neg|Pos].
    + specialize (D1 Neg). specialize (D2 Neg).
      destruct (Z.ltb_spec s2 s1) as [Lt|Ge].
      * rewrite (int64_bounds (s1 - s2)) by lia. cbn [obind].
        rewrite (int64_bounds (s1 - s2 - 1)) by lia. cbn [obind].
        rewrite (int64_bounds (- step)) by lia. cbn [obind].
        unfold div64. destruct (Z.eqb_spec (- step) 0) as [|_]; [lia|].
        rewrite Z.quot_div_nonneg by lia.
        pose proof (count_bound (s1 - s2 - 1) (- step) ltac:(lia) ltac:(lia)) as B.
        rewrite (int64_bounds ((s1 - s2 - 1) / - step)) by lia. cbn [obind].
        rewrite int64_bounds by lia. cbn [obind].
        eexists _, _, _. split; [reflexivity|].
        split; [lia|]. split; [auto|]. split; [lia|].
        intros k Hk. rewrite in_slice_down by lia.
        rewrite count_up by lia. nia.
      * eexists _, _, _. split; [reflexivity|].
        split; [lia|]. split; [auto|]. split; [lia|].
        intros k Hk. rewrite in_slice_down by lia. nia.
    + assert (Pos' : 0 < step) by lia.
      specialize (U1 Pos'). specialize (U2 Pos').
      destruct (Z.ltb_spec s1 s2) as [Lt|Ge].
      * rewrite (int64_bounds (s2 - s1)) by lia. cbn [obind].
        rewrite (int64_bounds (s2 - s1 - 1)) by lia. cbn [obind].
        unfold div64. destruct (Z.eqb_spec step 0) as [|_]; [lia|].
        rewrite Z.quot_div_nonneg by lia.
        pose proof (count_bound (s2 - s1 - 1) step ltac:(lia) ltac:(lia)) as B.
        rewrite (int64_bounds ((s2 - s1 - 1) / step)) by lia. cbn [obind].
        rewrite int64_bounds by lia. cbn [obind].
        eexists _, _, _. split; [reflexivity|].
        split; [auto|]. split; [lia|]. split; [lia|].
        intros k Hk. rewrite in_slice_up by lia.
        rewrite count_up by lia. nia.
      * eexists _, _, _. split; [reflexivity|].
        split; [auto|]. split; [lia|]. split; [lia|].
        intros k Hk. rewrite in_slice_up by lia. nia.
Qed.



End SliceAdjust.

Section SliceLoop.
Import Op Index.

Lemma positions_cons first step n :
  positions first step (S n) = first :: positions (first + step) step n.
Proof.
  unfold positions. cbn [seq map]. f_equal; [lia|].
  rewrite <- seq_shift, map_map. apply map_ext. intros k. lia.
Qed.

Lemma slice_loop_run sz stop step : forall n fuel first,
  (n < fuel)%nat ->
  (forall k, (k < n)%nat ->
     in_slice stop step (first + Z.of_nat k * step) = true /\
     0 <= first + Z.of_nat k * step < sz /\
     in_int64 (first + Z.of_nat (S k) * step)) ->
  in_slice stop step (first + Z.of_nat n * step) = false ->
  slice_loop fuel sz first stop step = Some (Value (positions first step n)).
Proof.
  induction n as [|n IH]; intros fuel first Hf Hin Hout.
  - destruct fuel as [|fuel]; [lia|]. cbn [slice_loop].
    replace (first + Z.of_nat 0 * step) with first in Hout by lia.
    now rewrite Hout.
  - destruct fuel as [|fuel]; [lia|]. cbn [slice_loop].
    destruct (Hin 0%nat ltac:(lia)) as (G & B & N).
    replace (first + Z.of_nat 0 * step) with first in G, B by lia.
    replace (first + Z.of_nat 1 * step) with (first + step) in N by lia.
    rewrite G. rewrite Z.geb_leb.
    destruct (Z.ltb_spec first 0); [lia|].
    destruct (Z.leb_spec sz first); [lia|]. cbn [orb].
    rewrite (int64_in _ N).
    rewrite (IH fuel (first + step)).
    + now rewrite positions_cons.
    + lia.
    + intros k Hk. destruct (Hin (S k) ltac:(lia)) as (G' & B' & N').
      replace (first + step + Z.of_nat k * step)
        with (first + Z.of_nat (S k) * step) by lia.
      replace (first + step + Z.of_nat (S k) * step)
        with (first + Z.of_nat (S (S k)) * step) by lia.
      auto.
    + replace (first + step + Z.of_nat n * step)
        with (first + Z.of_nat (S n) * step) by lia.
      exact Hout.
Qed.

Lemma static_part_getInt o p :
  static_part p -> in_int64 o -> exists v, getInt o p = Some v /\ in_int64 v.
Proof. destruct p; cbn; intros H Ho; [eauto|eauto|contradiction]. Qed.

Lemma slice_bounds_spec sz pstart pstop pstep start stop step :
  0 <= sz < INT64_MAX -> in_int64 start -> in_int64 stop ->
  exists start1 stop1,
    slice_bounds sz pstart pstop pstep start stop step = Value (start1, stop1) /\
    in_int64 start1 /\ in_int64 stop1.
Proof.
  intros Hsz Hs He. rewrite INT64_MAX_value in Hsz.
  unfold slice_bounds.
  destruct (present pstep && negb (present pstart)).
  - rewrite Z.gtb_ltb. destruct (Z.ltb_spec 0 step).
    + cbn [obind]. destruct (present pstep && negb (present pstop)).
      * cbn [obind]. eexists _, _. split; [reflexivity|].
        split; (assumption || (rewrite in_int64_bounds; lia)).
      * cbn [obind]. eexists _, _. split; [reflexivity|].
        split; (assumption || (rewrite in_int64_bounds; lia)).
    + rewrite int64_bounds by lia. cbn [obind].
      destruct (present pstep && negb (present pstop)).
      * rewrite (int64_bounds (sz + 1)) by lia. cbn [obind].
        rewrite int64_bounds by lia. cbn [obind].
        eexists _, _. split; [reflexivity|]. split; (assumption || (rewrite in_int64_bounds; lia)).
      * cbn [obind]. eexists _, _. split; [reflexivity|].
        split; (assumption || (rewrite in_int64_bounds; lia)).
  - cbn [obind]. destruct (present pstep && negb (present pstop)).
    + rewrite Z.gtb_ltb. destruct (Z.ltb_spec 0 step).
      * cbn [obind]. eexists _, _. split; [reflexivity|].
        split; (assumption || (rewrite in_int64_bounds; lia)).
      * rewrite (int64_bounds (sz + 1)) by lia. cbn [obind].
        rewrite int64_bounds by lia. cbn [obind].
        eexists _, _. split; [reflexivity|].
        split; (assumption || (rewrite in_int64_bounds; lia)).
    + cbn [obind]. eexists _, _. split; [reflexivity|]. auto.
Qed.

End SliceLoop.

Section TupleSlice.
Import Op Index.

Lemma tupleSlice_run (fuel : nat) (sz : Z) (pstart pstop pstep : SlicePart)
  (start stop step : Z) :
  0 <= sz -> static_part pstart -> static_part pstop -> static_part pstep ->
  getInt 0 pstart = Some start -> getInt sz pstop = Some stop ->
  getInt 1 pstep = Some step ->
  step <> 0 -> Z.abs step + sz <= INT64_MAX -> (Z.to_nat sz < fuel)%nat ->
  exists start1 stop1 n first stop2,
    slice_bounds sz pstart pstop pstep start stop step = Value (start1, stop1) /\
    sliceAdjustIndices sz start1 stop1 step = Value (Z.of_nat n, first, stop2) /\
    tupleSlice fuel sz pstart pstop pstep
      = Some (Value (Fields (positions first step n))) /\
    Forall (fun i => 0 <= i < sz) (positions first step n).
Proof.
  intros Hsz Pstart Pstop Pstep Gstart Gstop Gstep Hstep Habs Hfuel.
  assert (Hmax : INT64_MAX = 9223372036854775807) by reflexivity.
  assert (Isz : in_int64 sz) by (rewrite in_int64_bounds; lia).
  assert (I0 : in_int64 0) by (rewrite in_int64_bounds; lia).
  assert (I1 : in_int64 1) by (rewrite in_int64_bounds; lia).
  destruct (static_part_getInt 0 pstart Pstart I0) as (v1 & G1 & Istart).
  destruct (static_part_getInt sz pstop Pstop Isz) as (v2 & G2 & Istop).
  destruct (static_part_getInt 1 pstep Pstep I1) as (v3 & G3 & Istep).
  rewrite Gstart in G1. injection G1 as <-.
  rewrite Gstop in G2. injection G2 as <-.
  rewrite Gstep in G3. injection G3 as <-.
  destruct (slice_bounds_spec sz pstart pstop pstep start stop step
              ltac:(lia) Istart Istop) as (start1 & stop1 & EB & IB1 & IB2).
  destruct (sliceAdjustIndices_value sz start1 stop1 step ltac:(lia) IB1 IB2 Istep)
    as [_ HA].
  destruct (HA Hstep ltac:(rewrite INT64_MIN_value; lia))
    as (cnt & first & stop2 & EA & Up & Down & Hcnt & Hk).
  assert (Ecnt : cnt = Z.of_nat (Z.to_nat cnt)) by lia.
  assert (Hrange : forall k, (k < Z.to_nat cnt)%nat ->
            0 <= first + Z.of_nat k * step < sz).
  { intros k Hlt.
    assert (G : in_slice stop2 step (first + Z.of_nat k * step) = true)
      by (apply Hk; lia).
    destruct (Z.lt_total step 0) as [Neg|[Z0|Pos]]; [|lia|].
    - apply in_slice_down in G; [|exact Neg]. specialize (Down Neg). nia.
    - apply in_slice_up in G; [|exact Pos]. specialize (Up Pos). nia. }
  exists start1, stop1, (Z.to_nat cnt), first, stop2.
  split; [exact EB|]. split; [now rewrite <- Ecnt|]. split.
  - unfold tupleSlice. rewrite Gstart, Gstop, Gstep, EB. cbn [obind fst snd].
    rewrite EA. cbn [obind fst snd].
    rewrite (slice_loop_run sz stop2 step (Z.to_nat cnt) fuel first);
      [reflexivity|lia| |].
    + intros k Hlt. split; [apply Hk; lia|]. split; [now apply Hrange|].
      specialize (Hrange k Hlt). rewrite in_int64_bounds. lia.
    + destruct (in_slice stop2 step (first + Z.of_nat (Z.to_nat cnt) * step))
        eqn:G; [|reflexivity].
      apply Hk in G; lia.
  - unfold positions. apply List.Forall_forall. intros i Hi.
    apply in_map_iff in Hi as (k & <- & Hin). apply in_seq in Hin.
    apply Hrange. lia.
Qed.


(** A static slice of a tuple with [sz] fields, with a step that is not
    zero: the slice case selects the positions [first, first + step, ...],
    as many as [sliceAdjustIndices] counts; every one of them is a field
    of the tuple, so the bounds check in the loop never raises
    TUPLE_RANGE_BOUNDS. The bound on the step keeps [i += step] within
    64 bits. *)
Theorem tupleSlice_fields (fuel : nat) (sz : Z) (pstart pstop pstep : SlicePart)
  (start stop step : Z) :
  0 <= sz -> static_part pstart -> static_part pstop -> static_part pstep ->
  getInt 0 pstart = Some start -> getInt sz pstop = Some stop ->
  getInt 1 pstep = Some step ->
  step <> 0 -> Z.abs step + sz <= INT64_MAX -> (Z.to_nat sz < fuel)%nat ->
  exists start1 stop1 n first stop2,
    slice_bounds sz pstart pstop pstep start stop step = Value (start1, stop1) /\
    sliceAdjustIndices sz start1 stop1 step = Value (Z.of_nat n, first, stop2) /\
    tupleSlice fuel sz pstart pstop pstep
      = Some (Value (Fields (positions first step n))) /\
    Forall (fun i => 0 <= i < sz) (positions first step n).
Proof. apply tupleSlice_run. Qed.

Lemma sliceAdjustIndices_whole sz :
  0 <= sz < INT64_MAX -> sliceAdjustIndices sz 0 sz 1 = Value (sz, 0, sz).
Proof.
  intros H. rewrite INT64_MAX_value in H.
  unfold sliceAdjustIndices, adjust. cbn [Z.eqb Z.ltb Z.compare obind].
  rewrite !Z.geb_leb, Z.leb_refl.
  destruct (Z.ltb_spec sz 0); [lia|].
  destruct (Z.leb_spec sz 0) as [A|A]; cbn [obind].
  - assert (sz = 0) by lia. subst sz. reflexivity.
  - destruct (Z.ltb_spec 0 sz); [|lia].
    rewrite (int64_bounds (sz - 0)) by lia. cbn [obind].
    rewrite (int64_bounds (sz - 0 - 1)) by lia. cbn [obind].
    unfold div64. cbn [Z.eqb]. rewrite Z.quot_1_r.
    rewrite (int64_bounds (sz - 0 - 1)) by lia. cbn [obind].
    rewrite int64_bounds by lia. cbn [obind]. do 2 f_equal. f_equal. lia.
Qed.

Lemma sliceAdjustIndices_reversed sz :
  0 <= sz < INT64_MAX ->
  sliceAdjustIndices sz (sz - 1) (- (sz + 1)) (-1) = Value (sz, sz - 1, -1).
Proof.
  intros H. rewrite INT64_MAX_value in H.
  unfold sliceAdjustIndices, adjust. cbn [Z.eqb Z.ltb Z.compare obind].
  rewrite !Z.geb_leb.
  destruct (Z.ltb_spec (- (sz + 1)) 0); [|lia].
  rewrite (int64_bounds (- (sz + 1) + sz)) by lia. cbn [obind].
  destruct (Z.ltb_spec (- (sz + 1) + sz) 0); [|lia].
  destruct (Z.ltb_spec (sz - 1) 0) as [A|A].
  - assert (sz = 0) by lia. subst sz. reflexivity.
  - destruct (Z.leb_spec sz (sz - 1)); [lia|]. cbn [obind].
    destruct (Z.ltb_spec (-1) (sz - 1)); [|lia].
    rewrite (int64_bounds (sz - 1 - -1)) by lia. cbn [obind].
    rewrite (int64_bounds (sz - 1 - -1 - 1)) by lia. cbn [obind].
    change (- (-1)) with 1. rewrite (int64_bounds 1) by lia. cbn [obind].
    unfold div64. cbn [Z.eqb]. rewrite Z.quot_1_r.
    rewrite (int64_bounds (sz - 1 - -1 - 1)) by lia. cbn [obind].
    rewrite int64_bounds by lia. cbn [obind]. do 2 f_equal. f_equal. lia.
Qed.

(** For a tuple of any size, the slice with every part omitted selects
    all fields in order, and the slice [[::-1]] selects all fields in
    reverse order. *)
Theorem tupleSlice_whole (fuel : nat) (sz : Z) :
  0 <= sz < INT64_MAX -> (Z.to_nat sz < fuel)%nat ->
  tupleSlice fuel sz Absent Absent Absent
    = Some (Value (Fields (positions 0 1 (Z.to_nat sz)))) /\
  tupleSlice fuel sz Absent Absent (StaticInt (-1))
    = Some (Value (Fields (positions (sz - 1) (-1) (Z.to_nat sz)))).
Proof.
  intros Hsz Hfuel. pose proof INT64_MAX_value as M. split.
  - destruct (tupleSlice_run fuel sz Absent Absent Absent 0 sz 1
                (proj1 Hsz) I I I eq_refl eq_refl eq_refl ltac:(lia)
                ltac:(rewrite M; lia) Hfuel)
      as (start1 & stop1 & n & first & stop2 & EB & EA & ET & _).
    injection EB as <- <-.
    rewrite sliceAdjustIndices_whole in EA by exact Hsz.
    injection EA as En <- <-. rewrite ET. do 4 f_equal. lia.
  - assert (Im : in_int64 (-1)) by (rewrite in_int64_bounds; lia).
    destruct (tupleSlice_run fuel sz Absent Absent (StaticInt (-1)) 0 sz (-1)
                (proj1 Hsz) I I Im eq_refl eq_refl eq_refl ltac:(lia)
                ltac:(rewrite M; lia) Hfuel)
      as (start1 & stop1 & n & first & stop2 & EB & EA & ET & _).
    unfold slice_bounds in EB. cbn [present andb negb Z.gtb Z.compare] in EB.
    rewrite (int64_bounds (sz - 1)) in EB by lia. cbn [obind] in EB.
    rewrite (int64_bounds (sz + 1)) in EB by lia. cbn [obind] in EB.
    rewrite (int64_bounds (- (sz + 1))) in EB by lia. cbn [obind] in EB.
    injection EB as <- <-.
    rewrite sliceAdjustIndices_reversed in EA by exact Hsz.
    injection EA as En <- <-. rewrite ET. do 4 f_equal. lia.
Qed.

End TupleSlice.

Section IndexExamples.
Import Op Index.

Lemma translateIndex_spec_witness :
  translateIndex (-1) 3 false = Value 2 /\
  translateIndex 3 3 false = Raise (TUPLE_RANGE_BOUNDS 2 3).
Proof.
  assert (I1 : in_int64 (-1)) by (rewrite in_int64_bounds; lia).
  assert (I3 : in_int64 3) by (rewrite in_int64_bounds; lia).
  assert (L : 0 <= 3 <= INT64_MAX) by (rewrite INT64_MAX_value; lia).
  split.
  - exact (proj1 (translateIndex_spec (-1) 3 I1 L) ltac:(lia)).
  - exact (proj2 (translateIndex_spec 3 3 I3 L) ltac:(lia)).
Defined.

Lemma translateIndex_clamp_witness :
  exists r, translateIndex (-7) 3 true = Value r /\ r = 0.
Proof.
  assert (I7 : in_int64 (-7)) by (rewrite in_int64_bounds; lia).
  assert (L : 0 <= 3 <= INT64_MAX) by (rewrite INT64_MAX_value; lia).
  destruct (translateIndex_clamp (-7) 3 I7 L) as (r & E & _ & _ & Z0 & _).
  exists r. split; [exact E|apply Z0; lia].
Defined.


Lemma tupleSlice_fields_witness :
  exists n first,
    tupleSlice 6 5 (StaticInt 4) Absent (StaticInt (-2))
      = Some (Value (Fields (positions first (-2) n))) /\
    Forall (fun i => 0 <= i < 5) (positions first (-2) n).
Proof.
  assert (I4 : in_int64 4) by (rewrite in_int64_bounds; lia).
  assert (I2 : in_int64 (-2)) by (rewrite in_int64_bounds; lia).
  destruct (tupleSlice_fields 6 5 (StaticInt 4) Absent (StaticInt (-2)) 4 5 (-2)
              ltac:(lia) I4 I I2 eq_refl eq_refl eq_refl ltac:(lia)
              ltac:(rewrite INT64_MAX_value; lia) ltac:(cbn; lia))
    as (start1 & stop1 & n & first & stop2 & _ & _ & E & F).
  exists n, first. split; [exact E|exact F].
Defined.

Lemma tupleSlice_whole_witness :
  tupleSlice 4 3 Absent Absent Absent = Some (Value (Fields [0; 1; 2])) /\
  tupleSlice 4 3 Absent Absent (StaticInt (-1)) = Some (Value (Fields [2; 1; 0])).
Proof.
  exact (tupleSlice_whole 4 3 ltac:(rewrite INT64_MAX_value; lia) ltac:(cbn; lia)).
Defined.

End IndexExamples.

(* --------------------------------------------------------------------- *)
(** ** Static values, attributes, calls from values and generators        *)
(* --------------------------------------------------------------------- *)
Section StaticValueFacts.
Import Ast.

Lemma StaticType_eqb_eq a b : StaticType_eqb a b = true <-> a = b.
Proof. destruct a, b; cbn; split; congruence. Qed.

Lemma Variant_eqb_eq a b : Variant_eqb a b = true <-> a = b.
Proof.
  destruct a as [i|s], b as [j|t]; cbn.
  - rewrite Z.eqb_eq. split; congruence.
  - split; congruence.
  - split; congruence.
  - rewrite String.eqb_eq. split; congruence.
Qed.

Lemma StaticValue_eq_true a b :
  StaticValue_eq a b = true <->
  type a = type b /\ evaluated a = evaluated b /\
  (evaluated b = true -> value a = value b).
Proof.
  unfold StaticValue_eq.
  destruct (StaticType_eqb (type a) (type b)) eqn:T; cbn [negb orb].
  - apply StaticType_eqb_eq in T.
    destruct (evaluated a) eqn:Ea, (evaluated b) eqn:Eb; cbn.
    + rewrite Variant_eqb_eq. intuition.
    + intuition congruence.
    + intuition congruence.
    + intuition congruence.
  - split; [discriminate|]. intros (E & _). apply StaticType_eqb_eq in E.
    congruence.
Qed.

(** [StaticValue::operator==] is an equivalence relation, and two values
    of the same type that are both not evaluated are equal whatever they
    hold. *)
Theorem StaticValue_eq_equivalence :
  (forall a, StaticValue_eq a a = true) /\
  (forall a b, StaticValue_eq a b = StaticValue_eq b a) /\
  (forall a b c, StaticValue_eq a b = true -> StaticValue_eq b c = true ->
                 StaticValue_eq a c = true) /\
  (forall a b, type a = type b -> evaluated a = false -> evaluated b = false ->
               StaticValue_eq a b = true).
Proof.
  split; [|split; [|split]].
  - intros a. apply StaticValue_eq_true. auto.
  - intros a b.
    destruct (StaticValue_eq a b) eqn:E1, (StaticValue_eq b a) eqn:E2;
      try reflexivity.
    + apply StaticValue_eq_true in E1 as (T & E & V).
      assert (StaticValue_eq b a = true); [|congruence].
      apply StaticValue_eq_true. repeat split; try congruence.
      intros Ha. symmetry. apply V. congruence.
    + apply StaticValue_eq_true in E2 as (T & E & V).
      assert (StaticValue_eq a b = true); [|congruence].
      apply StaticValue_eq_true. repeat split; try congruence.
      intros Ha. symmetry. apply V. congruence.
  - intros a b c H1 H2.
    apply StaticValue_eq_true in H1 as (T1 & E1 & V1).
    apply StaticValue_eq_true in H2 as (T2 & E2 & V2).
    apply StaticValue_eq_true. repeat split; try congruence.
    intros Hc. rewrite V1, V2; congruence.
  - intros a b T Ea Eb. apply StaticValue_eq_true.
    repeat split; congruence.
Qed.

End StaticValueFacts.

Section AttrFacts.
Import Ast.

Lemma land_bit x b :
  0 <= b -> (Z.land x (Z.shiftl 1 b) =? 0) = negb (Z.testbit x b).
Proof.
  intros Hb. rewrite Z.shiftl_1_l.
  destruct (Z.testbit x b) eqn:T; cbn [negb].
  - apply Z.eqb_neq. intros H.
    apply (f_equal (fun z => Z.testbit z b)) in H.
    rewrite Z.land_spec, T, Z.pow2_bits_true, Z.bits_0 in H by exact Hb.
    discriminate.
  - apply Z.eqb_eq. apply Z.bits_inj'. intros n Hn.
    rewrite Z.land_spec, Z.bits_0, Z.pow2_bits_eqb by exact Hb.
    destruct (Z.eqb_spec b n) as [<-|]; [now rewrite T|apply andb_false_r].
Qed.

Lemma hasAttr_testbit x b : 0 <= b -> hasAttr x b = Z.testbit x b.
Proof. intros Hb. unfold hasAttr. rewrite land_bit by exact Hb. apply negb_involutive. Qed.

(** After [setAttr(a)] the attribute [a] is set and every other attribute
    is as it was: [hasAttr(b)] answers true for [b = a] and what it
    answered before for any other [b]. The attributes are numbered from 0
    to 30, so that [1 << attr] is an [int]. *)
Theorem hasAttr_setAttr (attributes a b : Z) :
  0 <= a < 31 -> 0 <= b < 31 ->
  hasAttr (setAttr attributes a) b = (a =? b) || hasAttr attributes b.
Proof.
  intros Ha Hb. rewrite !hasAttr_testbit by lia. unfold setAttr.
  rewrite Z.lor_spec, Z.shiftl_1_l, Z.pow2_bits_eqb by lia.
  apply orb_comm.
Qed.

End AttrFacts.

Section CallFromValues.
Import Expr Ast.

Lemma validate_loop_unnamed (vals : list ExprKind) : forall foundEllipsis,
  validate_loop (map (mkArg EmptyString) vals) false foundEllipsis =
  if (2 <=? length (List.filter getEllipsis vals)
            + (if foundEllipsis then 1 else 0))%nat
  then Some CALL_ELLIPSIS else None.
Proof.
  induction vals as [|v vals IH]; intros fe; cbn [map validate_loop List.filter].
  - destruct fe; reflexivity.
  - cbn [Expr.name Expr.value empty String.eqb andb negb orb].
    destruct (getEllipsis v) eqn:G; cbn [andb orb].
    + destruct fe; cbn [andb orb].
      * cbn [length]. destruct (length (List.filter getEllipsis vals)); reflexivity.
      * rewrite IH. cbn [length].
        replace (S (length (List.filter getEllipsis vals)) + 0)%nat
          with (length (List.filter getEllipsis vals) + 1)%nat by lia.
        reflexivity.
    + rewrite IH. rewrite orb_false_r. reflexivity.
Qed.

(** A call built from a vector of values gets one unnamed argument for
    each value that is not null, in order; its validation can only fail
    on a second ellipsis: the constructor raises CALL_ELLIPSIS when two
    or more of the values are ellipses and never raises anything else. *)
Theorem CallExpr_of_values_spec (e : ExprKind) (args : list (option ExprKind)) :
  CallExpr_of_values e args =
  if (2 <=? length (List.filter getEllipsis (omap id args)))%nat
  then Raise CALL_ELLIPSIS
  else Value (mkCall e (map (mkArg EmptyString) (omap id args)) false).
Proof.
  unfold CallExpr_of_values, validate. cbn [Expr.args].
  rewrite validate_loop_unnamed, Nat.add_0_r.
  destruct (2 <=? length (List.filter getEllipsis (omap id args)))%nat;
    reflexivity.
Qed.

End CallFromValues.

Section GeneratorFacts.
Import Ast.
Context {E A : Type}.
Local Abbreviation Stmt := (Ast.Stmt E A).

Lemma finalStmt_suite (stmts : list Stmt) :
  finalStmt (SuiteStmt stmts) =
  match last stmts with
  | None => Some (SuiteStmt stmts)
  | Some x => finalStmt x
  end.
Proof.
  cbn [finalStmt]. generalize (SuiteStmt stmts) as s. intros s.
  induction stmts as [|x [|y l] IH]; try reflexivity.
  exact IH.
Qed.

Lemma loopCount_suite (stmts : list Stmt) :
  loopCount (SuiteStmt stmts) =
  match last stmts with
  | None => Some 0%nat
  | Some x => loopCount x
  end.
Proof.
  cbn [loopCount]. induction stmts as [|x [|y l] IH]; try reflexivity.
  exact IH.
Qed.

Lemma formCompleteStmt_loops (expr : E) (loops : list Stmt) :
  Forall (fun s => is_loop s = true) loops ->
  exists g,
    formCompleteStmt (loops ++ [SuiteStmt [ExprStmt expr]]) = Some g /\
    loopCount g = Some (length loops) /\
    finalStmt g = Some (ExprStmt expr).
Proof.
  induction 1 as [|s loops Hs _ (g & Eg & Lg & Fg)].
  - eexists. split; [reflexivity|]. split; reflexivity.
  - cbn [app formCompleteStmt]. rewrite Eg.
    destruct s as [a su|a su| | |]; try discriminate;
      (eexists; split; [reflexivity|]; cbn [loopCount finalStmt length];
       rewrite Lg, Fg; split; reflexivity).
Qed.


Lemma setFinalStmt_suite (stmts : list Stmt) (stmt : Stmt) :
  setFinalStmt (SuiteStmt stmts) stmt =
  match last stmts with
  | None => Some stmt
  | Some x =>
      match setFinalStmt x stmt with
      | Some r => Some (SuiteStmt (removelast stmts ++ [r]))
      | None => None
      end
  end.
Proof.
  destruct stmts as [|x0 l0]; [reflexivity|]. cbn [setFinalStmt].
  match goal with
  | |- context [match ?F l0 with Some r => Some (x0 :: r) | None => None end] =>
      set (back := F)
  end.
  assert (B : forall l,
             back l = match last l with
                      | None => Some l
                      | Some x =>
                          match setFinalStmt x stmt with
                          | Some r => Some (removelast l ++ [r])
                          | None => None
                          end
                      end).
  { induction l as [|x [|y l'] IH].
    - reflexivity.
    - cbn. destruct (setFinalStmt x stmt); reflexivity.
    - change (back (x :: y :: l'))
        with (match back (y :: l') with
              | Some r => Some (x :: r)
              | None => None
              end).
      rewrite IH.
      change (last (x :: y :: l')) with (last (y :: l')).
      change (removelast (x :: y :: l')) with (x :: removelast (y :: l')).
      destruct (last (y :: l')) as [w|]; [|reflexivity].
      destruct (setFinalStmt w stmt); reflexivity. }
  destruct l0 as [|y l'].
  - cbn. destruct (setFinalStmt x0 stmt); reflexivity.
  - rewrite B.
    change (last (x0 :: y :: l')) with (last (y :: l')).
    change (removelast (x0 :: y :: l')) with (x0 :: removelast (y :: l')).
    destruct (last (y :: l')) as [w|] eqn:L.
    + destruct (setFinalStmt w stmt); reflexivity.
    + apply last_None in L. discriminate.
Qed.

Lemma list_all_last (P : Stmt -> Prop) (l : list Stmt) (x : Stmt) :
  Types.list_all Stmt P l -> last l = Some x -> P x.
Proof.
  induction 1 as [|a Ha l _ IH]; [discriminate|].
  destruct l as [|b l']; [intros [= <-]; exact Ha|exact IH].
Qed.

Lemma setFinalStmt_expr (e : E) (g : Stmt) : forall f,
  finalStmt g = Some f ->
  exists g',
    setFinalStmt g (ExprStmt e) = Some g' /\
    finalStmt g' = Some (ExprStmt e) /\
    loopCount g' = loopCount g.
Proof.
  induction g as [a su IH|a su IH|stmts IH|x|a] using Stmt_ind; intros f Hf.
  - destruct su as [s'|]; [|discriminate]. inversion IH as [? IH'|]; subst.
    cbn [finalStmt] in Hf. destruct (IH' f Hf) as (g' & S' & F' & L').
    exists (ForStmt a (Some g')). cbn [setFinalStmt finalStmt loopCount].
    rewrite S', F', L'. auto.
  - destruct su as [s'|]; [|discriminate]. inversion IH as [? IH'|]; subst.
    cbn [finalStmt] in Hf. destruct (IH' f Hf) as (g' & S' & F' & L').
    exists (IfStmt a (Some g')). cbn [setFinalStmt finalStmt loopCount].
    rewrite S', F', L'. auto.
  - rewrite finalStmt_suite in Hf. rewrite setFinalStmt_suite, loopCount_suite.
    destruct (last stmts) as [x|] eqn:L.
    + destruct (list_all_last _ _ _ IH L f Hf) as (g' & S' & F' & L').
      rewrite S'. eexists. split; [reflexivity|].
      rewrite finalStmt_suite, loopCount_suite, last_snoc. auto.
    + eexists. split; [reflexivity|]. split; reflexivity.
  - eexists. split; [reflexivity|]. split; reflexivity.
  - eexists. split; [reflexivity|]. split; reflexivity.
Qed.

(** [setFinalExpr] followed by [getFinalExpr] gives the expression back,
    and the number of loops is unchanged, for every generator whose chain
    of suites has no null link. *)
Theorem setFinalExpr_getFinalExpr (g f : Stmt) (e : E) :
  finalStmt g = Some f ->
  exists g',
    setFinalExpr g e = Some g' /\
    getFinalExpr g' = Some (Some e) /\
    loopCount g' = loopCount g.
Proof.
  intros Hf. destruct (setFinalStmt_expr e g f Hf) as (g' & S' & F' & L').
  exists g'. unfold setFinalExpr, getFinalExpr. rewrite F'. auto.
Qed.

End GeneratorFacts.

Section AstExamples.
Import Ast.

Lemma hasAttr_setAttr_witness :
  hasAttr (setAttr 0 3) 3 = true /\ hasAttr (setAttr 0 3) 5 = false.
Proof.
  split.
  - exact (hasAttr_setAttr 0 3 3 ltac:(lia) ltac:(lia)).
  - exact (hasAttr_setAttr 0 3 5 ltac:(lia) ltac:(lia)).
Defined.


Lemma setFinalExpr_getFinalExpr_witness :
  exists g' : Stmt nat unit,
    setFinalExpr (ForStmt tt (Some (SuiteStmt [ExprStmt 1%nat]))) 2%nat = Some g' /\
    getFinalExpr g' = Some (Some 2%nat) /\
    loopCount g' = Some 1%nat.
Proof.
  exact (setFinalExpr_getFinalExpr
           (ForStmt tt (Some (SuiteStmt [ExprStmt 1%nat]))) (ExprStmt 1%nat) 2%nat
           eq_refl).
Defined.

End AstExamples.

(* --------------------------------------------------------------------- *)
(** ** Import paths and pipe ellipses                                     *)
(* --------------------------------------------------------------------- *)
Section ImportPathFacts.
Import ImportPath.

Lemma components_loop_dotted (e : PathExpr) (rest : list string) :
  forall components,
    components_loop (fold_left DotExpr rest e) components =
    components_loop e (components ++ rev rest).
Proof.
  induction rest as [|m rest IH] using rev_ind; intros components.
  - cbn. now rewrite app_nil_r.
  - rewrite fold_left_app. cbn [fold_left components_loop].
    rewrite IH, rev_app_distr. cbn [rev app]. now rewrite <- app_assoc.
Qed.

Lemma rev_repeat (x : string) (n : nat) : rev (repeat x n) = repeat x n.
Proof.
  induction n as [|n IH]; [reflexivity|].
  cbn [repeat rev]. rewrite IH. symmetry. apply repeat_cons.
Qed.

(** [getImportPath] turns the expression [a.b.c...] into the list of its
    names in reading order, after one [".."] for each dot beyond the
    first; with no expression it gives the [".."] entries alone, and an
    expression that does not end in an identifier fails its assertion. *)
Theorem getImportPath_dotted (a : string) (rest : list string) (dots : nat) :
  getImportPath (Some (dotted a rest)) dots
    = Some (repeat ".."%string (dots - 1) ++ a :: rest) /\
  getImportPath None dots = Some (repeat ".."%string (dots - 1)) /\
  getImportPath (Some (fold_left DotExpr rest OtherExpr)) dots = None.
Proof.
  unfold getImportPath, dotted. rewrite !components_loop_dotted.
  cbn [components_loop app]. split; [|split].
  - rewrite !rev_app_distr, rev_repeat. cbn [rev app].
    rewrite rev_involutive. reflexivity.
  - cbn [app]. now rewrite rev_repeat.
  - reflexivity.
Qed.

End ImportPathFacts.

Section PipeFacts.
Import Pipe.

Lemma findEllipsis_loop_fix (root : PExpr) : forall l ai,
  (fix loop (ai : nat) (l : list PExpr) : list (nat * PExpr) :=
     match l with
     | [] => []
     | a :: rest =>
         match a with
         | EllipsisExpr PIPE => [(ai, root)]
         | EllipsisExpr _ => loop (S ai) rest
         | CallExpr _ _ =>
             match findEllipsis a with
             | [] => loop (S ai) rest
             | v => v ++ [(ai, root)]
             end
         | OtherExpr _ => loop (S ai) rest
         end
     end) ai l = findEllipsis_loop root ai l.
Proof.
  induction l as [|a l IH]; intros ai; [reflexivity|].
  cbn [findEllipsis_loop]. destruct a as [g args'|m|t].
  - rewrite <- IH. reflexivity.
  - destruct m; rewrite <- ?IH; reflexivity.
  - rewrite <- IH. reflexivity.
Qed.

Lemma findEllipsis_call f args :
  findEllipsis (CallExpr f args) = findEllipsis_loop (CallExpr f args) 0 args.
Proof. cbn [findEllipsis]. apply findEllipsis_loop_fix. Qed.

Lemma leads_snoc child path c ai root :
  leads child path c -> arg_at root ai = Some c ->
  leads child (path ++ [(ai, root)]) root.
Proof.
  revert child. induction path as [|[aj d] path IH]; intros child H Ha; cbn in *.
  - subst. auto.
  - destruct H as [H1 H2]. split; [exact H1|]. now apply IH.
Qed.

Lemma reaches_call f args :
  reaches (CallExpr f args) <->
  exists i a, args !! i = Some a /\
    (a = EllipsisExpr PIPE \/
     (exists g args', a = CallExpr g args') /\ reaches a).
Proof.
  split.
  - inversion 1; subst.
    + eexists _, _. split; [eassumption|]. now left.
    + eexists _, _. split; [eassumption|]. right. split; [eauto|assumption].
  - intros (i & a & Hi & [->|[(g & args' & ->) Hr]]).
    + eapply reaches_here; eassumption.
    + eapply reaches_deeper; eassumption.
Qed.

Lemma loop_leads root : forall l ai,
  (forall j a, l !! j = Some a -> arg_at root (ai + j) = Some a) ->
  Types.list_all PExpr found_ok l ->
  findEllipsis_loop root ai l = [] \/
  leads (EllipsisExpr PIPE) (findEllipsis_loop root ai l) root.
Proof.
  induction l as [|a l IH]; intros ai Hat Hall; [now left|].
  inversion Hall as [|? Ha ? Hl]; subst.
  assert (Hnext : forall j b, l !! j = Some b -> arg_at root (S ai + j) = Some b).
  { intros j b Hj. replace (S ai + j)%nat with (ai + S j)%nat by lia.
    now apply Hat. }
  assert (H0 : arg_at root ai = Some a).
  { rewrite <- (Nat.add_0_r ai). now apply Hat. }
  cbn [findEllipsis_loop]. destruct a as [g args'|m|t].
  - destruct (findEllipsis (CallExpr g args')) as [|p v] eqn:F.
    + now apply IH.
    + right. destruct Ha as [[Hn|Hp] _]; [congruence|].
      rewrite F in Hp. eapply leads_snoc; eassumption.
  - destruct m; try (now apply IH).
    right. cbn. auto.
  - now apply IH.
Qed.

Lemma loop_empty root : forall l ai,
  Types.list_all PExpr found_ok l ->
  (findEllipsis_loop root ai l = [] <->
   forall j a, l !! j = Some a ->
     a <> EllipsisExpr PIPE /\
     ((exists g args', a = CallExpr g args') -> ~ reaches a)).
Proof.
  induction l as [|a l IH]; intros ai Hall.
  - split; [|reflexivity]. intros _ j a Hj. discriminate.
  - inversion Hall as [|? Ha ? Hl]; subst. specialize (IH (S ai) Hl).
    assert (Step : forall (Q : Prop),
              (Q <-> (a <> EllipsisExpr PIPE /\
                      ((exists g args', a = CallExpr g args') -> ~ reaches a))) ->
              (findEllipsis_loop root (S ai) l = [] /\ Q <->
               forall j b, (a :: l) !! j = Some b ->
                 b <> EllipsisExpr PIPE /\
                 ((exists g args', b = CallExpr g args') -> ~ reaches b))).
    { intros Q HQ. destruct IH as [IH1 IH2]. destruct HQ as [HQ1 HQ2]. split.
      - intros [Hl' Ha'] [|j] b Hj; [injection Hj as <-; exact (HQ1 Ha')|].
        now apply (IH1 Hl' j).
      - intros H. split; [apply IH2; intros j b Hj; exact (H (S j) b Hj)|].
        apply HQ2. exact (H 0%nat a eq_refl). }
    cbn [findEllipsis_loop]. destruct a as [g args'|m|t].
    + destruct Ha as [_ Hiff].
      destruct (findEllipsis (CallExpr g args')) as [|p v] eqn:F.
      * rewrite <- (Step True).
        -- tauto.
        -- split; [intros _|auto]. split; [discriminate|].
           intros _. now apply Hiff.
      * split; [destruct v; discriminate|].
        intros H. destruct (H 0%nat _ eq_refl) as [_ Hn].
        exfalso. assert (R : ~ reaches (CallExpr g args')) by eauto.
        apply Hiff in R. discriminate.
    + destruct m.
      * split; [discriminate|]. intros H.
        destruct (H 0%nat _ eq_refl) as [Hn _]. congruence.
      * rewrite <- (Step True); [tauto|].
        split; [intros _|auto]. split; [discriminate|].
        intros (g & args' & [=]).
      * rewrite <- (Step True); [tauto|].
        split; [intros _|auto]. split; [discriminate|].
        intros (g & args' & [=]).
    + rewrite <- (Step True); [tauto|].
      split; [intros _|auto]. split; [discriminate|].
      intros (g & args' & [=]).
Qed.

Lemma findEllipsis_found_ok (e : PExpr) : found_ok e.
Proof.
  induction e as [f args IH|m|t] using PExpr_ind.
  - unfold found_ok. rewrite findEllipsis_call. split.
    + apply loop_leads; [|exact IH].
      intros j a Hj. exact Hj.
    + rewrite loop_empty by exact IH. rewrite reaches_call. split.
      * intros H (i & a & Hi & [->|[Hc Hr]]).
        -- destruct (H i _ Hi) as [Hn _]. congruence.
        -- destruct (H i _ Hi) as [_ Hn]. now apply Hn.
      * intros H j a Hj. split.
        -- intros ->. apply H. eexists _, _. split; [eassumption|]. now left.
        -- intros Hc Hr. apply H. eexists _, _. split; [eassumption|]. now right.
  - split; [now left|]. split; [intros _ H; inversion H|reflexivity].
  - split; [now left|]. split; [intros _ H; inversion H|reflexivity].
Qed.

(** [findEllipsis] finds nothing exactly when no pipe ellipsis can be
    reached through arguments of nested calls; what it finds is a path to
    a pipe ellipsis: the first entry is a call with the ellipsis at the
    given position, each later entry a call with the entry before it at
    the given position, and the last one is the expression itself. *)
Theorem findEllipsis_spec (e : PExpr) :
  (findEllipsis e = [] <-> ~ reaches e) /\
  (findEllipsis e = [] \/ leads (EllipsisExpr PIPE) (findEllipsis e) e).
Proof. destruct (findEllipsis_found_ok e) as [A B]. split; assumption. Qed.

End PipeFacts.

(* --------------------------------------------------------------------- *)
(** ** Magic methods and static binary expressions                       *)
(* --------------------------------------------------------------------- *)
Section MagicFacts.
Import Magic.
Local Open Scope string_scope.

Lemma find_In key table v : find key table = Some v -> In (key, v) table.
Proof.
  induction table as [|[k w] table IH]; cbn [find]; [discriminate|].
  destruct (String.eqb_spec key k) as [->|_].
  - intros [= ->]. now left.
  - intros H. right. now apply IH.
Qed.

Lemma find_not_In key table :
  find key table = None -> ~ In key (map fst table).
Proof.
  induction table as [|[k w] table IH]; cbn [find map fst]; [auto|].
  destruct (String.eqb_spec key k) as [->|N]; [discriminate|].
  intros H [E|E]; [congruence|now apply IH].
Qed.

Lemma getMagic_In op m r :
  getMagic op = Some (m, r) ->
  In (op, (m, r))
     [("+", ("add", "radd")); ("-", ("sub", "rsub")); ("*", ("mul", "rmul"));
      ("**", ("pow", "rpow")); ("/", ("truediv", "rtruediv"));
      ("//", ("floordiv", "rfloordiv")); ("@", ("matmul", "rmatmul"));
      ("%", ("mod", "rmod")); ("<", ("lt", "gt")); ("<=", ("le", "ge"));
      (">", ("gt", "lt")); (">=", ("ge", "le")); ("==", ("eq", "eq"));
      ("!=", ("ne", "ne")); ("<<", ("lshift", "rlshift"));
      (">>", ("rshift", "rrshift")); ("&", ("and", "rand"));
      ("|", ("or", "ror")); ("^", ("xor", "rxor"))].
Proof.
  unfold getMagic. destruct (find op magics) as [m0|] eqn:F; [|discriminate].
  apply find_In in F. cbn in F.
  repeat (destruct F as [F|F]; [injection F as <- <-; intros [= <- <-]; cbn; tauto|]).
  contradiction.
Qed.

(** [getMagic] is defined on the nineteen operators of its table and
    fails its assertion on any other string. Two different operators
    never share a magic method, nor a right-hand magic method. For a
    comparison the right-hand method is the method of the mirrored
    comparison ([a < b] falls back on [b > a]); for every other operator
    it is the method's name after an ["r"]. *)
Theorem getMagic_spec :
  (forall op, getMagic op <> None <-> In op (map fst magics)) /\
  (forall op1 op2 m1 r1 m2 r2,
      getMagic op1 = Some (m1, r1) -> getMagic op2 = Some (m2, r2) ->
      m1 = m2 \/ r1 = r2 -> op1 = op2) /\
  (forall op m r,
      In op comparisons -> getMagic op = Some (m, r) ->
      exists r', getMagic (mirrored op) = Some (r, r')) /\
  (forall op m r,
      getMagic op = Some (m, r) -> ~ In op comparisons -> r = "r" ++ m).
Proof.
  split; [|split; [|split]].
  - intros op. split.
    + intros H. destruct (getMagic op) as [[m r]|] eqn:G; [|congruence].
      apply getMagic_In in G.
      cbn in G |- *.
      repeat (destruct G as [G|G]; [injection G as <- _ _; tauto|]).
      contradiction.
    + intros H. cbn in H.
      repeat (destruct H as [H|H]; [subst op; discriminate|]).
      contradiction.
  - intros op1 op2 m1 r1 m2 r2 G1 G2 H.
    apply getMagic_In in G1, G2. cbn in G1, G2.
    repeat (destruct G1 as [G1|G1]; [injection G1 as <- <- <-|]);
      try contradiction;
      repeat (destruct G2 as [G2|G2]; [injection G2 as <- <- <-|]);
      try contradiction;
      try reflexivity;
      destruct H as [H|H]; discriminate H.
  - intros op m r H G. cbn in H.
    repeat (destruct H as [H|H];
            [subst op; injection G as <- <-; eexists; reflexivity|]).
    contradiction.
  - intros op m r G H. apply getMagic_In in G. cbn in G, H.
    repeat (destruct G as [G|G];
            [injection G as <- <- <-; try reflexivity; exfalso; apply H; tauto|]).
    contradiction.
Qed.

End MagicFacts.

Section StaticEvalFacts.
Import StaticEval.
Local Open Scope string_scope.
Local Open Scope Z_scope.

Lemma mem_In op ops : mem op ops = true -> In op ops.
Proof.
  unfold mem. rewrite existsb_exists. intros (x & Hx & E).
  apply String.eqb_eq in E. now subst.
Qed.

Lemma staticBinaryInt_known pythonCompat op a b :
  In op (staticOps 1) -> staticBinaryInt pythonCompat op a b <> Value None.
Proof.
  intros H. cbn in H.
  repeat (destruct H as [H|H];
          [subst op; unfold staticBinaryInt; cbn [String.eqb Ascii.eqb Bool.eqb];
           try discriminate;
           match goal with
           | |- (_ <-- ?m ;; _) <> _ => destruct m; cbn; discriminate
           end|]).
  contradiction.
Qed.

Lemma staticOps_3_1 op : In op (staticOps 3) -> In op (staticOps 1).
Proof. cbn. tauto. Qed.

(** Every operator that [visit] lets through to [evaluateStaticBinary]
    is one the evaluator supports, for operands whose static is of the
    kind their type tells: the assertion "unknown static operator" is
    never reached and no null static is dereferenced. *)
Theorem evaluateStaticBinary_no_fault (pythonCompat : bool) (op : string)
  (lexpr rexpr : Operand) :
  consistent lexpr -> consistent rexpr ->
  isStaticBinary op (kind lexpr) (kind rexpr) = true ->
  evaluateStaticBinary pythonCompat op lexpr rexpr <> Value Fault.
Proof.
  intros Cl Cr G. unfold evaluateStaticBinary.
  destruct (Nat.eqb_spec (kind rexpr) 2) as [R2|R2].
  - destruct (String.eqb op "+"); destruct (getStrStatic lexpr), (getStrStatic rexpr);
      discriminate.
  - destruct (static lexpr) as [ls|] eqn:Sl; [|discriminate].
    destruct (static rexpr) as [rs|] eqn:Sr; [|discriminate].
    unfold consistent in Cl, Cr. rewrite Sl in Cl. rewrite Sr in Cr.
    unfold isStaticBinary in G.
    assert (Hop : In op (staticOps 1) /\
                  (kind lexpr = 1 \/ kind lexpr = 3)%nat /\
                  (kind rexpr = 1 \/ kind rexpr = 3)%nat).
    { apply andb_true_iff in G as [G0 G]. apply orb_true_iff in G as [G|G].
      - apply andb_true_iff in G as [E M]. apply Nat.eqb_eq in E.
        apply mem_In in M.
        destruct (kind lexpr) as [|[|[|[|k]]]] eqn:K; cbn in M; try contradiction.
        + split; [exact M|]. split; [now left|]. left. congruence.
        + congruence.
        + split; [now apply staticOps_3_1|]. split; [now right|]. right. congruence.
      - apply andb_true_iff in G as [E M]. apply mem_In in M.
        split; [exact M|].
        apply orb_true_iff in E as [E|E]; apply andb_true_iff in E as [E1 E2];
          apply Nat.eqb_eq in E1, E2; auto. }
    destruct Hop as (Hop & Kl & Kr).
    assert (Il : exists a, intValue ls = Some a).
    { destruct ls; cbn; eauto. destruct Kl; congruence. }
    assert (Ir : exists b, intValue rs = Some b).
    { destruct rs; cbn; eauto. destruct Kr; congruence. }
    destruct Il as (a & ->). destruct Ir as (b & ->).
    pose proof (staticBinaryInt_known pythonCompat op a b Hop) as N.
    destruct (staticBinaryInt pythonCompat op a b) as [[v|]|e|]; cbn [obind];
      try discriminate; [|congruence].
    destruct (mem op boolOps); discriminate.
Qed.

Lemma z_of_bool_truth (b : bool) : negb (z_of_bool b =? 0) = b.
Proof. destruct b; reflexivity. Qed.

(** A comparison or a logical operator on two static operands that are
    integers or booleans always evaluates, in either mode, to the Boolean
    expression of its truth value (a boolean counts as 0 or 1): it raises
    no error and cannot overflow. *)
Theorem evaluateStaticBinary_truth (pythonCompat : bool) (op : string)
  (lexpr rexpr : Operand) (ls rs : Static) (a b : Z) :
  In op boolOps -> kind rexpr <> 2%nat ->
  static lexpr = Some ls -> static rexpr = Some rs ->
  intValue ls = Some a -> intValue rs = Some b ->
  evaluateStaticBinary pythonCompat op lexpr rexpr
    = Value (Evaluated (BoolExpr (truth op a b))).
Proof.
  intros Hop K Sl Sr Ia Ib. unfold evaluateStaticBinary.
  destruct (Nat.eqb_spec (kind rexpr) 2) as [R2|_]; [contradiction|].
  rewrite Sl, Sr, Ia, Ib. cbn in Hop.
  repeat (destruct Hop as [Hop|Hop];
          [subst op; cbn; rewrite ?Z.gtb_ltb, ?Z.geb_leb;
           now rewrite z_of_bool_truth|]).
  contradiction.
Qed.

End StaticEvalFacts.

Section StaticEvalExamples.
Import StaticEval.
Local Open Scope string_scope.

Lemma evaluateStaticBinary_no_fault_witness :
  evaluateStaticBinary true "+" (mkOperand 3 (Some (SBool true)))
                       (mkOperand 1 (Some (SInt 2)))
  <> Value Fault.
Proof.
  apply evaluateStaticBinary_no_fault; reflexivity.
Defined.

Lemma evaluateStaticBinary_truth_witness :
  evaluateStaticBinary false "<=" (mkOperand 1 (Some (SInt 2)))
                       (mkOperand 3 (Some (SBool true)))
  = Value (Evaluated (BoolExpr false)).
Proof.
  apply (evaluateStaticBinary_truth false "<=" _ _ (SInt 2) (SBool true) 2 1).
  - cbn. tauto.
  - discriminate.
  - reflexivity.
  - reflexivity.
  - reflexivity.
  - reflexivity.
Defined.

End StaticEvalExamples.

(* --------------------------------------------------------------------- *)
(** ** [FuncType::unify]                                                  *)
(* --------------------------------------------------------------------- *)
Section FuncUnify.
Import Types.
Local Open Scope string_scope.
Local Open Scope Z_scope.

Lemma unify_generics_nonneg rec g1 g2 us ss us' :
  pairwise rec g1 g2 us ss us' -> Forall (fun s => 0 <= s) ss ->
  0 <= sum_scores ss.
Proof.
  intros _ H. induction H as [|s ss Hs _ IH]; unfold sum_scores in *;
    cbn [fold_right]; lia.
Qed.

Lemma names_not_carved (a b : string) :
  a = b ->
  (String.eqb a "int" && String.eqb b "Int" = false) /\
  (String.eqb b "int" && String.eqb a "Int" = false).
Proof.
  intros ->. split; apply andb_false_iff;
    destruct (String.eqb_spec b "int") as [->|]; auto.
Qed.

(** Two function types that are not the same object. They fail to unify,
    leaving the type graph alone, when their declarations have different
    names, their indices differ, or one has a parent and the other has
    none. Otherwise, when everything unifies, the score is 2, plus the
    score of the parents, plus the scores of the function generics, plus
    the score of the two as class types (3 plus the scores of their
    generics). *)
Theorem FuncType_unify_spec (n : nat) (a a' : nat) (c c' : ClassFields Ty)
  (ast ast' : FunctionStmt) (idx idx' : nat) (fg fg' : list (Generic Ty))
  (fp fp' : option Ty) (us : UState) :
  let this := FuncType a c ast idx fg fp in
  let typ := FuncType a' c' ast' idx' fg' fp' in
  a <> a' ->
  (fname ast <> fname ast' \/ idx <> idx' \/
   (is_Some fp /\ fp' = None) \/ (fp = None /\ is_Some fp') ->
   unify (S (S n)) this typ us = Some (-1, us)) /\
  (forall sp us0 ss us1 ss' us2,
     fname ast = fname ast' -> idx = idx' -> name c = name c' ->
     (fp = None /\ fp' = None /\ sp = 0 /\ us0 = us \/
      exists p p', fp = Some p /\ fp' = Some p' /\
                   unify (S n) p p' us = Some (sp, us0) /\ sp <> -1) ->
     pairwise (unify (S n)) fg fg' us0 ss us1 ->
     pairwise (unify (S n)) (generics c) (generics c') us1 ss' us2 ->
     Forall (fun s => 0 <= s) ss' ->
     unify (S (S n)) this typ us
       = Some (2 + sp + sum_scores ss + (3 + sum_scores ss'), us2)).
Proof.
  intros this typ Ha. subst this typ.
  assert (Hobj : (a =? a')%nat = false) by now apply Nat.eqb_neq.
  split.
  - intros H. cbn [unify]. unfold FuncType_unify, same_object.
    rewrite Hobj. cbn [follow].
    destruct H as [H|[H|[[H1 H2]|[H1 H2]]]].
    + apply String.eqb_neq in H. now rewrite H.
    + apply Nat.eqb_neq in H. rewrite H. cbn [negb]. now rewrite orb_true_r.
    + subst fp'. destruct H1 as [p ->].
      rewrite bool_decide_eq_true_2 by eauto.
      rewrite bool_decide_eq_false_2 by (intros [? [=]]).
      cbn [xorb]. now rewrite orb_true_r.
    + subst fp. destruct H2 as [p ->].
      rewrite bool_decide_eq_false_2 by (intros [? [=]]).
      rewrite bool_decide_eq_true_2 by eauto.
      cbn [xorb]. now rewrite orb_true_r.
  - intros sp us0 ss us1 ss' us2 Hn Hi Hc Hp Hfg Hg Hpos.
    pose proof (pairwise_length _ _ _ _ _ _ Hfg) as Lfg.
    pose proof (pairwise_length _ _ _ _ _ _ Hg) as Lg.
    pose proof (unify_generics_nonneg _ _ _ _ _ _ Hg Hpos) as Npos.
    destruct (names_not_carved _ _ Hc) as [C1 C2].
    assert (Fin : forall s1,
      match ClassType_unify (S n) (unify (S n)) (FuncType a c ast idx fg fp) c
              (FuncType a' c' ast' idx' fg' fp') us1 with
      | Some (s, us') => Some (if s =? -1 then s else s1 + s, us')
      | None => None
      end = Some (s1 + (3 + sum_scores ss'), us2)).
    { intros s1. unfold ClassType_unify. cbn [follow as_class].
      rewrite C1, C2. apply String.eqb_eq in Hc. rewrite Hc. cbn [negb].
      rewrite Lg, Nat.eqb_refl. cbn [negb].
      rewrite (unify_generics_pairwise _ _ _ _ _ _ Hg).
      destruct (Z.eqb_spec (3 + sum_scores ss') (-1)); [lia|reflexivity]. }
    change (unify (S (S n)) (FuncType a c ast idx fg fp)
              (FuncType a' c' ast' idx' fg' fp') us)
      with (FuncType_unify (S n) (unify (S n)) (FuncType a c ast idx fg fp)
              c ast idx fg fp (FuncType a' c' ast' idx' fg' fp') us).
    unfold FuncType_unify, same_object.
    rewrite Hobj. cbn [follow].
    apply String.eqb_eq in Hn. rewrite Hn. subst idx'. rewrite Nat.eqb_refl.
    cbn [negb orb].
    destruct Hp as [(-> & -> & -> & ->)|(p & p' & -> & -> & Hu & Hsp)].
    + rewrite bool_decide_eq_false_2 by (intros [? [=]]). cbn [xorb].
      rewrite Lfg, Nat.eqb_refl. cbn [negb].
      rewrite (unify_generics_pairwise _ _ _ _ _ _ Hfg).
      rewrite Fin. do 2 f_equal; lia.
    + rewrite !bool_decide_eq_true_2 by eauto. cbn [xorb].
      rewrite Hu. apply Z.eqb_neq in Hsp. rewrite Hsp.
      rewrite Lfg, Nat.eqb_refl. cbn [negb].
      rewrite (unify_generics_pairwise _ _ _ _ _ _ Hfg).
      rewrite Fin. do 2 f_equal; lia.
Qed.

End FuncUnify.

Section FuncUnifyExamples.
Import Types.
Local Open Scope string_scope.

Lemma FuncType_unify_spec_witness :
  unify 2 (FuncType 0 (mkClass "Function" "Function" [] [] false)
             (mkFunctionStmt "f" [] []) 0 [] None)
          (FuncType 1 (mkClass "Function" "Function" [] [] false)
             (mkFunctionStmt "g" [] []) 0 [] None) (mkUState ∅ [])
    = Some (-1, mkUState ∅ []) /\
  unify 2 (FuncType 0 (mkClass "Function" "Function" [] [] false)
             (mkFunctionStmt "f" [] []) 0 [] None)
          (FuncType 1 (mkClass "Function" "Function" [] [] false)
             (mkFunctionStmt "f" [] []) 0 [] None) (mkUState ∅ [])
    = Some (5, mkUState ∅ []).
Proof.
  split.
  - apply (proj1 (FuncType_unify_spec 0 0 1
             (mkClass "Function" "Function" [] [] false)
             (mkClass "Function" "Function" [] [] false)
             (mkFunctionStmt "f" [] []) (mkFunctionStmt "g" [] []) 0 0 [] []
             None None (mkUState ∅ []) ltac:(lia))).
    left. discriminate.
  - apply (proj2 (FuncType_unify_spec 0 0 1
             (mkClass "Function" "Function" [] [] false)
             (mkClass "Function" "Function" [] [] false)
             (mkFunctionStmt "f" [] []) (mkFunctionStmt "f" [] []) 0 0 [] []
             None None (mkUState ∅ []) ltac:(lia))
             0 (mkUState ∅ []) [] (mkUState ∅ []) [] (mkUState ∅ [])
             eq_refl eq_refl eq_refl).
    + left. auto.
    + constructor.
    + constructor.
    + constructor.
Defined.

End FuncUnifyExamples.
(* --------------------------------------------------------------------- *)
(** ** The mask of a partial call                                         *)
(* --------------------------------------------------------------------- *)
Section PartialFacts.
Import Ascii Partial.

Lemma insert_at_end {A} (pre : list A) (x y : A) (rest : list A) i :
  length pre = i -> <[i := x]> (pre ++ y :: rest) = pre ++ x :: rest.
Proof.
  intros <-. rewrite insert_app_r_alt by lia. now rewrite Nat.sub_diag.
Qed.

Lemma snoc_app {A} (pre : list A) (x : A) (rest : list A) :
  pre ++ x :: rest = (pre ++ [x]) ++ rest.
Proof. now rewrite <- app_assoc. Qed.

Lemma mask_loop_spec (n : list ascii) : forall i pre,
  length pre = i ->
  mask_loop i n (pre ++ repeat 0 (length n)) =
  pre ++ map (fun ch => if Ascii.eqb ch "1" then 1 else 0) n.
Proof.
  induction n as [|ch n IH]; intros i pre Hi; [reflexivity|].
  cbn [mask_loop length repeat map].
  destruct (Ascii.eqb ch "1").
  - rewrite insert_at_end by exact Hi. rewrite snoc_app, IH.
    + now rewrite <- app_assoc.
    + rewrite length_app. cbn. lia.
  - rewrite snoc_app, IH.
    + now rewrite <- app_assoc.
    + rewrite length_app. cbn. lia.
Qed.

Lemma known_normal_le (mask : list Z) : forall args,
  (known_normal mask args <= known mask)%nat.
Proof.
  unfold known. induction mask as [|m mask IH]; intros [|st l];
    cbn [known_normal List.filter length]; try lia.
  specialize (IH l).
  destruct (m =? 0); cbn [negb andb length]; [lia|].
  destruct (is_normal st); lia.
Qed.

Lemma stub_loop_spec (args : list Status) (mask : list Z) :
  forall i pre t g,
    length pre = i -> (i + length mask <= length args)%nat ->
    stub_loop i mask args (pre ++ repeat "1"%char (length mask)) t g =
    Some (pre ++ map (fun m => if m =? 0 then "0"%char else "1"%char) mask,
          (t + known_normal mask (drop i args))%nat,
          (g + (known mask - known_normal mask (drop i args)))%nat).
Proof.
  induction mask as [|m mask IH]; intros i pre t g Hi Hlen.
  - cbn. now rewrite !Nat.add_0_r.
  - cbn [length] in Hlen.
    destruct (lookup_lt_is_Some_2 args i ltac:(lia)) as [st Hst].
    rewrite (drop_S _ _ _ Hst).
    assert (Hpre : length (pre ++ ["1"%char]) = S i)
      by (rewrite length_app; cbn; lia).
    assert (Hpre0 : length (pre ++ ["0"%char]) = S i)
      by (rewrite length_app; cbn; lia).
    cbn [stub_loop length repeat map known_normal].
    unfold known. cbn [List.filter].
    destruct (Z.eqb_spec m 0) as [->|Hm]; cbn [negb andb].
    + rewrite insert_at_end by exact Hi.
      rewrite (snoc_app pre "0"%char), (IH (S i)) by (assumption || lia).
      rewrite <- app_assoc. reflexivity.
    + rewrite Hst. cbn [length].
      pose proof (IH (S i) (pre ++ ["1"%char]) (S t) g Hpre ltac:(lia)) as IH1.
      pose proof (IH (S i) (pre ++ ["1"%char]) t (S g) Hpre ltac:(lia)) as IH2.
      pose proof (known_normal_le mask (drop (S i) args)) as Hle.
      unfold known in *.
      destruct (is_normal st); rewrite (snoc_app pre "1"%char).
      * rewrite IH1, <- app_assoc. cbn [app]. repeat (try lia; f_equal).
      * rewrite IH2, <- app_assoc. cbn [app]. repeat (try lia; f_equal).
Qed.


End PartialFacts.

Section PartialExamples.
Import Partial.


End PartialExamples.

(* --------------------------------------------------------------------- *)
(** ** The callback of [canCall]                                          *)
(* --------------------------------------------------------------------- *)
Section BindingFacts.
Import Types Binding.

Lemma count_take_S {A} (f : A -> bool) (l : list A) (n : nat) (x : A) :
  l !! n = Some x ->
  length (List.filter f (take (S n) l)) =
  (length (List.filter f (take n l)) + (if f x then 1 else 0))%nat.
Proof.
  intros H. rewrite (take_S_r _ _ _ H), List.filter_app, length_app.
  cbn. destruct (f x); reflexivity.
Qed.

Lemma count_take_le {A} (f : A -> bool) (l : list A) (n : nat) :
  (length (List.filter f (take n l)) <= length (List.filter f l))%nat.
Proof.
  rewrite <- (take_drop n l) at 2. rewrite List.filter_app, length_app. lia.
Qed.

(** What the loop is shown to do from position [si] on, [acc] being
    [reordered] so far. *)
Lemma callback_loop_ok (c : Call) (s k : Z) : forall slots si gi pi acc,
  (si + length slots <= length (params c))%nat ->
  (gi <= length (List.filter isGeneric (take si (params c))))%nat ->
  (length (List.filter isGeneric (params c)) <= length (funcGenericStatic c))%nat ->
  Forall (Forall (fun idx => (idx < length (args c))%nat)) slots ->
  match partialMask c with
  | Some mask =>
      (si + length slots <= length mask)%nat /\
      (pi <= known (take si mask))%nat /\
      (known mask <= length (partialArgs c))%nat
  | None => True
  end ->
  exists r out,
    callback_loop c s k slots si gi pi acc = Some (r, out) /\
    (r = 0 \/ r = -1) /\
    (r = 0 ->
     length out = (length acc + length slots)%nat /\
     (forall j, (j < length acc)%nat -> out !! j = acc !! j) /\
     forall j p idx,
       slots !! j = Some [idx] -> params c !! (si + j)%nat = Some p ->
       isGeneric p = false ->
       Z.of_nat (si + j) <> s -> Z.of_nat (si + j) <> k ->
       exists a, args c !! idx = Some a /\
                 out !! (length acc + j)%nat = Some (Some (argType a), idx)).
Proof.
  intros slots. induction slots as [|slot rest IH]; intros si gi pi acc Hp Hg Hfg Ha Hm.
  - exists 0, acc. split; [reflexivity|]. split; [now left|]. intros _.
    cbn [length]. split; [lia|]. split; [auto|]. intros j p idx H. discriminate.
  - cbn [length] in Hp, Hm.
    destruct (lookup_lt_is_Some_2 (params c) si ltac:(lia)) as [p Hsi].
    apply Forall_cons in Ha as [Hslot Hrest].
    cbn [callback_loop]. rewrite Hsi.
    (* what a pushed entry leads to *)
    assert (Next : forall e gi' pi',
      (gi' <= length (List.filter isGeneric (take (S si) (params c))))%nat ->
      match partialMask c with
      | Some mask => (pi' <= known (take (S si) mask))%nat
      | None => True
      end ->
      (forall idx, slot = [idx] -> isGeneric p = false ->
                   Z.of_nat si <> s -> Z.of_nat si <> k ->
                   exists a, args c !! idx = Some a /\ e = (Some (argType a), idx)) ->
      exists r out,
        callback_loop c s k rest (S si) gi' pi' (acc ++ [e]) = Some (r, out) /\
        (r = 0 \/ r = -1) /\
        (r = 0 ->
         length out = (length acc + S (length rest))%nat /\
         (forall j, (j < length acc)%nat -> out !! j = acc !! j) /\
         forall j p0 idx,
           (slot :: rest) !! j = Some [idx] ->
           params c !! (si + j)%nat = Some p0 -> isGeneric p0 = false ->
           Z.of_nat (si + j) <> s -> Z.of_nat (si + j) <> k ->
           exists a, args c !! idx = Some a /\
                     out !! (length acc + j)%nat = Some (Some (argType a), idx))).
    { intros e gi' pi' Hg' Hpi' He.
      destruct (IH (S si) gi' pi' (acc ++ [e])) as (r & out & E & R & Ok);
        try assumption; try lia.
      { destruct (partialMask c) as [mask|]; [|exact I].
        destruct Hm as (M1 & _ & M3). repeat split; [lia|exact Hpi'|exact M3]. }
      exists r, out. split; [exact E|]. split; [exact R|].
      intros R0. destruct (Ok R0) as (L & Pre & Ent).
      rewrite length_app in L, Pre, Ent. cbn [length] in L, Pre, Ent.
      split; [lia|]. split.
      - intros j Hj. rewrite Pre by lia. now rewrite lookup_app_l by lia.
      - intros [|j] p0 idx Hj Hp0 Hgen Hs Hk.
        + cbn in Hj. injection Hj as ->. rewrite Nat.add_0_r in *.
          rewrite Hsi in Hp0. injection Hp0 as <-.
          destruct (He idx eq_refl Hgen Hs Hk) as (a & Harg & ->).
          exists a. split; [exact Harg|].
          rewrite Pre by lia. rewrite lookup_app_r by lia.
          now rewrite Nat.sub_diag.
        + cbn in Hj.
          replace (si + S j)%nat with (S si + j)%nat in * by lia.
          destruct (Ent j p0 idx Hj Hp0 Hgen Hs Hk) as (a & Harg & Hout).
          exists a. split; [exact Harg|].
          replace (length acc + S j)%nat with (length acc + 1 + j)%nat by lia.
          exact Hout. }
    assert (Rej : exists r out : _,
              Some (-1, acc) = Some (r, out) /\ (r = 0 \/ r = -1) /\
              (r = 0 ->
               length out = (length acc + S (length rest))%nat /\
               (forall j, (j < length acc)%nat -> out !! j = acc !! j) /\
               forall j p0 idx,
                 (slot :: rest) !! j = Some [idx] ->
                 params c !! (si + j)%nat = Some p0 -> isGeneric p0 = false ->
                 Z.of_nat (si + j) <> s -> Z.of_nat (si + j) <> k ->
                 exists a, args c !! idx = Some a /\
                   out !! (length acc + j)%nat = Some (Some (argType a), idx))).
    { exists (-1), acc. split; [reflexivity|]. split; [now right|]. lia. }
    pose proof (count_take_S isGeneric (params c) si p Hsi) as Cg.
    pose proof (count_take_le isGeneric (params c) (S si)) as Cle.
    assert (Mask : forall (mask : list Z) (m : Z),
              partialMask c = Some mask -> mask !! si = Some m ->
              known (take (S si) mask) =
              (known (take si mask) + (if negb (m =? 0)%Z then 1 else 0))%nat /\
              (known (take (S si) mask) <= known mask)%nat).
    { intros mask m _ Hmi. unfold known. split.
      - apply (count_take_S (fun m => negb (m =? 0))). exact Hmi.
      - apply (count_take_le (fun m => negb (m =? 0))). }
    unfold callback_step. destruct (isGeneric p) eqn:Gp.
    + (* a generic parameter *)
      assert (Hpi : match partialMask c with
                    | Some mask => (pi <= known (take (S si) mask))%nat
                    | None => True
                    end).
      { destruct (partialMask c) as [mask|] eqn:PM; [|exact I].
        destruct Hm as (M1 & M2 & _).
        destruct (lookup_lt_is_Some_2 mask si ltac:(lia)) as [m Hmi].
        destruct (Mask mask m eq_refl Hmi) as [E _]. lia. }
      destruct slot as [|idx slot'].
      * destruct (mem (paramName p) (niGenerics c) && negb (hasDefault p));
          [exact Rej|].
        apply Next; [lia|exact Hpi|]. intros idx [=].
      * destruct (lookup_lt_is_Some_2 (funcGenericStatic c) gi ltac:(lia))
          as [st Hst].
        rewrite Hst.
        apply Forall_cons in Hslot as [Hidx _].
        destruct (lookup_lt_is_Some_2 (args c) idx Hidx) as [a Harg].
        rewrite Harg.
        destruct (negb st && negb (isTypeExpr a)); [exact Rej|].
        apply Next; [lia|exact Hpi|]. intros idx' _ [=].
    + (* a value parameter *)
      assert (Hgi : (gi <= length (List.filter isGeneric
                                     (take (S si) (params c))))%nat) by lia.
      destruct ((Z.of_nat si =? s) || (Z.of_nat si =? k)
                || negb (length slot =? 1)%nat) eqn:Special.
      * assert (Hne : forall idx, slot = [idx] -> isGeneric p = false ->
                  Z.of_nat si <> s -> Z.of_nat si <> k ->
                  exists a : SlotArg, args c !! idx = Some a /\
                    (None, 0%nat) = (Some (argType a), idx)).
        { intros idx -> _ Hs Hk. exfalso.
          apply Z.eqb_neq in Hs, Hk. rewrite Hs, Hk in Special. discriminate. }
        destruct slot as [|idx slot'].
        -- destruct (partialMask c) as [mask|] eqn:PM.
           ++ destruct Hm as (M1 & M2 & M3).
              destruct (lookup_lt_is_Some_2 mask si ltac:(lia)) as [m Hmi].
              rewrite Hmi. destruct (Mask mask m eq_refl Hmi) as [E Le].
              destruct (negb (m =? 0)) eqn:Nz.
              ** destruct (lookup_lt_is_Some_2 (partialArgs c) pi ltac:(lia))
                   as [t Ht].
                 rewrite Ht. apply Next; [exact Hgi|lia|]. intros idx [=].
              ** apply Next; [exact Hgi|lia|]. intros idx [=].
           ++ apply Next; [exact Hgi|exact I|]. intros idx [=].
        -- assert (Hpi : match partialMask c with
                         | Some mask => (pi <= known (take (S si) mask))%nat
                         | None => True
                         end).
           { destruct (partialMask c) as [mask|] eqn:PM; [|exact I].
             destruct Hm as (M1 & M2 & _).
             destruct (lookup_lt_is_Some_2 mask si ltac:(lia)) as [m Hmi].
             destruct (Mask mask m eq_refl Hmi) as [E _]. lia. }
           destruct (partialMask c); apply Next; try assumption.
           all: intros i0 E0 _; exact (Hne i0 E0 Gp).
      * assert (Hpi : match partialMask c with
                      | Some mask => (pi <= known (take (S si) mask))%nat
                      | None => True
                      end).
        { destruct (partialMask c) as [mask|] eqn:PM; [|exact I].
          destruct Hm as (M1 & M2 & _).
          destruct (lookup_lt_is_Some_2 mask si ltac:(lia)) as [m Hmi].
          destruct (Mask mask m eq_refl Hmi) as [E _]. lia. }
        apply orb_false_iff in Special as [_ Hlen].
        apply negb_false_iff, Nat.eqb_eq in Hlen.
        destruct slot as [|idx [|? ?]]; try discriminate.
        apply Forall_cons in Hslot as [Hidx _].
        destruct (lookup_lt_is_Some_2 (args c) idx Hidx) as [a Harg].
        unfold arg_entry. rewrite Harg.
        apply Next; [exact Hgi|exact Hpi|].
        intros idx' [= <-] _ _ _. eauto.
Qed.

(** When the call and the slots fit together, the callback of [canCall]
    reads no vector beyond its end and fails no assertion: it returns 0
    or -1. When it returns 0 it has filled [reordered] with exactly one
    entry for each slot, and the entry of a value parameter that is
    neither the [*args] nor the [**kwargs] parameter and has a single
    argument is the type of that argument with its position in the call. *)
Theorem callback_entries (c : Call) (s k : Z) (slots : list (list nat)) :
  fits c slots ->
  exists r reordered,
    callback c s k slots = Some (r, reordered) /\
    (r = 0 \/ r = -1) /\
    (r = 0 ->
     length reordered = length slots /\
     forall si p idx,
       slots !! si = Some [idx] -> params c !! si = Some p ->
       isGeneric p = false -> Z.of_nat si <> s -> Z.of_nat si <> k ->
       exists a, args c !! idx = Some a /\
                 reordered !! si = Some (Some (argType a), idx)).
Proof.
  intros (F1 & F2 & F3 & F4). unfold callback.
  destruct (callback_loop_ok c s k slots 0 0 0 []) as (r & out & E & R & Ok);
    try assumption; try (cbn; lia).
  { destruct (partialMask c) as [mask|]; [|exact I].
    destruct F4 as [M1 M2]. repeat split; [exact M1|cbn; lia|exact M2]. }
  exists r, out. split; [exact E|]. split; [exact R|].
  intros R0. destruct (Ok R0) as (L & _ & Ent). split; [exact L|].
  intros si p idx Hs Hp Hg Hs' Hk. exact (Ent si p idx Hs Hp Hg Hs' Hk).
Qed.

End BindingFacts.

Section BindingExamples.
Import Types Binding Examples.
Local Open Scope string_scope.

Lemma callback_entries_witness :
  exists r reordered,
    callback (mkCall [mkSlotParam false "a" false; mkSlotParam true "T" false]
                     [] [false] [mkSlotArg int_class false] None [])
             (-1) (-1) [[0%nat]; []]
      = Some (r, reordered) /\
    (r = 0 \/ r = -1).
Proof.
  destruct (callback_entries
              (mkCall [mkSlotParam false "a" false; mkSlotParam true "T" false]
                      [] [false] [mkSlotArg int_class false] None [])
              (-1) (-1) [[0%nat]; []]) as (r & reordered & E & R & _).
  - repeat split; cbn; try lia.
    repeat constructor.
  - exists r, reordered. split; [exact E|exact R].
Defined.

End BindingExamples.

(* --------------------------------------------------------------------- *)
(** ** Chained comparisons                                                *)
(* --------------------------------------------------------------------- *)
Section ChainFacts.
Import Chain.
Context {E : Type}.
Variable generateCanonicalName : nat -> string.
Hypothesis names : forall n, generateCanonicalName n <> EmptyString.

Local Abbreviation items_loop := (@Chain.items_loop E generateCanonicalName).

Lemma items_loop_later (rest : list (string * E)) : forall before prev calls,
  prev <> EmptyString ->
  concat (map evaluated (items_loop before prev calls rest)) = map snd rest /\
  concat (map comparisons (items_loop before prev calls rest)) = map fst rest /\
  Forall is_item (items_loop before prev calls rest).
Proof.
  induction rest as [|[op e] rest IH]; intros before prev calls Hp.
  - cbn. auto.
  - cbn [Chain.items_loop map concat].
    apply String.eqb_neq in Hp. rewrite Hp.
    destruct (IH e (generateCanonicalName calls) (S calls) (names calls))
      as (I1 & I2 & I3).
    rewrite I1, I2. split; [|split].
    + destruct rest; reflexivity.
    + reflexivity.
    + constructor; [exact I|exact I3].
Qed.

Lemma join_items (items : list (CExpr E)) :
  items <> [] -> Forall is_item items ->
  exists x, join items = Some x /\
            evaluated x = concat (map evaluated items) /\
            comparisons x = concat (map comparisons items).
Proof.
  induction items as [|a items IH]; intros Hne Hall; [congruence|].
  apply Forall_cons in Hall as [Ha Hrest].
  destruct items as [|b items].
  - exists a. cbn. rewrite !app_nil_r. auto.
  - destruct (IH ltac:(discriminate) Hrest) as (x & J & Ev & Co).
    exists (BinaryExpr a "&&" x).
    change (join (a :: b :: items))
      with (match join (b :: items) with
            | Some final => Some (BinaryExpr a "&&" final)
            | None => None
            end).
    rewrite J. split; [reflexivity|]. split.
    + cbn [evaluated map concat]. now rewrite Ev.
    + destruct a as [| | |l op r]; try contradiction.
      change (concat (map comparisons (BinaryExpr l op r :: b :: items)))
        with (comparisons (BinaryExpr l op r)
              ++ concat (map comparisons (b :: items))).
      rewrite <- Co. reflexivity.
Qed.


End ChainFacts.

Section ChainExamples.
Import Chain.
Local Open Scope string_scope.


End ChainExamples.

(* --------------------------------------------------------------------- *)
(** ** Static unary expressions                                           *)
(* --------------------------------------------------------------------- *)
Section StaticUnaryFacts.
Import StaticEval StaticUnary.
Local Open Scope string_scope.
Local Open Scope Z_scope.

(** What [visit] gets from [evaluateStaticUnary] for a realized static
    operand. An integer [v]: [+v] is [v], [-v] is its negation unless [v]
    is INT64_MIN, where the negation is undefined, and [!v] is the Boolean
    [v == 0]. A boolean [b]: [!b] is its negation. A string: nothing is
    evaluated, since the one operator that is let through, ["@"], is not
    one the evaluator knows. No assertion fails and no null static is
    dereferenced. *)
Theorem evaluateStaticUnary_spec (op : string) (expr : Operand) (s : Static) :
  consistent expr -> static expr = Some s ->
  match s with SInt v => Op.in_int64 v | _ => True end ->
  isStaticUnary op (kind expr) = true ->
  match s with
  | SInt v =>
      (op = "+" /\ evaluateStaticUnary op expr = Value (Evaluated (IntExpr v))) \/
      (op = "-" /\ v <> Op.INT64_MIN /\
       evaluateStaticUnary op expr = Value (Evaluated (IntExpr (- v)))) \/
      (op = "-" /\ v = Op.INT64_MIN /\ evaluateStaticUnary op expr = Undefined) \/
      (op = "!" /\
       evaluateStaticUnary op expr = Value (Evaluated (BoolExpr (v =? 0))))
  | SBool b =>
      op = "!" /\ evaluateStaticUnary op expr = Value (Evaluated (BoolExpr (negb b)))
  | SStr _ =>
      op = "@" /\ evaluateStaticUnary op expr = Value Nothing
  end.
Proof.
  intros C S R G. unfold consistent in C. rewrite S in C.
  unfold isStaticUnary in G. apply andb_true_iff in G as [_ G].
  apply mem_In in G. unfold evaluateStaticUnary. rewrite S.
  destruct s as [v|v|b]; rewrite C in *; cbn in G |- *.
  - destruct G as [<-|[<-|[<-|[]]]]; cbn.
    + destruct (Z.eq_dec v Op.INT64_MIN) as [->|Hv].
      * right. right. left. auto.
      * right. left. split; [reflexivity|]. split; [exact Hv|].
        unfold sneg. rewrite s64_in; [reflexivity|].
        unfold Op.in_int64, Op.INT64_MIN, Op.INT64_MAX in *. lia.
    + left. auto.
    + right. right. right. auto.
  - destruct G as [<-|[]]. auto.
  - destruct G as [<-|[]]. auto.
Qed.

End StaticUnaryFacts.

Section StaticUnaryExamples.
Import StaticEval StaticUnary.
Local Open Scope string_scope.

Lemma evaluateStaticUnary_spec_witness :
  evaluateStaticUnary "!" (mkOperand 3 (Some (SBool true)))
  = Value (Evaluated (BoolExpr false)).
Proof.
  exact (proj2 (evaluateStaticUnary_spec "!" (mkOperand 3 (Some (SBool true)))
                  (SBool true) eq_refl eq_refl I eq_refl)).
Defined.

End StaticUnaryExamples.

(* --------------------------------------------------------------------- *)
(** ** Expansion of starred call arguments                                *)
(* --------------------------------------------------------------------- *)
Section CallArgsFacts.
Import CallArgs.
Context {E : Type}.
Variable transform : ArgExpr E -> ArgExpr E.
Variable resolve : E -> Target E.

Local Abbreviation Arg := (CallArgs.Arg E).

Lemma insert_loop_run (named : bool) (e : E) (fields : list string)
  (count i : nat) (done rest : list Arg) :
  (i + count <= length fields)%nat ->
  insert_loop transform named e fields count i (done ++ rest) (length done) =
  Some (done ++ map (fun f => mkArg (if named then f else EmptyString)
                                   (transform (DotExpr e f)))
                    (take count (drop i fields)) ++ rest,
        (length done + count)%nat).
Proof.
  revert i done. induction count as [|count IH]; intros i done Hle.
  - cbn. rewrite Nat.add_0_r. reflexivity.
  - cbn [insert_loop].
    destruct (lookup_lt_is_Some_2 fields i ltac:(lia)) as [f Hf]. rewrite Hf.
    unfold insert_at. rewrite take_app_length, drop_app_length.
    replace (done ++ mkArg (if named then f else EmptyString)
                       (transform (DotExpr e f)) :: rest)
      with ((done ++ [mkArg (if named then f else EmptyString)
                        (transform (DotExpr e f))]) ++ rest)
      by (rewrite <- app_assoc; reflexivity).
    replace (S (length done))
      with (length (done ++ [mkArg (if named then f else EmptyString)
                               (transform (DotExpr e f))]))
      by (rewrite length_app; cbn; lia).
    rewrite (IH (S i)) by lia.
    rewrite (drop_S _ _ _ Hf). cbn [take map].
    rewrite length_app. cbn [length].
    rewrite <- !app_assoc. cbn [app].
    do 2 f_equal. lia.
Qed.

Lemma delete_middle (done mid : list Arg) (a : Arg) (rest : list Arg) :
  delete (length done + length mid)%nat (done ++ mid ++ a :: rest) =
  done ++ mid ++ rest.
Proof.
  rewrite app_assoc, <- length_app.
  rewrite delete_middle. rewrite <- app_assoc. reflexivity.
Qed.

(** One turn of the first loop on an argument that can be expanded. *)
Lemma expand_loop_step (fuel : nat) (done : list Arg) (a : Arg) (rest : list Arg) :
  expandable resolve a ->
  expand_loop transform resolve (S fuel) (done ++ a :: rest) (length done) =
  expand_loop transform resolve fuel
    (done ++ expansion transform resolve (match rest with [] => true | _ => false end) a
          ++ rest)
    (length (done ++ expansion transform resolve
                       (match rest with [] => true | _ => false end) a)).
Proof.
  intros Hx. cbn [expand_loop].
  rewrite list_lookup_middle by reflexivity.
  assert (Hlast : (S (length done) =? length (done ++ a :: rest))%nat =
                  match rest with [] => true | _ => false end).
  { rewrite length_app. cbn [length]. destruct rest; cbn [length].
    - apply Nat.eqb_eq. lia.
    - apply Nat.eqb_neq. lia. }
  assert (Hplain : forall b : Arg,
    <[length done := b]> (done ++ a :: rest) = done ++ [b] ++ rest).
  { intros b. rewrite insert_app_r_alt by lia.
    rewrite Nat.sub_diag. reflexivity. }
  unfold expandable in Hx. unfold expansion.
  destruct (value a) as [t|t|mode|e f|e] eqn:Hv.
  - destruct Hx as (c & Hc & Hr & Hle). cbn zeta. rewrite Hc, Hr. cbn [negb].
    rewrite (insert_loop_run false) by lia.
    rewrite drop_0.
    set (mid := map _ (take (recordArgs c) (fields c))).
    assert (Hlen : length mid = recordArgs c).
    { unfold mid. rewrite length_map, length_take. lia. }
    rewrite <- Hlen at 1 2.
    rewrite delete_middle. rewrite length_app. reflexivity.
  - destruct Hx as (c & Hc & Hr & Ht & Hle). cbn zeta. rewrite Hc, Hr, Ht.
    cbn [negb orb].
    rewrite (insert_loop_run true) by lia.
    rewrite drop_0.
    set (mid := map _ (take (recordArgs c) (fields c))).
    assert (Hlen : length mid = recordArgs c).
    { unfold mid. rewrite length_map, length_take. lia. }
    rewrite <- Hlen at 1 2.
    rewrite delete_middle. rewrite length_app. reflexivity.
  - rewrite Hlast, Hplain, length_app. cbn [length].
    rewrite Nat.add_1_r. reflexivity.
  - rewrite Hlast, Hplain, length_app. cbn [length].
    rewrite Nat.add_1_r. reflexivity.
  - rewrite Hlast, Hplain, length_app. cbn [length].
    rewrite Nat.add_1_r. reflexivity.
Qed.

(** The first loop on arguments that can all be expanded. *)
Lemma expand_loop_all (todo : list Arg) :
  forall (fuel : nat) (done : list Arg),
  Forall (expandable resolve) todo -> (length todo < fuel)%nat ->
  expand_loop transform resolve fuel (done ++ todo) (length done) =
  Some (Value (true, done ++ expanded transform resolve todo)).
Proof.
  induction todo as [|a rest IH]; intros fuel done Hall Hfuel.
  - destruct fuel as [|fuel]; [cbn in Hfuel; lia|].
    cbn [expand_loop expanded]. rewrite app_nil_r.
    rewrite lookup_ge_None_2 by lia. reflexivity.
  - destruct fuel as [|fuel]; [cbn in Hfuel; lia|].
    apply Forall_cons in Hall. destruct Hall as [Ha Hrest].
    rewrite expand_loop_step by assumption.
    rewrite app_assoc. rewrite IH; [|assumption|cbn [length] in Hfuel; lia].
    rewrite <- app_assoc. destruct rest; [|reflexivity].
    cbn [expanded]. rewrite app_nil_r. reflexivity.
Qed.

(** The first loop up to a starred argument whose class is not known. *)
Lemma expand_loop_pending (pre : list Arg) :
  forall (fuel : nat) (done : list Arg) (a : Arg) (post : list Arg),
  Forall (expandable resolve) pre -> pending resolve a -> (length pre < fuel)%nat ->
  expand_loop transform resolve fuel (done ++ pre ++ a :: post) (length done) =
  Some (Value (false, done ++ concat (map (expansion transform resolve false) pre)
                           ++ resolved resolve a :: post)).
Proof.
  induction pre as [|b pre IH]; intros fuel done a post Hall Hp Hfuel.
  - destruct fuel as [|fuel]; [cbn in Hfuel; lia|].
    cbn [expand_loop app map concat].
    rewrite list_lookup_middle by reflexivity.
    assert (Hset : <[length done := resolved resolve a]> (done ++ a :: post) =
                   done ++ resolved resolve a :: post).
    { rewrite insert_app_r_alt by lia. rewrite Nat.sub_diag. reflexivity. }
    unfold pending in Hp.
    destruct (value a); try contradiction; cbn zeta; rewrite Hp, Hset;
      reflexivity.
  - destruct fuel as [|fuel]; [cbn in Hfuel; lia|].
    apply Forall_cons in Hall. destruct Hall as [Hb Hpre].
    cbn [app]. rewrite expand_loop_step by assumption.
    replace (match pre ++ a :: post with [] => true | _ => false end)
      with false by (destruct pre; reflexivity).
    rewrite app_assoc.
    rewrite IH; [|assumption|assumption|cbn [length] in Hfuel; lia].
    cbn [map concat]. rewrite <- !app_assoc. reflexivity.
Qed.

Lemma existsb_eqb_In (n : string) (seen : list string) :
  existsb (String.eqb n) seen = true <-> List.In n seen.
Proof.
  rewrite existsb_exists. split.
  - intros (x & Hin & He). apply String.eqb_eq in He. subst. assumption.
  - intros Hin. exists n. split; [assumption|apply String.eqb_refl].
Qed.

(** The second loop finds no repeated name exactly when the names are
    pairwise different and none was seen before. *)
Lemma repeated_false (args : list Arg) :
  forall seen : list string,
  repeated seen args = false <->
  List.NoDup (names args) /\ (forall n, List.In n (names args) -> ~ List.In n seen).
Proof.
  induction args as [|a rest IH]; intros seen.
  - cbn. split; [intros _; split; [constructor|intros n []]|reflexivity].
  - cbn [repeated]. unfold names in *. cbn [map List.filter].
    destruct (String.eqb (name a) EmptyString) eqn:He; cbn [negb].
    + apply IH.
    + destruct (existsb (String.eqb (name a)) seen) eqn:Hs.
      * split; [discriminate|]. intros [_ Hn]. exfalso.
        apply (Hn (name a)); [left; reflexivity|].
        apply existsb_eqb_In. assumption.
      * assert (Hns : ~ List.In (name a) seen).
        { intros Hin. apply existsb_eqb_In in Hin. congruence. }
        rewrite IH. split.
        -- intros [Hnd Hn]. split.
           ++ constructor; [|assumption].
              intros Hin. apply (Hn _ Hin). left. reflexivity.
           ++ intros n [<-|Hin]; [assumption|].
              intros Hin'. apply (Hn _ Hin). right. assumption.
        -- intros [Hnd Hn]. inversion Hnd as [|x l Hx Hl]; subst.
           split; [assumption|].
           intros n Hin [<-|Hin']; [contradiction|].
           apply (Hn n); [right; assumption|assumption].
Qed.

(** When every starred argument of a call has a known record class
    (and no tuple for a double star) with a field name for each of its
    arguments, [transformCallArgs] leaves in the vector, in order, one
    unnamed argument [e.f] for each field of a starred [e], one argument
    [f = e.f] for each field of a double-starred [e], and the other
    arguments typechecked in their places, the unnamed ellipsis in the
    last place as a partial-call ellipsis; it returns [true] when the
    names of these arguments are pairwise different and raises
    CALL_REPEATED_NAME when they are not. *)
Theorem transformCallArgs_expanded (args : list Arg) :
  Forall (expandable resolve) args ->
  (List.NoDup (names (expanded transform resolve args)) ->
   transformCallArgs transform resolve (S (length args)) args =
   Some (Value (true, expanded transform resolve args))) /\
  (~ List.NoDup (names (expanded transform resolve args)) ->
   transformCallArgs transform resolve (S (length args)) args =
   Some (Raise CALL_REPEATED_NAME)).
Proof.
  intros Hall. unfold transformCallArgs.
  pose proof (expand_loop_all args (S (length args)) [] Hall ltac:(lia)) as Hrun.
  cbn [app length] in Hrun. rewrite Hrun.
  pose proof (repeated_false (expanded transform resolve args) []) as Hrep.
  split; intros Hnd.
  - destruct (repeated [] (expanded transform resolve args)); [|reflexivity].
    destruct Hrep as [_ Hrep]. exfalso.
    assert (Hno : true = false) by (apply Hrep; split; [assumption|intros n _ []]).
    discriminate Hno.
  - destruct (repeated [] (expanded transform resolve args)); [reflexivity|].
    exfalso. apply Hnd. apply Hrep. reflexivity.
Qed.

(** When the first argument of a call that cannot be expanded is a
    starred one whose class is not known yet, [transformCallArgs] returns
    [false]; the arguments before it are expanded in the vector, the
    starred expression of this argument holds what typechecking and
    unwrapping made of it, the arguments after it are as they were, and
    no name is checked. *)
Theorem transformCallArgs_pending (pre : list Arg) (a : Arg) (post : list Arg) :
  Forall (expandable resolve) pre -> pending resolve a ->
  transformCallArgs transform resolve (S (length (pre ++ a :: post))) (pre ++ a :: post) =
  Some (Value (false, concat (map (expansion transform resolve false) pre)
                      ++ resolved resolve a :: post)).
Proof.
  intros Hall Hp. unfold transformCallArgs.
  pose proof (expand_loop_pending pre (S (length (pre ++ a :: post))) [] a post
                Hall Hp) as Hrun.
  cbn [app length] in Hrun. rewrite Hrun; [reflexivity|].
  rewrite length_app. lia.
Qed.

End CallArgsFacts.

Section CallArgsExamples.
Import CallArgs.
Local Open Scope string_scope.

Lemma transformCallArgs_expanded_witness :
  transformCallArgs lift settle 5 call_args =
  Some (Value (true,
    [ mkArg "" (Other 101);
      mkArg "" (DotExpr 202 "item1"); mkArg "" (DotExpr 202 "item2");
      mkArg "x" (DotExpr 203 "x"); mkArg "y" (DotExpr 203 "y");
      mkArg "" (EllipsisExpr PARTIAL) ])).
Proof.
  assert (Hall : Forall (expandable settle) call_args).
  { repeat constructor; cbn.
    - exists pair_class. cbn. repeat split; lia.
    - exists point_class. cbn. repeat split; lia. }
  assert (Hnd : List.NoDup (names (expanded lift settle call_args))).
  { cbn. repeat constructor; cbn; intuition discriminate. }
  exact (proj1 (transformCallArgs_expanded lift settle call_args Hall) Hnd).
Defined.

Lemma transformCallArgs_pending_witness :
  transformCallArgs lift settle 4
    [ mkArg "" (StarExpr 2); mkArg "" (StarExpr 7); mkArg "k" (Other 1) ] =
  Some (Value (false,
    [ mkArg "" (DotExpr 202 "item1"); mkArg "" (DotExpr 202 "item2");
      mkArg "" (StarExpr 107);
      mkArg "k" (Other 1) ])).
Proof.
  assert (Hall : Forall (expandable settle) [mkArg "" (StarExpr 2)]).
  { repeat constructor. exists pair_class. cbn. repeat split; lia. }
  exact (transformCallArgs_pending lift settle _ (mkArg "" (StarExpr 7))
           [mkArg "k" (Other 1)] Hall eq_refl).
Defined.

End CallArgsExamples.
